(** * gif-utils: the frame compositor, the snapshot seek cache and the exporter

    A shallow embedding of [src/lib/gif-processor.ts] and of the [Editor]
    component (rendering, playback, seek queue and export), together with
    the properties of the design document that can be settled on it.

    Pixels are kept abstract: the source never inspects a pixel, it only
    hands buffers to the Canvas 2D API.  The three things the API does
    with pixels are a clear (to transparent), a copy and a source-over
    blend, so the development is parametric in a pixel type, its
    transparent value and the blend [over src dst]. *)

From Stdlib Require Import ZArith QArith Qround Lia Lqa.
From stdpp Require Import base tactics option list list_numbers gmap fin_maps fin_map_dom strings.

Local Open Scope Z_scope.

(** ** Completions: normal return or a thrown exception

    The state travels with both outcomes, because an exception thrown in
    the middle of [renderToFrame] leaves the refs as mutated so far. *)

Inductive completion (S : Type) : Type :=
| Normal (s : S)
| Abrupt (s : S).
Arguments Normal {S} s.
Arguments Abrupt {S} s.

Definition is_normal {S} (c : completion S) : bool :=
  match c with Normal _ => true | Abrupt _ => false end.

Definition final_state {S} (c : completion S) : S :=
  match c with Normal s | Abrupt s => s end.

(** [for (let i = start; ...; i++) body] with [n] iterations; a throw in
    the body leaves the loop. *)
Fixpoint for_loop {S} (body : Z → S → completion S) (i : Z) (n : nat) (s : S)
  : completion S :=
  match n with
  | O => Normal s
  | S n' =>
      match body i s with
      | Normal s' => for_loop body (i + 1) n' s'
      | Abrupt s' => Abrupt s'
      end
  end.

(** Two loops whose bodies stay related, and throw together, stay
    related. *)
Definition related {S T} (R : S → T → Prop) (a : completion S) (b : completion T)
  : Prop :=
  match a, b with
  | Normal s, Normal t => R s t
  | Abrupt _, Abrupt _ => True
  | _, _ => False
  end.

(** [arr[i]] for a JS number [i]: [undefined] outside the array. *)
Definition js_index {A} (l : list A) (i : Z) : option A :=
  if i <? 0 then None else l !! Z.to_nat i.

(** [Array.prototype.slice(start, end)] *)
Definition js_slice {A} (l : list A) (start end_ : Z) : list A :=
  let len := Z.of_nat (length l) in
  let k := if start <? 0 then Z.max (len + start) 0 else Z.min start len in
  let fin := if end_ <? 0 then Z.max (len + end_) 0 else Z.min end_ len in
  take (Z.to_nat (fin - k)) (drop (Z.to_nat k) l).

(** ** Decoded frames (gifuct-js [ParsedFrame]) *)

Record Dims := { left : nat; top : nat; width : nat; height : nat }.

Record ParsedFrame (pixel : Type) := {
  dims : Dims;
  patch : list pixel;        (* RGBA quadruples, row-major *)
  delay : Z;
  disposalType : Z;
}.
Arguments dims {pixel} _.
Arguments patch {pixel} _.
Arguments delay {pixel} _.
Arguments disposalType {pixel} _.

Section Canvas.
Context {pixel : Type}.
Variable transparent : pixel.
Variable over : pixel → pixel → pixel.

(** A bitmap (canvas backing store, [ImageData], [ImageBitmap]) is its
    list of rows. *)
Abbreviation Bitmap := (list (list pixel)).

Definition createCanvas (w h : nat) : Bitmap :=
  replicate h (replicate w transparent).

Definition pixelAt (c : Bitmap) (x y : nat) : option pixel :=
  c !! y ≫= λ row, row !! x.

Definition paint (f : nat → nat → pixel → pixel) (c : Bitmap) : Bitmap :=
  imap (λ y row, imap (λ x p, f x y p) row) c.

Definition in_rect (x y w h px py : nat) : bool :=
  ((x <=? px) && (px <? x + w) && (y <=? py) && (py <? y + h))%nat.

(** [ctx.clearRect(x, y, w, h)] *)
Definition clearRect (c : Bitmap) (x y w h : nat) : Bitmap :=
  paint (λ px py p, if in_rect x y w h px py then transparent else p) c.

(** [ctx.getImageData(0, 0, sw, sh)]: pixels outside the canvas read as
    transparent. *)
Definition getImageData (c : Bitmap) (sw sh : nat) : Bitmap :=
  (λ y, (λ x, default transparent (pixelAt c x y)) <$> seq 0 sw) <$> seq 0 sh.

(** [ctx.putImageData(img, dx, dy)]: a copy, no blending. *)
Definition putImageData (c img : Bitmap) (dx dy : nat) : Bitmap :=
  paint (λ x y p,
           if ((dx <=? x) && (dy <=? y))%nat
           then default p (pixelAt img (x - dx) (y - dy))
           else p) c.

(** [ctx.drawImage(src, dx, dy)]: source-over blend of [src]. *)
Definition drawImage (c src : Bitmap) (dx dy : nat) : Bitmap :=
  paint (λ x y p,
           if ((dx <=? x) && (dy <=? y))%nat
           then match pixelAt src (x - dx) (y - dy) with
                | Some s => over s p
                | None => p
                end
           else p) c.

(** [ctx.drawImage(src, sx, sy, sw, sh, 0, 0, sw, sh)]: the part of the
    source rectangle that lies inside [src] is blended at the origin. *)
Definition drawImageFrom (c src : Bitmap) (sx sy sw sh : Z) : Bitmap :=
  paint (λ x y p,
           let X := sx + Z.of_nat x in
           let Y := sy + Z.of_nat y in
           if (Z.of_nat x <? sw) && (Z.of_nat y <? sh) && (0 <=? X) && (0 <=? Y)
           then match pixelAt src (Z.to_nat X) (Z.to_nat Y) with
                | Some s => over s p
                | None => p
                end
           else p) c.

(** [new ImageData(data, sw, sh)] throws unless [data] holds exactly
    [sw * sh] pixels and is not empty. *)
Definition newImageData (data : list pixel) (sw sh : nat) : option Bitmap :=
  if ((0 <? sw) && (0 <? length data) && (length data =? sw * sh))%nat
  then Some ((λ y, take sw (drop (y * sw) data)) <$> seq 0 sh)
  else None.

Definition has_size (w h : nat) (c : Bitmap) : Prop :=
  length c = h ∧ Forall (λ row, length row = w) c.

(** ** The three blocks every compositing loop repeats

    [generateCompositedFrames], [generateThumbnails], [cropGif] and
    [renderToFrame] contain the same three blocks, in this order. *)

Abbreviation Frame := (ParsedFrame pixel).

(** Block 1, [if (i > 0) { ... }]: disposal of the previous frame.
    [None] is the TypeError of reading [disposalType] of [undefined]. *)
Definition disposal_handling (frames : list Frame) (i : Z)
    (ctx : Bitmap) (previousFrameData : option Bitmap) : option Bitmap :=
  if 0 <? i then
    match js_index frames (i - 1) with
    | None => None
    | Some prevFrame =>
        if disposalType prevFrame =? 2 then
          Some (clearRect ctx (left (dims prevFrame)) (top (dims prevFrame))
                          (width (dims prevFrame)) (height (dims prevFrame)))
        else if disposalType prevFrame =? 3 then
          match previousFrameData with
          | Some saved => Some (putImageData ctx saved 0 0)
          | None => Some ctx
          end
        else Some ctx
    end
  else Some ctx.

(** Block 2, [if (frame.disposalType === 3) previousFrameData = ...] *)
Definition save_state (frame : Frame) (w h : nat)
    (ctx : Bitmap) (previousFrameData : option Bitmap) : option Bitmap :=
  if disposalType frame =? 3 then Some (getImageData ctx w h)
  else previousFrameData.

(** [new ImageData(new Uint8ClampedArray(frame.patch), w, h)] *)
Definition patch_image (frame : Frame) : option Bitmap :=
  newImageData (patch frame) (width (dims frame)) (height (dims frame)).

(** Block 3, [ctx.drawImage(patchBitmap, frame.dims.left, frame.dims.top)] *)
Definition draw_patch (frame : Frame) (patchBitmap : Bitmap) (ctx : Bitmap)
  : Bitmap :=
  drawImage ctx patchBitmap (left (dims frame)) (top (dims frame)).

(** ** [GifData] and [parseGifFile] *)

Record GifData := {
  frames : list Frame;
  gwidth : nat;
  gheight : nat;
  canvas : Bitmap;
}.

(** What the external decoder hands back: the logical screen of the
    container and the decompressed frames. *)
Record Decoded := {
  lsd_width : nat;
  lsd_height : nat;
  decoded_frames : list Frame;
}.

(** [parseGifFile]; [None] stands for a rejected promise. *)
Definition parseGifFile (gif : Decoded) : option GifData :=
  match decoded_frames gif with
  | [] => None
  | frame0 :: _ =>
      let canvas0 :=
        createCanvas (width (dims frame0)) (height (dims frame0)) in
      match patch_image frame0 with
      | None => None
      | Some imageData =>
          Some {| frames := decoded_frames gif;
                  gwidth := width (dims frame0);
                  gheight := height (dims frame0);
                  canvas := putImageData canvas0 imageData
                              (left (dims frame0)) (top (dims frame0)) |}
      end
  end.

(** ** [generateCompositedFrames]

    The model is of a canvas with at least one pixel: for a canvas of
    width or height 0 the browser rejects
    [createImageBitmap(tempCanvas)], which is left out here.  A GIF that
    [parseGifFile] accepts has such a canvas. *)

Record CompState := {
  tempCanvas : Bitmap;
  previousFrameData : option Bitmap;
  compositedFrames : list Bitmap;
}.

Definition composited_body (fs : list Frame) (w h : nat) (i : Z)
    (st : CompState) : completion CompState :=
  match js_index fs i with
  | None => Abrupt st
  | Some frame =>
      match disposal_handling fs i (tempCanvas st) (previousFrameData st) with
      | None => Abrupt st
      | Some ctx1 =>
          let saved := save_state frame w h ctx1 (previousFrameData st) in
          match patch_image frame with
          | None => Abrupt st
          | Some patchBitmap =>
              let ctx2 := draw_patch frame patchBitmap ctx1 in
              Normal {| tempCanvas := ctx2;
                        previousFrameData := saved;
                        compositedFrames := compositedFrames st ++ [ctx2] |}
          end
      end
  end.

Definition generateCompositedFrames (gifData : GifData) : option (list Bitmap) :=
  let st0 := {| tempCanvas := createCanvas (gwidth gifData) (gheight gifData);
                previousFrameData := None;
                compositedFrames := [] |} in
  match for_loop (composited_body (frames gifData) (gwidth gifData) (gheight gifData))
                 0 (length (frames gifData)) st0 with
  | Normal st => Some (compositedFrames st)
  | Abrupt _ => None
  end.

(** ** [cropGif]

    The result is the sequence handed to the encoder by [gif.addFrame]:
    a copy of the crop canvas and the delay. *)

Record CropState := {
  tempCtx : Bitmap;
  cropPrevious : option Bitmap;
  cropCtx : Bitmap;
  added : list (Bitmap * Z);
}.

(** A canvas whose size was never set has the default size. *)
Definition default_canvas_width : nat := 300.
Definition default_canvas_height : nat := 150.

Definition crop_temp_size (originalFrames : list Frame) : nat * nat :=
  match originalFrames with
  | frame0 :: _ => (width (dims frame0), height (dims frame0))
  | [] => (default_canvas_width, default_canvas_height)
  end.

Definition crop_body (originalFrames : list Frame) (tw th : nat)
    (cropX cropY cropWidth cropHeight : Z) (i : Z) (st : CropState)
  : completion CropState :=
  match js_index originalFrames i with
  | None => Abrupt st
  | Some frame =>
      match patch_image frame with
      | None => Abrupt st
      | Some patchData =>
          match disposal_handling originalFrames i (tempCtx st) (cropPrevious st) with
          | None => Abrupt st
          | Some ctx1 =>
              let saved := save_state frame tw th ctx1 (cropPrevious st) in
              let ctx2 := draw_patch frame patchData ctx1 in
              let crop1 := clearRect (cropCtx st) 0 0
                             (Z.to_nat cropWidth) (Z.to_nat cropHeight) in
              let crop2 := drawImageFrom crop1 ctx2 cropX cropY cropWidth cropHeight in
              Normal {| tempCtx := ctx2;
                        cropPrevious := saved;
                        cropCtx := crop2;
                        added := added st ++ [(crop2, delay frame)] |}
          end
      end
  end.

(** Crop sizes are taken as non-negative integers ([Z.to_nat]); the
    callers in this repository pass sizes of at least one pixel. *)
Definition cropGif (originalFrames : list Frame)
    (cropX cropY cropWidth cropHeight : Z) : option (list (Bitmap * Z)) :=
  let '(tw, th) := crop_temp_size originalFrames in
  let st0 := {| tempCtx := createCanvas tw th;
                cropPrevious := None;
                cropCtx := createCanvas (Z.to_nat cropWidth) (Z.to_nat cropHeight);
                added := [] |} in
  match for_loop (crop_body originalFrames tw th cropX cropY cropWidth cropHeight)
                 0 (length originalFrames) st0 with
  | Normal st => Some (added st)
  | Abrupt _ => None
  end.

(** ** The editor's rendering refs and [renderToFrame] *)

Record Editor := {
  compositionCanvas : Bitmap;          (* compositionCanvasRef / compositionCtxRef *)
  lastRenderedFrame : Z;               (* lastRenderedFrameRef *)
  snapshots : gmap Z Bitmap;           (* snapshotsRef *)
  stageImage : option Bitmap;          (* stageImageRef *)
}.

(** The locals of one [renderToFrame] activation that its loop mutates. *)
Record RenderState := {
  ctx : Bitmap;
  savedData : option Bitmap;           (* the local [previousFrameData] *)
  snaps : gmap Z Bitmap;
}.

(** The [snapshotsRef.current.forEach] scan; the result does not depend
    on the order of the visit. *)
Definition closest_snapshot (m : gmap Z Bitmap) (targetFrame : Z) : Z :=
  map_fold (λ frameIdx _ closestFrame,
              if (frameIdx <=? targetFrame) && (closestFrame <? frameIdx)
              then frameIdx else closestFrame)
           (-1) m.

(** Step 1, "Determine optimal start point": [startFrame] and
    [restoreSnapshot]. *)
Definition start_point (ed : Editor) (targetFrame : Z) : Z * option Bitmap :=
  if negb (lastRenderedFrame ed =? -1) && (lastRenderedFrame ed <=? targetFrame)
  then (lastRenderedFrame ed + 1, None)
  else
    let closestFrame := closest_snapshot (snapshots ed) targetFrame in
    if negb (closestFrame =? -1)
    then (closestFrame + 1, snapshots ed !! closestFrame)
    else (0, None).

(** Step 2, "Restore State if needed". *)
Definition restore_state (data : GifData) (c : Bitmap) (startFrame : Z)
    (restoreSnapshot : option Bitmap) : Bitmap :=
  if startFrame =? 0 then clearRect c 0 0 (gwidth data) (gheight data)
  else
    match restoreSnapshot with
    | Some snapshot =>
        drawImage (clearRect c 0 0 (gwidth data) (gheight data))
                  snapshot 0 0
    | None => c
    end.

(** Step 3, one turn of the render loop, with step 4 (the snapshot every
    ten frames) at its end. *)
Definition render_body (data : GifData) (i : Z) (st : RenderState)
  : completion RenderState :=
  match disposal_handling (frames data) i (ctx st) (savedData st) with
  | None => Abrupt st
  | Some ctx1 =>
      match js_index (frames data) i with
      | None => Abrupt {| ctx := ctx1; savedData := savedData st; snaps := snaps st |}
      | Some frame =>
          let saved :=
            save_state frame (gwidth data) (gheight data) ctx1 (savedData st) in
          match patch_image frame with
          | None => Abrupt {| ctx := ctx1; savedData := saved; snaps := snaps st |}
          | Some patchBitmap =>
              let ctx2 := draw_patch frame patchBitmap ctx1 in
              Normal {| ctx := ctx2;
                        savedData := saved;
                        snaps := if (Z.rem i 10 =? 0)
                                    && negb (bool_decide (is_Some (snaps st !! i)))
                                 then <[i := ctx2]> (snaps st)
                                 else snaps st |}
          end
      end
  end.

Definition renderToFrame (targetFrame : Z) (data : GifData) (ed : Editor)
  : completion Editor :=
  let startFrame := fst (start_point ed targetFrame) in
  let restoreSnapshot := snd (start_point ed targetFrame) in
  let st0 := {| ctx := restore_state data (compositionCanvas ed) startFrame restoreSnapshot;
                savedData := None;
                snaps := snapshots ed |} in
  match for_loop (render_body data) startFrame
                 (Z.to_nat (targetFrame - startFrame + 1)) st0 with
  | Normal st =>
      Normal {| compositionCanvas := ctx st;
                lastRenderedFrame := targetFrame;
                snapshots := snaps st;
                stageImage := Some (ctx st) |}
  | Abrupt st =>
      Abrupt {| compositionCanvas := ctx st;
                lastRenderedFrame := lastRenderedFrame ed;
                snapshots := snaps st;
                stageImage := stageImage ed |}
  end.

(** The tail of [handleFileSelect]: "Initialize Composition Canvas",
    "Reset State", "Clear Snapshots" and "Initial Render". *)
Definition fresh_editor (data : GifData) : Editor :=
  {| compositionCanvas := createCanvas (gwidth data) (gheight data);
     lastRenderedFrame := -1;
     snapshots := ∅;
     stageImage := None |}.

Definition initial_render (data : GifData) : completion Editor :=
  renderToFrame 0 data (fresh_editor data).

(** Seek requests served one after the other, each call running to its
    end before the next one starts. *)
Fixpoint render_sequence (data : GifData) (targets : list Z) (ed : Editor) : Editor :=
  match targets with
  | [] => ed
  | t :: ts => render_sequence data ts (final_state (renderToFrame t data ed))
  end.

(** ** The compositor as the design document words it (section 4.1)

    These definitions follow the document, not the code: a disposal
    directive with three values, and per step a disposal of the previous
    frame, a save-for-restore capture and a draw, in that order. *)

Inductive Disposal := DisposeNone | RestoreBackground | RestorePrevious.

(** The directive a decoded [disposalType] number stands for. *)
Definition disposal_of (f : Frame) : Disposal :=
  if disposalType f =? 2 then RestoreBackground
  else if disposalType f =? 3 then RestorePrevious
  else DisposeNone.

(** What the decoder promises about a frame: a patch of exactly
    [width * height] pixels, with at least one pixel. *)
Definition valid_frame (f : Frame) : Prop :=
  (0 < width (dims f) ∧ 0 < height (dims f)
   ∧ length (patch f) = width (dims f) * height (dims f))%nat.

(** Step 1: pre-draw disposal of the previous frame. *)
Definition spec_dispose (prev : Frame) (cv : Bitmap) (savedForRestore : option Bitmap)
  : Bitmap :=
  match disposal_of prev with
  | DisposeNone => cv
  | RestoreBackground =>
      clearRect cv (left (dims prev)) (top (dims prev))
                (width (dims prev)) (height (dims prev))
  | RestorePrevious =>
      match savedForRestore with
      | Some buffer => buffer
      | None => cv
      end
  end.

(** Step 2: save-for-restore capture. *)
Definition spec_capture (frame : Frame) (cv : Bitmap) (savedForRestore : option Bitmap)
  : option Bitmap :=
  match disposal_of frame with
  | RestorePrevious => Some cv
  | _ => savedForRestore
  end.

(** Step 3: draw; the patch pixel for canvas position [(x, y)] is the
    one at offset [(y - top) * width + (x - left)] of the patch. *)
Definition spec_draw (frame : Frame) (cv : Bitmap) : Bitmap :=
  paint (λ x y p,
           if in_rect (left (dims frame)) (top (dims frame))
                      (width (dims frame)) (height (dims frame)) x y
           then match patch frame !! ((y - top (dims frame)) * width (dims frame)
                                      + (x - left (dims frame)))%nat with
                | Some s => over s p
                | None => p
                end
           else p) cv.

(** One step: frame [0] has no predecessor and so no disposal. *)
Definition spec_step (prev : option Frame) (frame : Frame)
    (st : Bitmap * option Bitmap) : Bitmap * option Bitmap :=
  let cv1 := match prev with
             | Some p => spec_dispose p (fst st) (snd st)
             | None => fst st
             end in
  let saved := spec_capture frame cv1 (snd st) in
  (spec_draw frame cv1, saved).

Fixpoint spec_replay (prev : option Frame) (fs : list Frame)
    (st : Bitmap * option Bitmap) : list Bitmap :=
  match fs with
  | [] => []
  | f :: rest =>
      let st' := spec_step prev f st in
      fst st' :: spec_replay (Some f) rest st'
  end.

(** Compositing frames [0..] in order from an empty canvas: the canvas
    after each frame. *)
Definition sequential_composite (fs : list Frame) (w h : nat) : list Bitmap :=
  spec_replay None fs (createCanvas w h, None).

(** The state of the document's compositor after the first [k] frames. *)
Fixpoint spec_state (fs : list Frame) (st0 : Bitmap * option Bitmap) (k : nat)
  : Bitmap * option Bitmap :=
  match k with
  | O => st0
  | S k' =>
      match fs !! k' with
      | Some f =>
          spec_step (match k' with O => None | S j => fs !! j end) f
                    (spec_state fs st0 k')
      | None => spec_state fs st0 k'
      end
  end.

(** What the exporter copies out of the full canvas for one frame. *)
Definition crop_view (x y w h : Z) (full : Bitmap) : Bitmap :=
  drawImageFrom (createCanvas (Z.to_nat w) (Z.to_nat h)) full x y w h.

(** The saved buffer, when there is one, has the size of the canvas. *)
Definition saved_sized (w h : nat) (saved : option Bitmap) : Prop :=
  ∀ s, saved = Some s → has_size w h s.

(** What links the state of the loop of [cropGif] to that of
    [generateCompositedFrames] after [k] frames. *)
Definition crop_related (fs : list Frame) (x y cw ch : Z)
    (k : nat) (stg : CompState) (stc : CropState) : Prop :=
  tempCanvas stg = tempCtx stc
  ∧ previousFrameData stg = cropPrevious stc
  ∧ has_size (Z.to_nat cw) (Z.to_nat ch) (cropCtx stc)
  ∧ length (compositedFrames stg) = k
  ∧ added stc = zip_with (λ c f, (crop_view x y cw ch c, delay f))
                         (compositedFrames stg) (take k fs).

(** ** Export: [handleExport] of the editor and [handleCrop] of the cropper *)

(** A [PixelCrop] of react-image-crop; its numbers need not be integers. *)
Record PixelCrop := { crop_x : Q; crop_y : Q; crop_width : Q; crop_height : Q }.

(** [Math.round]: the nearest integer, halves upwards. *)
Definition Math_round (q : Q) : Z := Qfloor (q + (1 # 2)).

(** The local [clamp] of [handleExport]. *)
Definition clamp (value min max : Z) : Z := Z.min (Z.max value min) max.

(** A number is truthy when it is not zero. *)
Definition truthy (q : Q) : bool := negb (Qeq_bool q 0).

Record ExportRequest := {
  ex_gifData : option GifData;
  exporting : bool;
  trimRange : Z * Z;
  appliedCrop : option PixelCrop;
  completedCrop : option PixelCrop;
}.

(** The arguments of a [cropGif] call. *)
Record CropCall := {
  call_frames : list Frame;
  cropX : Z;
  cropY : Z;
  cropWidth : Z;
  cropHeight : Z;
}.

(** The body of [handleExport] up to its call of [cropGif]; [None] is
    the early [return]. *)
Definition export_call (rq : ExportRequest) : option CropCall :=
  match ex_gifData rq with
  | None => None
  | Some gifData =>
      if exporting rq then None
      else
        let trimmedFrames :=
          js_slice (frames gifData) (fst (trimRange rq)) (snd (trimRange rq) + 1) in
        let full := {| call_frames := trimmedFrames; cropX := 0; cropY := 0;
                       cropWidth := Z.of_nat (gwidth gifData);
                       cropHeight := Z.of_nat (gheight gifData) |} in
        let exportCrop :=
          match appliedCrop rq with Some c => Some c | None => completedCrop rq end in
        match exportCrop with
        | Some c =>
            if truthy (crop_width c) && truthy (crop_height c) then
              let x := clamp (Math_round (crop_x c)) 0 (Z.of_nat (gwidth gifData) - 1) in
              let y := clamp (Math_round (crop_y c)) 0 (Z.of_nat (gheight gifData) - 1) in
              Some {| call_frames := trimmedFrames;
                      cropX := x;
                      cropY := y;
                      cropWidth := clamp (Math_round (crop_width c)) 1
                                         (Z.of_nat (gwidth gifData) - x);
                      cropHeight := clamp (Math_round (crop_height c)) 1
                                          (Z.of_nat (gheight gifData) - y) |}
            else Some full
        | None => Some full
        end
  end.

Inductive ExportOutcome :=
| ExportSkipped                              (* the early return *)
| ExportDone (out : list (Bitmap * Z))       (* the frames given to the encoder *)
| ExportFailed.                              (* the [catch]: "Export failed" *)

Definition run_call (c : CropCall) : option (list (Bitmap * Z)) :=
  cropGif (call_frames c) (cropX c) (cropY c) (cropWidth c) (cropHeight c).

Definition handleExport (rq : ExportRequest) : ExportOutcome :=
  match export_call rq with
  | None => ExportSkipped
  | Some c =>
      match run_call c with
      | Some out => ExportDone out
      | None => ExportFailed
      end
  end.

(** [handleCrop] of [GifCropper]: the frames and the four numbers it
    passes to [cropGif], or [None] for its early [return]. *)
Definition handleCrop (gifData : option GifData) (completedCrop : option PixelCrop)
  : option (list Frame * (Q * Q * Q * Q)) :=
  match gifData, completedCrop with
  | Some g, Some c =>
      if truthy (crop_width c) && truthy (crop_height c)
      then Some (frames g, (crop_x c, crop_y c, crop_width c, crop_height c))
      else None
  | _, _ => None
  end.

(** ** The geometry invariants of the design document (section 3)

    Modelled from the spec: the document's invariants for a crop
    rectangle and a trim range; the source has no function that checks
    them. *)
Definition crop_rect_ok (canvasWidth canvasHeight : nat) (c : PixelCrop) : bool :=
  Qle_bool 0 (crop_x c) && Qle_bool 0 (crop_y c)
  && Qle_bool 1 (crop_width c) && Qle_bool 1 (crop_height c)
  && Qle_bool (crop_x c + crop_width c) (inject_Z (Z.of_nat canvasWidth))
  && Qle_bool (crop_y c + crop_height c) (inject_Z (Z.of_nat canvasHeight)).

Definition trim_range_ok (frameCount : nat) (r : Z * Z) : bool :=
  (0 <=? fst r) && (fst r <=? snd r) && (snd r <? Z.of_nat frameCount).

(** What the seek path maintains when no frame asks for a restore of
    the previous canvas: the live canvas is the sequential composite of
    the frame rendered last, and every snapshot is the sequential
    composite of its index. *)
Definition composite_after (data : GifData) (k : Z) : Bitmap :=
  fst (spec_state (frames data)
         (createCanvas (gwidth data) (gheight data), None) (Z.to_nat (k + 1))).

Definition snapshots_exact (data : GifData) (m : gmap Z Bitmap) : Prop :=
  ∀ k c, m !! k = Some c →
         0 ≤ k < Z.of_nat (length (frames data)) ∧ c = composite_after data k.

Definition editor_exact (data : GifData) (ed : Editor) : Prop :=
  0 ≤ lastRenderedFrame ed < Z.of_nat (length (frames data))
  ∧ compositionCanvas ed = composite_after data (lastRenderedFrame ed)
  ∧ snapshots_exact data (snapshots ed).

(** ** Thumbnails

    The scale of [generateThumbnails]: the ratio of the requested height
    to the height of the animation, as an exact rational. *)
Definition thumbnail_scale (gifData : GifData) (height : nat) : Q :=
  (inject_Z (Z.of_nat height) / inject_Z (Z.of_nat (gheight gifData)))%Q.

(** ** Playback timing: the [loop] of the requestAnimationFrame effect *)

(** [frameForDelay?.delay || 100] *)
Definition updateInterval (fs : list Frame) (currentFrameIdx : Z) : Z :=
  match js_index fs currentFrameIdx with
  | Some frameForDelay =>
      if delay frameForDelay =? 0 then 100 else delay frameForDelay
  | None => 100
  end.

End Canvas.

(** The locals [lastTime] and [accumulator] of the effect; time stamps
    are taken as exact rationals. *)
Record Clock := { lastTime : Q; accumulator : Q }.

(** The timing part of [loop]: whether this callback advances the frame,
    and the clock afterwards. *)
Definition loop_clock (interval : Z) (currentTime : Q) (c : Clock) : bool * Clock :=
  let deltaTime := (currentTime - lastTime c)%Q in
  let acc := (accumulator c + deltaTime)%Q in
  if Qle_bool (inject_Z interval) acc then
    let acc1 := (acc - inject_Z interval)%Q in
    (true, {| lastTime := currentTime;
              accumulator := if Qle_bool acc1 (inject_Z interval * 5) then acc1 else 0%Q |})
  else (false, {| lastTime := currentTime; accumulator := acc |}).

(** ** The sequencer: playback ticks, manual seeks and the seek queue

    [renderToFrame] is asynchronous: it returns to the event loop at its
    first [await] and finishes later.  An activation that has started and
    not yet finished is recorded in [running]. *)

Record Activation := {
  via_queue : bool;     (* started by [performRender], otherwise by [loop] *)
  target : Z;
}.

Record Sequencer := {
  gifLoaded : bool;                (* [gifData] is set *)
  canvasReady : bool;              (* the composition canvas and context are set *)
  currentFrameIdx : Z;
  isPlaying : bool;
  playRange : Z * Z;               (* [trimRange] *)
  isRendering : bool;              (* isRenderingRef *)
  nextSeekFrame : option Z;        (* nextSeekFrameRef *)
  running : list Activation;
}.

Definition setCurrentFrameIdx (i : Z) (s : Sequencer) : Sequencer :=
  {| gifLoaded := gifLoaded s; canvasReady := canvasReady s;
     currentFrameIdx := i; isPlaying := isPlaying s; playRange := playRange s;
     isRendering := isRendering s; nextSeekFrame := nextSeekFrame s;
     running := running s |}.

Definition setIsPlaying (b : bool) (s : Sequencer) : Sequencer :=
  {| gifLoaded := gifLoaded s; canvasReady := canvasReady s;
     currentFrameIdx := currentFrameIdx s; isPlaying := b; playRange := playRange s;
     isRendering := isRendering s; nextSeekFrame := nextSeekFrame s;
     running := running s |}.

Definition set_isRendering (b : bool) (s : Sequencer) : Sequencer :=
  {| gifLoaded := gifLoaded s; canvasReady := canvasReady s;
     currentFrameIdx := currentFrameIdx s; isPlaying := isPlaying s;
     playRange := playRange s;
     isRendering := b; nextSeekFrame := nextSeekFrame s;
     running := running s |}.

Definition set_nextSeekFrame (o : option Z) (s : Sequencer) : Sequencer :=
  {| gifLoaded := gifLoaded s; canvasReady := canvasReady s;
     currentFrameIdx := currentFrameIdx s; isPlaying := isPlaying s;
     playRange := playRange s;
     isRendering := isRendering s; nextSeekFrame := o;
     running := running s |}.

(** A call of [renderToFrame] begins and suspends. *)
Definition start_render (a : Activation) (s : Sequencer) : Sequencer :=
  {| gifLoaded := gifLoaded s; canvasReady := canvasReady s;
     currentFrameIdx := currentFrameIdx s; isPlaying := isPlaying s;
     playRange := playRange s;
     isRendering := isRendering s; nextSeekFrame := nextSeekFrame s;
     running := running s ++ [a] |}.

(** [performRender] up to its [await]: without data or canvas it has
    nothing to wait for and its [finally] runs at once. *)
Definition performRender (index : Z) (s : Sequencer) : Sequencer :=
  let s1 := set_isRendering true s in
  if gifLoaded s1 && canvasReady s1
  then start_render {| via_queue := true; target := index |} s1
  else set_isRendering false s1.

(** [processSeekQueue] up to the [await performRender(target)]. *)
Definition processSeekQueue (s : Sequencer) : Sequencer :=
  if isRendering s then s
  else
    match nextSeekFrame s with
    | Some t => performRender t (set_nextSeekFrame None s)
    | None => s
    end.

Definition handleSeek (index : Z) (s : Sequencer) : Sequencer :=
  processSeekQueue
    (set_nextSeekFrame (Some index) (setIsPlaying false (setCurrentFrameIdx index s))).

(** The frame advance of [loop] (its [accumulator >= updateInterval]
    branch): the updater of [setCurrentFrameIdx] calls [renderToFrame]
    itself. *)
Definition playback_advance (s : Sequencer) : Sequencer :=
  if isPlaying s && gifLoaded s then
    let next := currentFrameIdx s + 1 in
    let tgt := if snd (playRange s) <? next then fst (playRange s) else next in
    let s1 := if canvasReady s
              then start_render {| via_queue := false; target := tgt |} s
              else s in
    setCurrentFrameIdx tgt s1
  else s.

(** The [k]-th running activation returns without an exception.  For
    one started by [performRender] the [finally] clears the flag and the
    rest of [processSeekQueue] looks at the queue again. *)
Definition render_returns (k : nat) (s : Sequencer) : Sequencer :=
  match running s !! k with
  | None => s
  | Some a =>
      let s1 := {| gifLoaded := gifLoaded s; canvasReady := canvasReady s;
                   currentFrameIdx := currentFrameIdx s; isPlaying := isPlaying s;
                   playRange := playRange s;
                   isRendering := isRendering s; nextSeekFrame := nextSeekFrame s;
                   running := delete k (running s) |} in
      if via_queue a then processSeekQueue (set_isRendering false s1) else s1
  end.

(** The [k]-th running activation throws.  [performRender] has no
    [catch]: its [finally] clears the flag and the exception leaves
    [processSeekQueue] at its [await], before the queue is looked at
    again.  A render started by [loop] is awaited by nobody. *)
Definition render_throws (k : nat) (s : Sequencer) : Sequencer :=
  match running s !! k with
  | None => s
  | Some a =>
      let s1 := {| gifLoaded := gifLoaded s; canvasReady := canvasReady s;
                   currentFrameIdx := currentFrameIdx s; isPlaying := isPlaying s;
                   playRange := playRange s;
                   isRendering := isRendering s; nextSeekFrame := nextSeekFrame s;
                   running := delete k (running s) |} in
      if via_queue a then set_isRendering false s1 else s1
  end.

Inductive Event :=
| Seek (index : Z)          (* timeline click, playhead drag, arrow key *)
| PlayPause                 (* the play button: [setIsPlaying(!isPlaying)] *)
| Advance                   (* a playback tick that advances the frame *)
| Returns (k : nat)         (* a running [renderToFrame] finishes *)
| Throws (k : nat).         (* a running [renderToFrame] throws *)

Definition react (e : Event) (s : Sequencer) : Sequencer :=
  match e with
  | Seek i => handleSeek i s
  | PlayPause => setIsPlaying (negb (isPlaying s)) s
  | Advance => playback_advance s
  | Returns k => render_returns k s
  | Throws k => render_throws k s
  end.

Definition no_throw (e : Event) : Prop :=
  match e with Throws _ => False | _ => True end.

Definition run_events (es : list Event) (s : Sequencer) : Sequencer :=
  foldl (λ s e, react e s) s es.

(** The number of running activations that came through the queue. *)
Fixpoint queue_renders (l : list Activation) : nat :=
  match l with
  | [] => 0
  | a :: l' => (if via_queue a then 1 else 0) + queue_renders l'
  end.

(** The flag tells whether a render started by a seek is running, and
    there is at most one. *)
Definition flag_invariant (s : Sequencer) : Prop :=
  if isRendering s then queue_renders (running s) = 1%nat
  else queue_renders (running s) = 0%nat.

(** As long as no render throws, a frame moreover waits in the queue
    only while a render started by a seek is running. *)
Definition queue_invariant (s : Sequencer) : Prop :=
  if isRendering s then queue_renders (running s) = 1%nat
  else queue_renders (running s) = 0%nat ∧ nextSeekFrame s = None.

(** The editor once a GIF with [n] frames is loaded and idle. *)
Definition loaded_editor (n : Z) : Sequencer :=
  {| gifLoaded := true; canvasReady := true; currentFrameIdx := 0;
     isPlaying := false; playRange := (0, n - 1);
     isRendering := false; nextSeekFrame := None; running := [] |}.


(** ** The shape of the snapshot cache

    The keys are multiples of ten from 0 on, without a gap below any
    stored key, and they cover every multiple of ten up to the frame
    rendered last. *)
Section CacheShape.
Context {pixel : Type}.

Definition checkpoints_complete (ed : @Editor pixel) : Prop :=
  (∀ k, is_Some (snapshots ed !! k) → 0 ≤ k ∧ Z.rem k 10 = 0)
  ∧ (∀ k j, is_Some (snapshots ed !! k) → 0 ≤ j ≤ k → Z.rem j 10 = 0 →
            is_Some (snapshots ed !! j))
  ∧ (∀ j, 0 ≤ j ≤ lastRenderedFrame ed → Z.rem j 10 = 0 →
          is_Some (snapshots ed !! j)).

(** The number of turns of the render loop in a call with target [t]. *)
Definition replayed_frames (ed : @Editor pixel) (t : Z) : nat :=
  Z.to_nat (t - fst (start_point ed t) + 1).

End CacheShape.

(** ** [generateThumbnails]

    The compositing loop once more, on a canvas of the full size, and
    after every frame a scaled copy on the thumbnail canvas.  The scaled
    [drawImage(tempCanvas, 0, 0, width, height)] resamples in the
    browser: it is a parameter here, and so is the [width] that
    [Math.floor(originalWidth * scale)] gives in floating point (0 for
    an animation more than [height] times as high as wide).  A canvas
    without pixels is refused twice: [drawImage] throws for such a
    source, and [createImageBitmap] rejects it. *)

Section Thumbnails.
Context {pixel : Type}.
Variable transparent : pixel.
Variable over : pixel → pixel → pixel.
(** [ctx.drawImage(source, 0, 0, dw, dh)] on the canvas given last *)
Variable drawImageScaled :
  list (list pixel) → nat → nat → list (list pixel) → list (list pixel).

Record ThumbState := {
  thumbTemp : list (list pixel);
  thumbPrevious : option (list (list pixel));
  thumbCanvas : list (list pixel);
  thumbnails : list (list (list pixel));
}.

Definition thumb_body (fs : list (ParsedFrame pixel)) (originalWidth originalHeight : nat)
    (width height : nat) (i : Z) (st : ThumbState) : completion ThumbState :=
  match js_index fs i with
  | None => Abrupt st
  | Some frame =>
      match disposal_handling transparent fs i (thumbTemp st) (thumbPrevious st) with
      | None => Abrupt st
      | Some ctx1 =>
          let saved :=
            save_state transparent frame originalWidth originalHeight ctx1
                       (thumbPrevious st) in
          match patch_image frame with
          | None => Abrupt st
          | Some patchBitmap =>
              let ctx2 := draw_patch over frame patchBitmap ctx1 in
              if ((originalWidth =? 0) || (originalHeight =? 0))%nat then Abrupt st
              else
                let thumb :=
                  drawImageScaled ctx2 width height
                    (clearRect transparent (thumbCanvas st) 0 0 width height) in
                if ((width =? 0) || (height =? 0))%nat then Abrupt st
                else
                  Normal {| thumbTemp := ctx2;
                            thumbPrevious := saved;
                            thumbCanvas := thumb;
                            thumbnails := thumbnails st ++ [thumb] |}
          end
      end
  end.

Definition generateThumbnails (gifData : GifData) (width height : nat)
  : option (list (list (list pixel))) :=
  let st0 := {| thumbTemp := createCanvas transparent (gwidth gifData) (gheight gifData);
                thumbPrevious := None;
                thumbCanvas := createCanvas transparent width height;
                thumbnails := [] |} in
  match for_loop (thumb_body (frames gifData) (gwidth gifData) (gheight gifData)
                             width height)
                 0 (length (frames gifData)) st0 with
  | Normal st => Some (thumbnails st)
  | Abrupt _ => None
  end.

(** What links the state of the loop of [generateThumbnails] to that of
    [generateCompositedFrames]. *)
Definition thumb_related (width height : nat) (k : nat)
    (stg : CompState) (stt : ThumbState) : Prop :=
  tempCanvas stg = thumbTemp stt
  ∧ previousFrameData stg = thumbPrevious stt
  ∧ has_size width height (thumbCanvas stt)
  ∧ thumbnails stt
    = (λ c, drawImageScaled c width height (createCanvas transparent width height))
        <$> compositedFrames stg.

End Thumbnails.

(** ** Trim, crop and undo history: the editing handlers of [Editor], its
    keyboard shortcuts and the drag handlers of [Timeline]

    The handlers are taken one at a time, each on the state the previous
    one left.  Pixel positions do not appear: an event carries the frame
    index that [Math.floor] or [Math.round] made of the mouse position. *)

Module Ui.

(** [EditorSnapshot]: what an undo step restores. *)
Record EditorSnapshot := {
  snap_trimRange : Z * Z;
  snap_appliedCrop : option PixelCrop;
}.

(** [isDragging] of [Timeline]: ['start' | 'end' | 'range']. *)
Inductive DragKind := DragStart | DragEnd | DragRange.

Record State := {
  player : Sequencer;                       (* playback and seek state; [playRange] is [trimRange] *)
  frameCount : nat;                         (* gifData.frames.length = thumbnails.length *)
  canvasWidth : nat;                        (* gifData.width *)
  canvasHeight : nat;                       (* gifData.height *)
  cropToolActive : bool;                    (* activeTool === 'crop' *)
  crop : option PixelCrop;
  completedCrop : option PixelCrop;
  appliedCrop : option PixelCrop;
  past : list EditorSnapshot;               (* historyRef.current.past *)
  future : list EditorSnapshot;             (* historyRef.current.future *)
  lastCommittedTrim : option (Z * Z);       (* lastCommittedTrimRef *)
  isDragging : option DragKind;             (* Timeline *)
  dragStartIndex : Z;                       (* dragStartIndexRef *)
  playheadDragging : bool;                  (* playheadDraggingRef *)
}.

Definition trimRange (s : State) : Z * Z := playRange (player s).

Definition set_player (p : Sequencer) (s : State) : State :=
  {| player := p; frameCount := frameCount s; canvasWidth := canvasWidth s;
     canvasHeight := canvasHeight s; cropToolActive := cropToolActive s;
     crop := crop s; completedCrop := completedCrop s; appliedCrop := appliedCrop s;
     past := past s; future := future s; lastCommittedTrim := lastCommittedTrim s;
     isDragging := isDragging s; dragStartIndex := dragStartIndex s;
     playheadDragging := playheadDragging s |}.

Definition setTrimRange (r : Z * Z) (s : State) : State :=
  set_player
    {| gifLoaded := gifLoaded (player s); canvasReady := canvasReady (player s);
       currentFrameIdx := currentFrameIdx (player s); isPlaying := isPlaying (player s);
       playRange := r;
       isRendering := isRendering (player s); nextSeekFrame := nextSeekFrame (player s);
       running := running (player s) |} s.

(** [setCrop], [setCompletedCrop], [setAppliedCrop] and [setActiveTool]
    in one. *)
Definition set_crops (tool : bool) (c cc ac : option PixelCrop) (s : State) : State :=
  {| player := player s; frameCount := frameCount s; canvasWidth := canvasWidth s;
     canvasHeight := canvasHeight s; cropToolActive := tool;
     crop := c; completedCrop := cc; appliedCrop := ac;
     past := past s; future := future s; lastCommittedTrim := lastCommittedTrim s;
     isDragging := isDragging s; dragStartIndex := dragStartIndex s;
     playheadDragging := playheadDragging s |}.

Definition set_history (p f : list EditorSnapshot) (s : State) : State :=
  {| player := player s; frameCount := frameCount s; canvasWidth := canvasWidth s;
     canvasHeight := canvasHeight s; cropToolActive := cropToolActive s;
     crop := crop s; completedCrop := completedCrop s; appliedCrop := appliedCrop s;
     past := p; future := f; lastCommittedTrim := lastCommittedTrim s;
     isDragging := isDragging s; dragStartIndex := dragStartIndex s;
     playheadDragging := playheadDragging s |}.

Definition set_lastCommittedTrim (r : option (Z * Z)) (s : State) : State :=
  {| player := player s; frameCount := frameCount s; canvasWidth := canvasWidth s;
     canvasHeight := canvasHeight s; cropToolActive := cropToolActive s;
     crop := crop s; completedCrop := completedCrop s; appliedCrop := appliedCrop s;
     past := past s; future := future s; lastCommittedTrim := r;
     isDragging := isDragging s; dragStartIndex := dragStartIndex s;
     playheadDragging := playheadDragging s |}.

Definition set_drag (d : option DragKind) (start : Z) (ph : bool) (s : State) : State :=
  {| player := player s; frameCount := frameCount s; canvasWidth := canvasWidth s;
     canvasHeight := canvasHeight s; cropToolActive := cropToolActive s;
     crop := crop s; completedCrop := completedCrop s; appliedCrop := appliedCrop s;
     past := past s; future := future s; lastCommittedTrim := lastCommittedTrim s;
     isDragging := d; dragStartIndex := start; playheadDragging := ph |}.

(** *** History *)

Definition getSnapshot (s : State) : EditorSnapshot :=
  {| snap_trimRange := trimRange s; snap_appliedCrop := appliedCrop s |}.

(** [past.push(snapshot); future = []] *)
Definition pushHistory (snapshot : EditorSnapshot) (s : State) : State :=
  set_history (past s ++ [snapshot]) [] s.

(** What [handleUndo] and [handleRedo] do with the snapshot they popped. *)
Definition restore_snapshot (e : EditorSnapshot) (s : State) : State :=
  set_lastCommittedTrim (Some (snap_trimRange e))
    (set_crops (cropToolActive s) (snap_appliedCrop e) (snap_appliedCrop e)
       (snap_appliedCrop e) (setTrimRange (snap_trimRange e) s)).

Definition handleUndo (s : State) : State :=
  let current := getSnapshot s in
  match last (past s) with
  | None => s
  | Some previous =>
      restore_snapshot previous
        (set_history (removelast (past s)) (future s ++ [current]) s)
  end.

Definition handleRedo (s : State) : State :=
  match last (future s) with
  | None => s
  | Some next =>
      let current := getSnapshot s in
      restore_snapshot next
        (set_history (past s ++ [current]) (removelast (future s)) s)
  end.

(** *** Trim actions *)

Definition setTrimStart (s : State) : State :=
  let cur := currentFrameIdx (player s) in
  if snd (trimRange s) <=? cur then s
  else
    set_lastCommittedTrim (Some (cur, snd (trimRange s)))
      (setTrimRange (cur, snd (trimRange s)) (pushHistory (getSnapshot s) s)).

Definition setTrimEnd (s : State) : State :=
  let cur := currentFrameIdx (player s) in
  if cur <=? fst (trimRange s) then s
  else
    set_lastCommittedTrim (Some (fst (trimRange s), cur))
      (setTrimRange (fst (trimRange s), cur) (pushHistory (getSnapshot s) s)).

Definition seek (index : Z) (s : State) : State :=
  set_player (handleSeek index (player s)) s.

(** [onTrimChange] of [Editor]: the live preview seeks to the handle
    that moved. *)
Definition onTrimChange (newRange : Z * Z) (s : State) : State :=
  let oldRange := trimRange s in
  let s1 := setTrimRange newRange s in
  if negb (fst newRange =? fst oldRange) then seek (fst newRange) s1
  else if negb (snd newRange =? snd oldRange) then seek (snd newRange) s1
  else s1.

(** [onTrimCommit] of [Editor] *)
Definition onTrimCommit (range : Z * Z) (s : State) : State :=
  let changed :=
    match lastCommittedTrim s with
    | None => true
    | Some l => negb (fst l =? fst range) || negb (snd l =? snd range)
    end in
  if changed then
    setTrimRange range
      (set_lastCommittedTrim (Some range)
         (pushHistory
            {| snap_trimRange := default (trimRange s) (lastCommittedTrim s);
               snap_appliedCrop := appliedCrop s |} s))
  else s.

(** *** Crop tool *)

(** The [Enter] branch of the key handler: apply the completed crop. *)
Definition apply_crop (s : State) : State :=
  match completedCrop s with
  | Some c =>
      if truthy (crop_width c) && truthy (crop_height c) then
        set_crops (cropToolActive s) (Some c) (Some c) (Some c)
          (pushHistory (getSnapshot s) s)
      else s
  | None => s
  end.

(** [onToolSelect] of the toolbar, whose only tool is the crop tool. *)
Definition onToolSelect (cropTool : bool) (s : State) : State :=
  if cropTool then
    let base :=
      match appliedCrop s with
      | Some c => c
      | None => {| crop_x := 0; crop_y := 0;
                   crop_width := inject_Z (Z.of_nat (canvasWidth s));
                   crop_height := inject_Z (Z.of_nat (canvasHeight s)) |}
      end in
    set_crops true (Some base) (Some base) (appliedCrop s) s
  else set_crops false (crop s) (completedCrop s) (appliedCrop s) s.

(** *** Keyboard shortcuts: [handleKeyDown] *)

Record KeyboardEvent := {
  targetIsInput : bool;      (* the target is an input or a textarea *)
  ctrlKey : bool;
  metaKey : bool;
  shiftKey : bool;
  key : string;
}.

Definition key_is (e : KeyboardEvent) (k : string) : bool := bool_decide (key e = k).

(** [e.key.toLowerCase() === lower] for a letter *)
Definition key_lower_is (e : KeyboardEvent) (lower upper : string) : bool :=
  key_is e lower || key_is e upper.

Definition handleKeyDown (e : KeyboardEvent) (s : State) : State :=
  let mod_ := ctrlKey e || metaKey e in
  if targetIsInput e then s
  else if mod_ && (key_is e "+" || key_is e "-" || key_is e "=" || key_is e "0") then s
  else if mod_ && key_lower_is e "z" "Z" then
    (if shiftKey e then handleRedo s else handleUndo s)
  else if mod_ && key_lower_is e "y" "Y" then handleRedo s
  else if key_is e "Enter" && cropToolActive s then apply_crop s
  else if key_is e " " then s
  else if key_is e "[" then setTrimStart s
  else if key_is e "]" then setTrimEnd s
  else if key_is e "ArrowLeft" then
    seek (Z.max 0 (currentFrameIdx (player s) - 1)) s
  else if key_is e "ArrowRight" then
    (if gifLoaded (player s)
     then seek (Z.min (Z.of_nat (frameCount s) - 1) (currentFrameIdx (player s) + 1)) s
     else s)
  else s.

(** *** Timeline *)

(** The clamp of [getFrameIndexFromMouse] and [updateTrim] on the index
    [Math.floor(relativeX / ITEM_FULL_WIDTH)]. *)
Definition clamp_index (count : nat) (index : Z) : Z :=
  Z.max 0 (Z.min index (Z.of_nat count - 1)).

Definition handleMouseDown (kind : DragKind) (s : State) : State :=
  set_drag (Some kind)
           (match kind with DragRange => fst (trimRange s) | _ => dragStartIndex s end)
           (playheadDragging s) s.

(** [updateTrim]: [index] is the floor of the mouse position in frames,
    [deltaFrames] the rounded distance from where the range drag began. *)
Definition updateTrim (index deltaFrames : Z) (s : State) : State :=
  match isDragging s with
  | None => s
  | Some DragStart =>
      let i := clamp_index (frameCount s) index in
      if i <? snd (trimRange s) then onTrimChange (i, snd (trimRange s)) s else s
  | Some DragEnd =>
      let i := clamp_index (frameCount s) index in
      if fst (trimRange s) <? i then onTrimChange (fst (trimRange s), i) s else s
  | Some DragRange =>
      let length := snd (trimRange s) - fst (trimRange s) in
      let newStart :=
        Z.max 0 (Z.min (dragStartIndex s + deltaFrames)
                       (Z.of_nat (frameCount s) - 1 - length)) in
      onTrimChange (newStart, newStart + length) s
  end.

(** The [mouseup] listener of a trim drag. *)
Definition handleMouseUp (s : State) : State :=
  match isDragging s with
  | None => s
  | Some _ =>
      onTrimCommit (trimRange s) (set_drag None (dragStartIndex s) (playheadDragging s) s)
  end.

(** The [mousemove] listener of the playhead. *)
Definition playheadMove (index : Z) (s : State) : State :=
  if playheadDragging s then seek (clamp_index (frameCount s) index) s else s.

(** *** Events *)

Inductive UiEvent :=
| KeyDown (e : KeyboardEvent)
| ClickThumbnail (index : nat)
| ClickUndo
| ClickRedo
| ClickPlay
| ClickSetStart
| ClickSetEnd
| SelectTool (cropTool : bool)
| CropChange (c : PixelCrop)                 (* onCropChange of the stage *)
| CropComplete (c : PixelCrop)               (* onCropComplete of the stage *)
| HandleDown (kind : DragKind)
| PlayheadDown
| MouseMove (playheadIndex index deltaFrames : Z)
| MouseUp
| Tick                                       (* a playback tick that advances *)
| RenderReturns (k : nat)
| RenderThrows (k : nat).

Definition step (ev : UiEvent) (s : State) : State :=
  match ev with
  | KeyDown e => handleKeyDown e s
  | ClickThumbnail index =>
      if (index <? frameCount s)%nat then seek (Z.of_nat index) s else s
  | ClickUndo => handleUndo s
  | ClickRedo => handleRedo s
  | ClickPlay => set_player (setIsPlaying (negb (isPlaying (player s))) (player s)) s
  | ClickSetStart => setTrimStart s
  | ClickSetEnd => setTrimEnd s
  | SelectTool cropTool => onToolSelect cropTool s
  | CropChange c => set_crops (cropToolActive s) (Some c) (completedCrop s) (appliedCrop s) s
  | CropComplete c => set_crops (cropToolActive s) (crop s) (Some c) (appliedCrop s) s
  | HandleDown kind => handleMouseDown kind s
  | PlayheadDown => set_drag (isDragging s) (dragStartIndex s) true s
  | MouseMove playheadIndex index deltaFrames =>
      updateTrim index deltaFrames (playheadMove playheadIndex s)
  | MouseUp =>
      handleMouseUp (set_drag (isDragging s) (dragStartIndex s) false s)
  | Tick => set_player (playback_advance (player s)) s
  | RenderReturns k => set_player (render_returns k (player s)) s
  | RenderThrows k => set_player (render_throws k (player s)) s
  end.

Definition run (evs : list UiEvent) (s : State) : State :=
  foldl (λ s ev, step ev s) s evs.

(** The state of the tail of [handleFileSelect] for a GIF of
    [n] frames: frame 0, the full trim range, an empty history. *)
Definition opened (n w h : nat) : State :=
  {| player := loaded_editor (Z.of_nat n);
     frameCount := n; canvasWidth := w; canvasHeight := h;
     cropToolActive := false; crop := None; completedCrop := None; appliedCrop := None;
     past := []; future := [];
     lastCommittedTrim := Some (0, Z.of_nat n - 1);
     isDragging := None; dragStartIndex := 0; playheadDragging := false |}.

(** What every handler keeps: the trim range, the current frame, the
    queued frame and every running render are inside the frames, and so
    is every range kept for undo, redo or commit. *)
Definition in_frames (n : nat) (i : Z) : Prop := 0 ≤ i < Z.of_nat n.

Definition player_ok (n : nat) (p : Sequencer) : Prop :=
  gifLoaded p = true
  ∧ trim_range_ok n (playRange p) = true
  ∧ in_frames n (currentFrameIdx p)
  ∧ (∀ t, nextSeekFrame p = Some t → in_frames n t)
  ∧ Forall (λ a, in_frames n (target a)) (running p).

Definition well_formed (s : State) : Prop :=
  player_ok (frameCount s) (player s)
  ∧ Forall (λ e, trim_range_ok (frameCount s) (snap_trimRange e) = true)
           (past s ++ future s)
  ∧ (∀ r, lastCommittedTrim s = Some r → trim_range_ok (frameCount s) r = true).

(** Outside a drag the range committed last is the trim range. *)
Definition committed (s : State) : Prop :=
  isDragging s = None → lastCommittedTrim s = Some (trimRange s).

End Ui.

Module Sample.

(** GIF pixels are either transparent or opaque, and for those the
    source-over blend is exact: an opaque source replaces the destination,
    a transparent one leaves it. *)
Inductive px := Clear | Ink (colour : nat).

Definition blend (s d : px) : px :=
  match s with Clear => d | Ink _ => s end.

Definition frame (l t w h : nat) (p : list px) (d disposal : Z) : ParsedFrame px :=
  {| dims := {| left := l; top := t; width := w; height := h |};
     patch := p; delay := d; disposalType := disposal |}.

(** Three frames on a 2x1 canvas: a full frame, a frame to be restored
    away (disposal 3) and a last frame with a zero delay. *)
Definition three_frames : list (ParsedFrame px) :=
  [ frame 0 0 2 1 [Ink 1; Ink 1] 100 0;
    frame 0 0 1 1 [Ink 2] 100 3;
    frame 1 0 1 1 [Ink 3] 0 0 ].

(** The same frames in a container whose logical screen is 5x5. *)
Definition three_gif : @Decoded px :=
  {| lsd_width := 5; lsd_height := 5; decoded_frames := three_frames |}.

Definition three_data : @GifData px :=
  {| frames := three_frames; gwidth := 2; gheight := 1;
     canvas := [[Ink 1; Ink 1]] |}.

(** Twenty-six equal one-pixel frames. *)
Definition long_frames : list (ParsedFrame px) :=
  replicate 26 (frame 0 0 1 1 [Ink 1] 100 0).

Definition long_data : @GifData px :=
  {| frames := long_frames; gwidth := 1; gheight := 1; canvas := [[Ink 1]] |}.

(** The editor right after each of the two animations was loaded. *)
Definition three_loaded : @Editor px :=
  final_state (initial_render Clear blend three_data).

Definition long_loaded : @Editor px :=
  final_state (initial_render Clear blend long_data).

(** A crop rectangle that starts left of the canvas and is far wider
    than it. *)
Definition wild_crop : PixelCrop :=
  {| crop_x := (-5)%Q; crop_y := 0%Q; crop_width := 1000%Q; crop_height := 1%Q |}.

(** An export request with that rectangle and with a trim range that
    ends behind the last frame. *)
Definition wild_request : @ExportRequest px :=
  {| ex_gifData := Some three_data; exporting := false; trimRange := (0, 7);
     appliedCrop := None; completedCrop := Some wild_crop |}.

Definition full_request : @ExportRequest px :=
  {| ex_gifData := Some three_data; exporting := false; trimRange := (0, 2);
     appliedCrop := None; completedCrop := None |}.

Definition tail_request : @ExportRequest px :=
  {| ex_gifData := Some three_data; exporting := false; trimRange := (1, 2);
     appliedCrop := None; completedCrop := None |}.

(** A resampler for the scaled [drawImage]: nearest neighbour, blended
    onto the destination. *)
Definition nearest (src : list (list px)) (dw dh : nat) (dest : list (list px))
  : list (list px) :=
  paint (λ x y p,
           if in_rect 0 0 dw dh x y
           then blend (default Clear
                         (pixelAt src (x * length (default [] (head src)) / dw)
                                      (y * length src / dh))) p
           else p) dest.

End Sample.

(** * Facts about bitmaps and the canvas operations *)

Section CanvasFacts.
Context {pixel : Type}.
Variable transparent : pixel.
Variable over : pixel → pixel → pixel.
Implicit Types (c img src : list (list pixel)).

Lemma pixelAt_paint f c x y :
  pixelAt (paint f c) x y = f x y <$> pixelAt c x y.
Proof.
  unfold pixelAt, paint. rewrite list_lookup_imap.
  destruct (c !! y) as [row|]; simpl; [|done].
  by rewrite list_lookup_imap.
Qed.

Lemma has_size_paint w h f c : has_size w h c → has_size w h (paint f c).
Proof.
  intros [Hlen Hrows]. split.
  - unfold paint. by rewrite length_imap.
  - apply Forall_lookup. intros y row Hy.
    unfold paint in Hy. apply list_lookup_imap_Some in Hy as (row0 & Hrow0 & ->).
    rewrite length_imap. by eapply (Forall_lookup_1 _ _ _ _ Hrows).
Qed.

Lemma has_size_clearRect w h c x y rw rh :
  has_size w h c → has_size w h (clearRect transparent c x y rw rh).
Proof. apply has_size_paint. Qed.

Lemma has_size_drawImage w h c src dx dy :
  has_size w h c → has_size w h (drawImage over c src dx dy).
Proof. apply has_size_paint. Qed.

Lemma has_size_putImageData w h c img dx dy :
  has_size w h c → has_size w h (putImageData c img dx dy).
Proof. apply has_size_paint. Qed.

Lemma has_size_drawImageFrom w h c src sx sy sw sh :
  has_size w h c → has_size w h (drawImageFrom over c src sx sy sw sh).
Proof. apply has_size_paint. Qed.

Lemma pixelAt_inside w h c x y :
  has_size w h c → (x < w)%nat → (y < h)%nat → is_Some (pixelAt c x y).
Proof.
  intros [Hlen Hrows] Hx Hy. unfold pixelAt.
  destruct (lookup_lt_is_Some_2 c y) as [row Hrow]; [lia|].
  rewrite Hrow. simpl. apply lookup_lt_is_Some_2.
  rewrite (Forall_lookup_1 _ _ _ _ Hrows Hrow). lia.
Qed.

Lemma pixelAt_outside w h c x y :
  has_size w h c → (w ≤ x ∨ h ≤ y)%nat → pixelAt c x y = None.
Proof.
  intros [Hlen Hrows] Hout. unfold pixelAt.
  destruct (c !! y) as [row|] eqn:Hrow; simpl; [|done].
  apply lookup_ge_None_2.
  rewrite (Forall_lookup_1 _ _ _ _ Hrows Hrow).
  apply lookup_lt_Some in Hrow. lia.
Qed.

(** Two bitmaps of one size with the same pixels are equal. *)
Lemma bitmap_ext w h c img :
  has_size w h c → has_size w h img →
  (∀ x y, (x < w)%nat → (y < h)%nat → pixelAt c x y = pixelAt img x y) →
  c = img.
Proof.
  intros [Hlc Hrc] [Hli Hri] Hpix. apply list_eq. intros y.
  destruct (c !! y) as [rc|] eqn:Hc, (img !! y) as [ri|] eqn:Hi.
  - f_equal. apply list_eq. intros x.
    pose proof (Forall_lookup_1 _ _ _ _ Hrc Hc) as Hwc.
    pose proof (Forall_lookup_1 _ _ _ _ Hri Hi) as Hwi.
    simpl in Hwc, Hwi.
    destruct (decide (x < w)%nat) as [Hx|Hx].
    + specialize (Hpix x y Hx). unfold pixelAt in Hpix. rewrite Hc, Hi in Hpix.
      apply Hpix. apply lookup_lt_Some in Hc. lia.
    + rewrite !lookup_ge_None_2; [done|lia|lia].
  - apply lookup_lt_Some in Hc. apply lookup_ge_None in Hi. lia.
  - apply lookup_lt_Some in Hi. apply lookup_ge_None in Hc. lia.
  - done.
Qed.

Lemma has_size_createCanvas w h : has_size w h (createCanvas transparent w h).
Proof.
  split.
  - unfold createCanvas. by rewrite length_replicate.
  - apply Forall_forall. intros row Hrow. unfold createCanvas in Hrow.
    apply elem_of_replicate in Hrow as [-> _]. by rewrite length_replicate.
Qed.

Lemma pixelAt_createCanvas w h x y :
  (x < w)%nat → (y < h)%nat →
  pixelAt (createCanvas transparent w h) x y = Some transparent.
Proof.
  intros Hx Hy. unfold pixelAt, createCanvas.
  rewrite lookup_replicate_2 by done. simpl. by rewrite lookup_replicate_2.
Qed.

Lemma has_size_getImageData c sw sh : has_size sw sh (getImageData transparent c sw sh).
Proof.
  split.
  - unfold getImageData. by rewrite length_fmap, length_seq.
  - apply Forall_forall. intros row Hrow. unfold getImageData in Hrow.
    apply list_elem_of_fmap in Hrow as (y & -> & _).
    by rewrite length_fmap, length_seq.
Qed.

Lemma pixelAt_getImageData c sw sh x y :
  (x < sw)%nat → (y < sh)%nat →
  pixelAt (getImageData transparent c sw sh) x y
  = Some (default transparent (pixelAt c x y)).
Proof.
  intros Hx Hy. unfold getImageData. unfold pixelAt at 1.
  rewrite list_lookup_fmap, lookup_seq_lt by done. simpl.
  by rewrite list_lookup_fmap, lookup_seq_lt.
Qed.

(** [getImageData(0, 0, width, height)] of a canvas of that size is a
    full copy of it. *)
Lemma getImageData_full w h c :
  has_size w h c → getImageData transparent c w h = c.
Proof.
  intros Hc. apply (bitmap_ext w h); auto using has_size_getImageData.
  intros x y Hx Hy. rewrite pixelAt_getImageData by done.
  destruct (pixelAt_inside w h c x y Hc Hx Hy) as [p ->]. done.
Qed.

(** [putImageData(saved, 0, 0)] of a buffer of the size of the canvas
    overwrites the entire canvas. *)
Lemma putImageData_full w h c img :
  has_size w h c → has_size w h img → putImageData c img 0 0 = img.
Proof.
  intros Hc Hi. apply (bitmap_ext w h); auto using has_size_putImageData.
  intros x y Hx Hy. unfold putImageData. rewrite pixelAt_paint. simpl.
  rewrite !Nat.sub_0_r.
  destruct (pixelAt_inside w h c x y Hc Hx Hy) as [p ->].
  destruct (pixelAt_inside w h img x y Hi Hx Hy) as [q ->]. done.
Qed.

(** Clearing the whole canvas gives the empty canvas. *)
Lemma clearRect_full w h c :
  has_size w h c → clearRect transparent c 0 0 w h = createCanvas transparent w h.
Proof.
  intros Hc. apply (bitmap_ext w h);
    auto using has_size_clearRect, has_size_createCanvas.
  intros x y Hx Hy. unfold clearRect. rewrite pixelAt_paint.
  destruct (pixelAt_inside w h c x y Hc Hx Hy) as [p ->]. simpl.
  rewrite pixelAt_createCanvas by done.
  unfold in_rect.
  destruct (Nat.leb_spec 0 x), (Nat.ltb_spec x (0 + w)),
    (Nat.leb_spec 0 y), (Nat.ltb_spec y (0 + h)); simpl; try done; lia.
Qed.

Section BlendOntoClear.
(** Blending onto a transparent pixel gives the source pixel. *)
Hypothesis over_transparent : ∀ p, over p transparent = p.

(** Drawing a bitmap of the size of the canvas onto the empty canvas
    reproduces the bitmap. *)
Lemma drawImage_onto_empty w h src :
  has_size w h src → drawImage over (createCanvas transparent w h) src 0 0 = src.
Proof.
  intros Hs. apply (bitmap_ext w h);
    auto using has_size_drawImage, has_size_createCanvas.
  intros x y Hx Hy. unfold drawImage. rewrite pixelAt_paint.
  rewrite pixelAt_createCanvas by done. simpl. rewrite !Nat.sub_0_r.
  destruct (pixelAt_inside w h src x y Hs Hx Hy) as [p ->].
  by rewrite over_transparent.
Qed.

(** The crop view at the origin with the size of the canvas is the
    canvas itself. *)
Lemma crop_view_full w h full :
  has_size w h full →
  crop_view transparent over 0 0 (Z.of_nat w) (Z.of_nat h) full = full.
Proof.
  intros Hf. unfold crop_view. rewrite !Nat2Z.id.
  apply (bitmap_ext w h);
    auto using has_size_drawImageFrom, has_size_createCanvas.
  intros x y Hx Hy. unfold drawImageFrom. rewrite pixelAt_paint.
  rewrite pixelAt_createCanvas by done. cbn [fmap option_fmap option_map].
  rewrite !Z.add_0_l, !Nat2Z.id.
  destruct (Z.ltb_spec (Z.of_nat x) (Z.of_nat w)); [|lia].
  destruct (Z.ltb_spec (Z.of_nat y) (Z.of_nat h)); [|lia].
  destruct (Z.leb_spec 0 (Z.of_nat x)); [|lia].
  destruct (Z.leb_spec 0 (Z.of_nat y)); [|lia]. cbn [andb].
  destruct (pixelAt_inside w h full x y Hf Hx Hy) as [p ->].
  by rewrite over_transparent.
Qed.

End BlendOntoClear.

End CanvasFacts.

(** * The compositing loops *)

Lemma js_index_of_nat {A} (l : list A) (n : nat) : js_index l (Z.of_nat n) = l !! n.
Proof.
  unfold js_index. destruct (Z.ltb_spec (Z.of_nat n) 0); [lia|].
  by rewrite Nat2Z.id.
Qed.

Lemma js_index_Some {A} (l : list A) (i : Z) (a : A) :
  js_index l i = Some a → 0 ≤ i < Z.of_nat (length l).
Proof.
  unfold js_index. destruct (Z.ltb_spec i 0); [done|].
  intros Hl%lookup_lt_Some. lia.
Qed.

Lemma js_index_inside {A} (l : list A) (i : Z) :
  0 ≤ i < Z.of_nat (length l) → is_Some (js_index l i).
Proof.
  intros Hi. unfold js_index. destruct (Z.ltb_spec i 0); [lia|].
  apply lookup_lt_is_Some_2. lia.
Qed.

Lemma for_loop_app {S} (body : Z → S → completion S) i n m s :
  for_loop body i (n + m) s
  = match for_loop body i n s with
    | Normal s' => for_loop body (i + Z.of_nat n) m s'
    | Abrupt s' => Abrupt s'
    end.
Proof.
  revert i s. induction n as [|n IH]; intros i s; simpl.
  - by rewrite Z.add_0_r.
  - destruct (body i s) as [s'|s']; [|done].
    rewrite IH. replace (i + 1 + Z.of_nat n) with (i + Z.pos (Pos.of_succ_nat n)) by lia.
    done.
Qed.

Section LoopFacts.
Context {pixel : Type}.
Variable transparent : pixel.
Variable over : pixel → pixel → pixel.
Implicit Types (c img cv : list (list pixel)) (f : ParsedFrame pixel).

Lemma newImageData_Some_iff (data : list pixel) sw sh :
  is_Some (newImageData data sw sh)
  ↔ (0 < sw ∧ 0 < sh ∧ length data = sw * sh)%nat.
Proof.
  unfold newImageData.
  destruct (Nat.ltb_spec 0 sw), (Nat.ltb_spec 0 (length data)),
    (Nat.eqb_spec (length data) (sw * sh)); simpl; split;
    try (intros [? ?]; done); try (intros; by eexists); intros; nia.
Qed.

Lemma valid_frame_patch_image f : valid_frame f ↔ is_Some (patch_image f).
Proof. unfold valid_frame, patch_image. by rewrite newImageData_Some_iff. Qed.

Lemma has_size_newImageData (data : list pixel) sw sh img :
  newImageData data sw sh = Some img → has_size sw sh img.
Proof.
  intros Himg. assert (is_Some (newImageData data sw sh)) as Hv by eauto.
  apply newImageData_Some_iff in Hv as (Hw & Hh & Hlen).
  unfold newImageData in Himg.
  destruct (_ && _); [|done]. injection Himg as <-. split.
  - by rewrite length_fmap, length_seq.
  - apply Forall_forall. intros row Hrow.
    apply list_elem_of_fmap in Hrow as (y & -> & Hy).
    apply elem_of_seq in Hy. rewrite length_take, length_drop. nia.
Qed.

Lemma pixelAt_newImageData (data : list pixel) sw sh img x y :
  newImageData data sw sh = Some img → (x < sw)%nat → (y < sh)%nat →
  pixelAt img x y = data !! (y * sw + x)%nat.
Proof.
  intros Himg Hx Hy. unfold newImageData in Himg.
  destruct (_ && _); [|done]. injection Himg as <-.
  unfold pixelAt. rewrite list_lookup_fmap, lookup_seq_lt by done. simpl.
  by rewrite lookup_take_lt, lookup_drop.
Qed.

Lemma paint_ext (g1 g2 : nat → nat → pixel → pixel) c :
  (∀ x y p, g1 x y p = g2 x y p) → paint g1 c = paint g2 c.
Proof.
  intros Hg. unfold paint. apply imap_ext. intros y row _.
  apply imap_ext. intros x p _. apply Hg.
Qed.

(** Block 3 draws the patch as the document words it. *)
Lemma draw_patch_spec f img cv :
  patch_image f = Some img → draw_patch over f img cv = spec_draw over f cv.
Proof.
  intros Himg. unfold draw_patch, drawImage, spec_draw. apply paint_ext.
  intros x y p. unfold in_rect.
  pose proof (has_size_newImageData _ _ _ _ Himg) as Hsz.
  destruct (Nat.leb_spec (left (dims f)) x) as [Hl|Hl]; simpl; [|done].
  destruct (Nat.ltb_spec x (left (dims f) + width (dims f))) as [Hr|Hr]; simpl.
  - destruct (Nat.leb_spec (top (dims f)) y) as [Ht|Ht]; simpl; [|done].
    destruct (Nat.ltb_spec y (top (dims f) + height (dims f))) as [Hb|Hb]; simpl.
    + by rewrite (pixelAt_newImageData _ _ _ _ _ _ Himg) by lia.
    + by rewrite (pixelAt_outside _ _ _ _ _ Hsz) by lia.
  - rewrite (pixelAt_outside _ _ _ _ _ Hsz) by lia.
    by destruct (_ <=? _)%nat.
Qed.

(** Block 1 is the disposal of the document, applied to the frame in
    front of index [i], and nothing at index [0]. *)
Lemma disposal_handling_spec (pre rest : list (ParsedFrame pixel)) w h cv saved :
  has_size w h cv → saved_sized w h saved →
  disposal_handling transparent (pre ++ rest) (Z.of_nat (length pre)) cv saved
  = Some (match last pre with
          | Some p => spec_dispose transparent p cv saved
          | None => cv
          end).
Proof.
  intros Hcv Hsaved. unfold disposal_handling.
  induction pre as [|p0 pre _] using rev_ind; [done|].
  rewrite last_snoc, length_app. simpl.
  destruct (Z.ltb_spec 0 (Z.of_nat (length pre + 1))); [|lia].
  replace (Z.of_nat (length pre + 1) - 1) with (Z.of_nat (length pre)) by lia.
  rewrite js_index_of_nat, <- app_assoc.
  change ([p0] ++ rest) with (p0 :: rest).
  rewrite list_lookup_middle by done.
  unfold spec_dispose, disposal_of.
  destruct (disposalType p0 =? 2); [done|].
  destruct (disposalType p0 =? 3); [|done].
  destruct saved as [s|]; [|done].
  by rewrite (putImageData_full w h) by auto.
Qed.

(** Block 2 is the capture of the document: a full copy. *)
Lemma save_state_spec f w h cv saved :
  has_size w h cv →
  save_state transparent f w h cv saved = spec_capture f cv saved.
Proof.
  intros Hcv. unfold save_state, spec_capture, disposal_of.
  destruct (disposalType f =? 2) eqn:H2, (disposalType f =? 3) eqn:H3;
    try done; try lia; by rewrite (getImageData_full transparent w h).
Qed.

Lemma has_size_spec_step w h prev f cv saved :
  has_size w h cv → saved_sized w h saved →
  has_size w h (fst (spec_step transparent over prev f (cv, saved)))
  ∧ saved_sized w h (snd (spec_step transparent over prev f (cv, saved))).
Proof.
  intros Hcv Hsaved. unfold spec_step. simpl.
  assert (has_size w h (match prev with
                        | Some p => spec_dispose transparent p cv saved
                        | None => cv
                        end)) as Hcv1.
  { destruct prev as [p|]; [|done]. unfold spec_dispose.
    destruct (disposal_of p); auto using has_size_clearRect.
    destruct saved as [s|]; auto. }
  split.
  - by apply has_size_paint.
  - unfold spec_capture. destruct (disposal_of f); auto.
    by intros s [= <-].
Qed.

(** [generateCompositedFrames] from any point of its loop. *)
Lemma composited_loop_spec (fs : list (ParsedFrame pixel)) w h :
  Forall valid_frame fs →
  ∀ rest pre st,
    fs = pre ++ rest →
    has_size w h (tempCanvas st) → saved_sized w h (previousFrameData st) →
    ∃ st',
      for_loop (composited_body transparent over fs w h)
               (Z.of_nat (length pre)) (length rest) st = Normal st'
      ∧ compositedFrames st'
        = compositedFrames st
          ++ spec_replay transparent over (last pre) rest
               (tempCanvas st, previousFrameData st).
Proof.
  intros Hvalid rest. induction rest as [|f rest IH]; intros pre st Hfs Hcv Hsaved.
  - exists st. simpl. by rewrite app_nil_r.
  - simpl. unfold composited_body at 1.
    rewrite js_index_of_nat, Hfs, list_lookup_middle by done.
    rewrite (disposal_handling_spec pre (f :: rest) w h) by done.
    assert (valid_frame f) as Hf.
    { rewrite Forall_forall in Hvalid. apply Hvalid. rewrite Hfs. set_solver. }
    apply valid_frame_patch_image in Hf as [img Himg]. rewrite Himg.
    rewrite (draw_patch_spec _ _ _ Himg).
    destruct (has_size_spec_step w h (last pre) f _ _ Hcv Hsaved) as [Hcv' Hsaved'].
    assert (has_size w h (match last pre with
                          | Some p => spec_dispose transparent p (tempCanvas st)
                                        (previousFrameData st)
                          | None => tempCanvas st
                          end)) as Hcv1.
    { destruct (last pre) as [p|]; [|done]. unfold spec_dispose.
      destruct (disposal_of p); auto using has_size_clearRect.
      destruct (previousFrameData st) as [s|]; auto. }
    rewrite (save_state_spec _ w h) by done.
    set (st1 := {| tempCanvas := _ |}).
    destruct (IH (pre ++ [f]) st1) as (st' & Hloop & Hout).
    + by rewrite <- app_assoc.
    + apply Hcv'.
    + apply Hsaved'.
    + exists st'. split.
      * rewrite length_app, Nat2Z.inj_add in Hloop.
        change (Z.of_nat (length [f])) with 1 in Hloop.
        rewrite <- Hfs. exact Hloop.
      * rewrite Hout, last_snoc. subst st1. simpl.
        by rewrite <- app_assoc.
Qed.

End LoopFacts.

Lemma for_loop_invariant {S} (P : S → Prop) (body : Z → S → completion S) :
  (∀ i s s', P s → body i s = Normal s' → P s') →
  ∀ n i s s', P s → for_loop body i n s = Normal s' → P s'.
Proof.
  intros Hbody n. induction n as [|n IH]; intros i s s' Hs; simpl.
  - by intros [= <-].
  - destruct (body i s) as [s1|s1] eqn:Hb; [|done]. eauto.
Qed.

Lemma js_slice_all {A} (l : list A) :
  js_slice l 0 (Z.of_nat (length l) - 1 + 1) = l.
Proof.
  unfold js_slice. simpl.
  destruct (Z.ltb_spec (Z.of_nat (length l) - 1 + 1) 0); [lia|].
  rewrite Z.min_l by lia. rewrite Z.min_l by lia.
  simpl. rewrite drop_0, take_ge; [done|lia].
Qed.

Lemma js_slice_in_range {A} (l : list A) (s e : Z) :
  0 ≤ s → s ≤ e → e < Z.of_nat (length l) →
  js_slice l s (e + 1) = take (Z.to_nat (e - s + 1)) (drop (Z.to_nat s) l).
Proof.
  intros Hs Hse He. unfold js_slice.
  destruct (Z.ltb_spec s 0); [lia|]. destruct (Z.ltb_spec (e + 1) 0); [lia|].
  rewrite !Z.min_l by lia. do 2 f_equal. lia.
Qed.

Lemma for_loop_related {S T} (R : nat → S → T → Prop)
    (body1 : Z → S → completion S) (body2 : Z → T → completion T) :
  (∀ k s t, R k s t →
            related (R (Datatypes.S k)) (body1 (Z.of_nat k) s) (body2 (Z.of_nat k) t)) →
  ∀ n k s t, R k s t →
             related (R (k + n)%nat) (for_loop body1 (Z.of_nat k) n s)
                     (for_loop body2 (Z.of_nat k) n t).
Proof.
  intros Hbody n. induction n as [|n IH]; intros k s t HR; simpl.
  - by rewrite Nat.add_0_r.
  - specialize (Hbody k s t HR).
    destruct (body1 (Z.of_nat k) s) as [s'|s'], (body2 (Z.of_nat k) t) as [t'|t'];
      try done.
    replace (Z.of_nat k + 1) with (Z.of_nat (Datatypes.S k)) by lia.
    replace (k + Datatypes.S n)%nat with (Datatypes.S k + n)%nat by lia.
    by apply IH.
Qed.

Section ExportFacts.
Context {pixel : Type}.
Variable transparent : pixel.
Variable over : pixel → pixel → pixel.
Implicit Types (c img cv : list (list pixel)) (f : ParsedFrame pixel).

(** The canvas of [generateCompositedFrames] keeps its size, and so do
    the frames it returns. *)
Lemma composited_body_sized fs w h i st st' :
  has_size w h (tempCanvas st) ∧ Forall (has_size w h) (compositedFrames st) →
  composited_body transparent over fs w h i st = Normal st' →
  has_size w h (tempCanvas st') ∧ Forall (has_size w h) (compositedFrames st').
Proof.
  intros [Hcv Hout]. unfold composited_body.
  destruct (js_index fs i) as [f|]; [|done].
  destruct (disposal_handling _ _ _ _ _) as [ctx1|] eqn:Hd; [|done].
  destruct (patch_image f) as [img|]; [|done].
  intros [= <-]. simpl.
  assert (has_size w h (draw_patch over f img ctx1)) as Hdraw.
  { apply has_size_drawImage. unfold disposal_handling in Hd.
    destruct (0 <? i); [|by injection Hd as <-].
    destruct (js_index fs (i - 1)) as [p|]; [|done].
    destruct (disposalType p =? 2).
    { injection Hd as <-. by apply has_size_clearRect. }
    destruct (disposalType p =? 3); [|by injection Hd as <-].
    destruct (previousFrameData st); injection Hd as <-;
      auto using has_size_putImageData. }
  split; [done|]. apply Forall_app. split; [done|]. by apply Forall_singleton.
Qed.

Lemma generateCompositedFrames_sized (g : GifData) comp :
  generateCompositedFrames transparent over g = Some comp →
  Forall (has_size (gwidth g) (gheight g)) comp.
Proof.
  unfold generateCompositedFrames.
  destruct (for_loop _ _ _ _) as [st|st] eqn:Hloop; [|done].
  intros [= <-].
  assert (has_size (gwidth g) (gheight g) (tempCanvas st)
          ∧ Forall (has_size (gwidth g) (gheight g)) (compositedFrames st)) as [_ Hout];
    [|done].
  eapply (for_loop_invariant _ _ (composited_body_sized _ _ _)); [|exact Hloop].
  simpl. split; [apply has_size_createCanvas|constructor].
Qed.

(** The loop of [cropGif] runs the loop of [generateCompositedFrames] and
    takes the crop view of every canvas. *)
Lemma crop_body_related (fs : list (ParsedFrame pixel)) tw th x y cw ch k stg stc :
  crop_related transparent over fs x y cw ch k stg stc →
  related (crop_related transparent over fs x y cw ch (S k))
          (composited_body transparent over fs tw th (Z.of_nat k) stg)
          (crop_body transparent over fs tw th x y cw ch (Z.of_nat k) stc).
Proof.
  intros (Hcv & Hprev & Hcrop & Hlen & Hadded).
  unfold composited_body, crop_body. rewrite js_index_of_nat.
  destruct (fs !! k) as [f|] eqn:Hf; [|done].
  rewrite <- Hcv, <- Hprev.
  destruct (patch_image f) as [img|] eqn:Himg.
  2:{ by destruct (disposal_handling _ _ _ _ _). }
  destruct (disposal_handling _ _ _ _ _) as [ctx1|]; [|done].
  simpl. unfold crop_related. simpl. split_and!.
  - done.
  - done.
  - by apply has_size_drawImageFrom, has_size_clearRect.
  - rewrite length_app. simpl. lia.
  - rewrite Hadded, (take_S_r _ _ _ Hf).
    rewrite zip_with_app.
    2:{ rewrite length_take. apply lookup_lt_Some in Hf. lia. }
    simpl. unfold crop_view.
    by rewrite (clearRect_full transparent _ _ _ Hcrop).
Qed.

Lemma cropGif_as_composite (fs : list (ParsedFrame pixel)) x y cw ch cvs :
  cropGif transparent over fs x y cw ch
  = (λ comp, zip_with (λ c f, (crop_view transparent over x y cw ch c, delay f)) comp fs)
      <$> generateCompositedFrames transparent over
            {| frames := fs;
               gwidth := fst (crop_temp_size fs);
               gheight := snd (crop_temp_size fs);
               canvas := cvs |}.
Proof.
  unfold cropGif, generateCompositedFrames. simpl.
  destruct (crop_temp_size fs) as [tw th] eqn:Hsz. simpl.
  pose proof (for_loop_related (crop_related transparent over fs x y cw ch) _ _
    (crop_body_related fs tw th x y cw ch) (length fs) 0
    {| tempCanvas := createCanvas transparent tw th;
       previousFrameData := None; compositedFrames := [] |}
    {| tempCtx := createCanvas transparent tw th;
       cropPrevious := None;
       cropCtx := createCanvas transparent (Z.to_nat cw) (Z.to_nat ch);
       added := [] |}) as Hsim.
  simpl in Hsim.
  destruct (for_loop (composited_body _ _ _ _ _) _ _ _) as [a|a],
    (for_loop (crop_body _ _ _ _ _ _ _ _ _) _ _ _) as [b|b]; simpl.
  - destruct Hsim as (_ & _ & _ & _ & Hsim).
    { unfold crop_related; simpl; split_and!; auto using has_size_createCanvas. }
    rewrite Hsim. by rewrite take_ge.
  - destruct Hsim. unfold crop_related; simpl; split_and!; auto using has_size_createCanvas.
  - destruct Hsim. unfold crop_related; simpl; split_and!; auto using has_size_createCanvas.
  - done.
Qed.

End ExportFacts.

(** * The claims about the compositor *)

Lemma for_loop_invariant_at {S} (P : nat → S → Prop) (body : Z → S → completion S) i0 :
  (∀ k s s', P k s → body (i0 + Z.of_nat k) s = Normal s' → P (Datatypes.S k) s') →
  ∀ n k s s', P k s → for_loop body (i0 + Z.of_nat k) n s = Normal s' → P (k + n)%nat s'.
Proof.
  intros Hbody n. induction n as [|n IH]; intros k s s' Hs; simpl.
  - intros [= <-]. by rewrite Nat.add_0_r.
  - destruct (body (i0 + Z.of_nat k) s) as [s1|s1] eqn:Hb; [|done].
    replace (i0 + Z.of_nat k + 1) with (i0 + Z.of_nat (Datatypes.S k)) by lia.
    replace (k + Datatypes.S n)%nat with (Datatypes.S k + n)%nat by lia.
    eauto.
Qed.

Section CompositorClaims.
Context {pixel : Type}.
Variable transparent : pixel.
Variable over : pixel → pixel → pixel.
Implicit Types (c img cv : list (list pixel)) (f : ParsedFrame pixel).

Lemma generateCompositedFrames_spec (g : GifData) :
  Forall valid_frame (frames g) →
  generateCompositedFrames transparent over g
  = Some (sequential_composite transparent over (frames g) (gwidth g) (gheight g)).
Proof.
  intros Hvalid. unfold generateCompositedFrames, sequential_composite.
  destruct (composited_loop_spec transparent over (frames g) (gwidth g) (gheight g)
              Hvalid (frames g) []
              {| tempCanvas := createCanvas transparent (gwidth g) (gheight g);
                 previousFrameData := None; compositedFrames := [] |})
    as (st' & Hloop & Hout).
  - done.
  - apply has_size_createCanvas.
  - by intros s.
  - change (Z.of_nat (length [])) with 0 in Hloop.
    rewrite Hloop, Hout. done.
Qed.

(** C2. For every frame index the compositor first applies the disposal
    of the previous frame (nothing for None, a clear of that frame's
    rectangle for RestoreBackground, a restore of the whole canvas from
    the saved buffer for RestorePrevious), then captures a full copy of
    the canvas if the frame's own disposal is RestorePrevious, and only
    then draws the frame's patch at its rectangle; frame 0 gets no
    disposal.  Both [generateCompositedFrames] and [cropGif] compute, on
    decoded frames, exactly the replay that takes these three steps in
    this order. *)
Theorem compositing_order (g : GifData) (x y cw ch : Z) :
  Forall valid_frame (frames g) →
  generateCompositedFrames transparent over g
  = Some (sequential_composite transparent over (frames g) (gwidth g) (gheight g))
  ∧ cropGif transparent over (frames g) x y cw ch
    = Some (zip_with (λ c f, (crop_view transparent over x y cw ch c, delay f))
              (sequential_composite transparent over (frames g)
                 (fst (crop_temp_size (frames g))) (snd (crop_temp_size (frames g))))
              (frames g)).
Proof.
  intros Hvalid. split; [by apply generateCompositedFrames_spec|].
  rewrite (cropGif_as_composite transparent over _ _ _ _ _ []).
  by rewrite generateCompositedFrames_spec.
Qed.

(** C8. When the previous frame asks for RestorePrevious and no buffer
    was saved, the disposal leaves the canvas as it is, and the turn of
    each compositing loop ([generateCompositedFrames], [cropGif],
    [renderToFrame]) for a decoded frame completes without an exception. *)
Theorem restore_without_history (data : GifData) (i : Z) prev frame cv x y cw ch
    (out : list (list (list pixel))) (crop : list (list pixel))
    (emitted : list (list (list pixel) * Z)) (m : gmap Z (list (list pixel))) :
  0 < i →
  js_index (frames data) (i - 1) = Some prev →
  disposalType prev = 3 →
  js_index (frames data) i = Some frame →
  valid_frame frame →
  disposal_handling transparent (frames data) i cv None = Some cv
  ∧ is_normal (composited_body transparent over (frames data) (gwidth data) (gheight data) i
                 {| tempCanvas := cv; previousFrameData := None;
                    compositedFrames := out |}) = true
  ∧ is_normal (crop_body transparent over (frames data) (gwidth data) (gheight data)
                 x y cw ch i
                 {| tempCtx := cv; cropPrevious := None; cropCtx := crop;
                    added := emitted |}) = true
  ∧ is_normal (render_body transparent over data i
                 {| ctx := cv; savedData := None; snaps := m |}) = true.
Proof.
  intros Hi Hprev Hdisp Hframe Hvalid.
  assert (disposal_handling transparent (frames data) i cv None = Some cv) as Hnoop.
  { unfold disposal_handling. destruct (Z.ltb_spec 0 i); [|lia].
    rewrite Hprev, Hdisp. done. }
  apply valid_frame_patch_image in Hvalid as [img Himg].
  split_and!; [done|..].
  - unfold composited_body. simpl. by rewrite Hframe, Hnoop, Himg.
  - unfold crop_body. simpl. by rewrite Hframe, Himg, Hnoop.
  - unfold render_body. simpl. by rewrite Hnoop, Hframe, Himg.
Qed.

(** What [parseGifFile] returns, when it returns. *)
Lemma parseGifFile_Some (gif : Decoded) (g : GifData) :
  parseGifFile transparent gif = Some g →
  ∃ frame0 rest img,
    decoded_frames gif = frame0 :: rest
    ∧ patch_image frame0 = Some img
    ∧ g = {| frames := decoded_frames gif;
             gwidth := width (dims frame0);
             gheight := height (dims frame0);
             canvas := putImageData
                         (createCanvas transparent (width (dims frame0))
                                       (height (dims frame0)))
                         img (left (dims frame0)) (top (dims frame0)) |}.
Proof.
  unfold parseGifFile. intros Hparse.
  destruct (decoded_frames gif) as [|frame0 rest] eqn:Hfs; [done|].
  destruct (patch_image frame0) as [img|] eqn:Himg; [|done].
  injection Hparse as <-. by exists frame0, rest, img.
Qed.


End CompositorClaims.

Lemma blend_transparent (p : Sample.px) : Sample.blend p Sample.Clear = p.
Proof. by destruct p. Qed.

Lemma three_frames_valid : Forall valid_frame Sample.three_frames.
Proof. repeat constructor; unfold valid_frame; simpl; lia. Qed.

Lemma compositing_order_witness :
  Forall valid_frame (frames Sample.three_data)
  ∧ generateCompositedFrames Sample.Clear Sample.blend Sample.three_data
    = Some [ [[Sample.Ink 1; Sample.Ink 1]];
             [[Sample.Ink 2; Sample.Ink 1]];
             [[Sample.Ink 1; Sample.Ink 3]] ].
Proof.
  split; [exact three_frames_valid|].
  destruct (compositing_order Sample.Clear Sample.blend Sample.three_data 0 0 2 1
              three_frames_valid) as [-> _].
  reflexivity.
Defined.

Lemma restore_without_history_witness :
  disposal_handling Sample.Clear Sample.three_frames 2
    [[Sample.Ink 2; Sample.Ink 1]] None
  = Some [[Sample.Ink 2; Sample.Ink 1]].
Proof.
  refine (proj1 (restore_without_history Sample.Clear Sample.blend Sample.three_data 2
                   (Sample.frame 0 0 1 1 [Sample.Ink 2] 100 3)
                   (Sample.frame 1 0 1 1 [Sample.Ink 3] 0 0)
                   [[Sample.Ink 2; Sample.Ink 1]] 0 0 2 1 [] [] [] ∅ _ _ _ _ _)).
  - lia.
  - reflexivity.
  - reflexivity.
  - reflexivity.
  - unfold valid_frame. simpl. lia.
Defined.



(** * The claims about playback delays and export *)

Lemma Math_round_integer (z : Z) : Math_round (inject_Z z) = z.
Proof.
  unfold Math_round, Qfloor, Qplus, inject_Z. simpl.
  rewrite Z.mul_1_r. symmetry. apply (Z.div_unique _ _ _ 1); lia.
Qed.

Lemma clamp_bounds (v lo hi : Z) : lo ≤ hi → lo ≤ clamp v lo hi ≤ hi.
Proof. unfold clamp. lia. Qed.

Lemma clamp_inside (v lo hi : Z) : lo ≤ v ≤ hi → clamp v lo hi = v.
Proof. unfold clamp. lia. Qed.

Lemma loop_clock_advances (interval : Z) (currentTime : Q) (c : Clock) :
  fst (loop_clock interval currentTime c) = true
  ↔ (inject_Z interval <= accumulator c + (currentTime - lastTime c))%Q.
Proof.
  unfold loop_clock. rewrite <- Qle_bool_iff.
  by destruct (Qle_bool _ _).
Qed.

Section ExportClaims.
Context {pixel : Type}.
Variable transparent : pixel.
Variable over : pixel → pixel → pixel.
Implicit Types (img cv : list (list pixel)) (f : ParsedFrame pixel).

(** Every turn of the loop of [cropGif] adds one frame with the delay of
    the frame it processed, and keeps what was added before. *)
Lemma crop_loop_delays (fs : list (ParsedFrame pixel)) tw th x y cw ch n st st' :
  for_loop (crop_body transparent over fs tw th x y cw ch) 0 n st = Normal st' →
  ∃ more, added st' = added st ++ more ∧ more.*2 = delay <$> take n fs.
Proof.
  intros Hloop.
  pose proof (for_loop_invariant_at
    (λ k s, ∃ more, added s = added st ++ more ∧ more.*2 = delay <$> take k fs)
    (crop_body transparent over fs tw th x y cw ch) 0) as Hinv.
  apply (Hinv) with (n := n) (k := 0%nat) (s := st) (s' := st'); clear Hinv.
  - intros k s s' (more & Hadded & Hmore). rewrite Z.add_0_l. unfold crop_body.
    rewrite js_index_of_nat.
    destruct (fs !! k) as [f|] eqn:Hf; [|done].
    destruct (patch_image f); [|done].
    destruct (disposal_handling _ _ _ _ _); [|done].
    intros [= <-]. simpl. eexists. split.
    + rewrite Hadded, <- app_assoc. reflexivity.
    + rewrite fmap_app, Hmore, (take_S_r _ _ _ Hf), fmap_app. done.
  - exists []. by rewrite app_nil_r.
  - exact Hloop.
Qed.

Lemma cropGif_delays (fs : list (ParsedFrame pixel)) x y cw ch out :
  cropGif transparent over fs x y cw ch = Some out → out.*2 = delay <$> fs.
Proof.
  unfold cropGif. destruct (crop_temp_size fs) as [tw th].
  destruct (for_loop _ _ _ _) as [st|st] eqn:Hloop; [|done].
  intros [= <-]. apply crop_loop_delays in Hloop as (more & Hadded & Hmore).
  simpl in Hadded. rewrite Hadded, Hmore. by rewrite take_ge.
Qed.


(** The first turn of the loop of [cropGif] draws the first frame on the
    empty canvas. *)
Lemma cropGif_first_frame f (rest : list (ParsedFrame pixel)) x y cw ch out :
  cropGif transparent over (f :: rest) x y cw ch = Some out →
  ∃ img, patch_image f = Some img
         ∧ out !! 0%nat
           = Some (crop_view transparent over x y cw ch
                     (draw_patch over f img
                        (createCanvas transparent (width (dims f)) (height (dims f)))),
                   delay f).
Proof.
  unfold cropGif. simpl.
  unfold crop_body at 1. simpl.
  destruct (patch_image f) as [img|]; [|done].
  destruct (for_loop _ _ _ _) as [st|st] eqn:Hloop; [|done].
  intros [= <-]. exists img. split; [done|].
  pose proof (for_loop_invariant
    (λ s, added s !! 0%nat
          = Some (crop_view transparent over x y cw ch
                    (draw_patch over f img
                       (createCanvas transparent (width (dims f)) (height (dims f)))),
                  delay f))
    (crop_body transparent over (f :: rest) (width (dims f)) (height (dims f))
       x y cw ch)) as Hinv.
  eapply Hinv; [| |exact Hloop]; clear Hinv.
  - intros i s s' Hs. unfold crop_body.
    destruct (js_index _ i) as [fi|]; [|done].
    destruct (patch_image fi); [|done].
    destruct (disposal_handling _ _ _ _ _); [|done].
    intros [= <-]. simpl. by apply lookup_app_l_Some.
  - simpl. unfold crop_view.
    by rewrite (clearRect_full transparent _ _ _ (has_size_createCanvas _ _ _)).
Qed.

Lemma zip_with_crop_view_full (w h : nat) (comp : list (list (list pixel)))
    (fs : list (ParsedFrame pixel)) :
  (∀ p, over p transparent = p) →
  Forall (has_size w h) comp →
  zip_with (λ c f, (crop_view transparent over 0 0 (Z.of_nat w) (Z.of_nat h) c, delay f))
           comp fs
  = zip_with (λ c f, (c, delay f)) comp fs.
Proof.
  intros Hover Hcomp. revert fs.
  induction Hcomp as [|c comp Hc _ IH]; intros [|f fs]; simpl; try done.
  by rewrite IH, (crop_view_full transparent over Hover w h).
Qed.

(** C7. An export runs [cropGif], with a canvas of its own, on the slice
    of the frames that the trim range selects, and the first frame of
    the slice is drawn on the empty canvas: no disposal of a frame in
    front of it is applied.  With the trim range [0, frameCount - 1] and
    no crop the export hands the encoder exactly the frames of the
    sequential composite, one by one, each with its delay. *)
Theorem export_slicing :
  (∀ p, over p transparent = p) →
  (∀ (rq : ExportRequest) g call f rest out,
     ex_gifData rq = Some g →
     export_call rq = Some call →
     call_frames call = f :: rest →
     handleExport transparent over rq = ExportDone out →
     call_frames call
     = js_slice (frames g) (fst (trimRange rq)) (snd (trimRange rq) + 1)
     ∧ ∃ img, patch_image f = Some img
              ∧ out !! 0%nat
                = Some (crop_view transparent over (cropX call) (cropY call)
                          (cropWidth call) (cropHeight call)
                          (draw_patch over f img
                             (createCanvas transparent
                                (width (dims f)) (height (dims f)))),
                        delay f))
  ∧ (∀ gif g (rq : ExportRequest),
       parseGifFile transparent gif = Some g →
       ex_gifData rq = Some g →
       exporting rq = false →
       trimRange rq = (0, Z.of_nat (length (frames g)) - 1) →
       appliedCrop rq = None →
       completedCrop rq = None →
       handleExport transparent over rq
       = match generateCompositedFrames transparent over g with
         | Some comp => ExportDone (zip_with (λ c f, (c, delay f)) comp (frames g))
         | None => ExportFailed
         end).
Proof.
  intros Hover. split.
  - intros rq g call f rest out Hg Hcall Hfs. unfold handleExport.
    rewrite Hcall. unfold run_call. rewrite Hfs.
    destruct (cropGif _ _ _ _ _ _ _) as [out'|] eqn:Hcrop; [|done].
    intros [= <-]. split.
    + unfold export_call in Hcall. rewrite Hg in Hcall.
      destruct (exporting rq); [done|].
      destruct (match appliedCrop rq with Some c => Some c | None => completedCrop rq end)
        as [c|]; [destruct (_ && _)|]; by injection Hcall as <-.
    + eapply cropGif_first_frame. exact Hcrop.
  - intros gif g rq Hparse Hg Hexp Htrim Happlied Hcompleted.
    destruct (parseGifFile_Some transparent gif g Hparse)
      as (frame0 & rest & img0 & Hfs & _ & Hg0).
    assert (frames g = decoded_frames gif ∧ gwidth g = width (dims frame0)
            ∧ gheight g = height (dims frame0)) as (Hframes & Hw & Hh)
      by (by rewrite Hg0).
    clear Hg0.
    unfold handleExport, export_call.
    rewrite Hg, Hexp, Htrim, Happlied, Hcompleted. simpl.
    rewrite js_slice_all. unfold run_call. simpl.
    rewrite (cropGif_as_composite transparent over _ _ _ _ _ (canvas g)).
    assert (crop_temp_size (frames g) = (gwidth g, gheight g)) as ->.
    { unfold crop_temp_size. by rewrite Hframes, Hfs, Hw, Hh. }
    simpl. assert ({| frames := frames g; gwidth := gwidth g; gheight := gheight g;
                      canvas := canvas g |} = g) as -> by by destruct g.
    destruct (generateCompositedFrames transparent over g) as [comp|] eqn:Hcomp;
      simpl; [|done].
    f_equal. apply zip_with_crop_view_full; [done|].
    by apply generateCompositedFrames_sized in Hcomp.
Qed.


End ExportClaims.


Lemma export_slicing_witness :
  handleExport Sample.Clear Sample.blend Sample.tail_request
  = ExportDone [ ([[Sample.Ink 2; Sample.Clear]], 100);
                 ([[Sample.Clear; Sample.Clear]], 0) ]
  ∧ handleExport Sample.Clear Sample.blend Sample.full_request
    = ExportDone [ ([[Sample.Ink 1; Sample.Ink 1]], 100);
                   ([[Sample.Ink 2; Sample.Ink 1]], 100);
                   ([[Sample.Ink 1; Sample.Ink 3]], 0) ].
Proof.
  destruct (export_slicing Sample.Clear Sample.blend blend_transparent) as [Hsub Hfull].
  split.
  - destruct (Hsub Sample.tail_request Sample.three_data
                {| call_frames := [ Sample.frame 0 0 1 1 [Sample.Ink 2] 100 3;
                                    Sample.frame 1 0 1 1 [Sample.Ink 3] 0 0 ];
                   cropX := 0; cropY := 0; cropWidth := 2; cropHeight := 1 |}
                (Sample.frame 0 0 1 1 [Sample.Ink 2] 100 3)
                [Sample.frame 1 0 1 1 [Sample.Ink 3] 0 0]
                [ ([[Sample.Ink 2; Sample.Clear]], 100);
                  ([[Sample.Clear; Sample.Clear]], 0) ]
                eq_refl eq_refl eq_refl eq_refl) as [_ _].
    reflexivity.
  - rewrite (Hfull Sample.three_gif Sample.three_data Sample.full_request
               eq_refl eq_refl eq_refl eq_refl eq_refl eq_refl).
    reflexivity.
Defined.



(** * The claims about the snapshot cache and the seek path *)

Section RenderClaims.
Context {pixel : Type}.
Variable transparent : pixel.
Variable over : pixel → pixel → pixel.
Implicit Types (cv : list (list pixel)) (m : gmap Z (list (list pixel))).

(** One turn of the render loop stores at most the snapshot of its own
    index, and only if that index is a multiple of ten without one. *)
Lemma render_body_snaps (data : GifData) i st st' :
  render_body transparent over data i st = Normal st' →
  snaps st' = if (Z.rem i 10 =? 0) && negb (bool_decide (is_Some (snaps st !! i)))
              then <[i := ctx st']> (snaps st) else snaps st.
Proof.
  unfold render_body.
  destruct (disposal_handling _ _ _ _ _) as [ctx1|]; [|done].
  destruct (js_index (frames data) i) as [frame|]; [|done].
  destruct (patch_image frame) as [img|]; [|done].
  intros [= <-]. simpl. done.
Qed.

Lemma render_loop_snaps (data : GifData) i0 n st st' :
  for_loop (render_body transparent over data) i0 n st = Normal st' →
  (∀ k, is_Some (snaps st' !! k)
        ↔ is_Some (snaps st !! k) ∨ (i0 ≤ k < i0 + Z.of_nat n ∧ Z.rem k 10 = 0))
  ∧ (∀ k c, snaps st !! k = Some c → snaps st' !! k = Some c).
Proof.
  intros Hloop.
  pose proof (for_loop_invariant_at
    (λ j s, (∀ k, is_Some (snaps s !! k)
                  ↔ is_Some (snaps st !! k) ∨ (i0 ≤ k < i0 + Z.of_nat j ∧ Z.rem k 10 = 0))
            ∧ (∀ k c, snaps st !! k = Some c → snaps s !! k = Some c))
    (render_body transparent over data) i0) as Hinv.
  apply (Hinv) with (n := n) (k := 0%nat) (s := st) (s' := st'); clear Hinv.
  - intros j s s' [Hdom Hkeep] Hbody.
    apply render_body_snaps in Hbody. rewrite Hbody. clear Hbody.
    destruct (Z.eqb_spec (Z.rem (i0 + Z.of_nat j) 10) 0) as [Hrem|Hrem]; simpl.
    + destruct (bool_decide_reflect (is_Some (snaps s !! (i0 + Z.of_nat j))))
        as [Hthere|Hnew]; simpl.
      * split; [|done]. intros k. rewrite Hdom. split; [intros [?|?]; [by left|right; lia]|].
        intros [?|[Hk ?]]; [by left|].
        destruct (decide (k = i0 + Z.of_nat j)) as [->|]; [|right; lia].
        by apply Hdom.
      * split.
        -- intros k. rewrite lookup_insert_is_Some, Hdom. split.
           ++ intros [<-|[_ [?|?]]]; [right; lia|by left|right; lia].
           ++ intros [?|[Hk ?]].
              ** destruct (decide (i0 + Z.of_nat j = k)); [by left|by right; split; [|left]].
              ** destruct (decide (i0 + Z.of_nat j = k)); [by left|].
                 right. split; [done|]. right. lia.
        -- intros k c Hk. rewrite lookup_insert_ne; [by apply Hkeep|].
           intros <-. apply Hnew. apply Hkeep in Hk. by eexists.
    + split; [|done]. intros k. rewrite Hdom. split; [intros [?|?]; [by left|right; lia]|].
      intros [?|[Hk Hk0]]; [by left|].
      destruct (decide (k = i0 + Z.of_nat j)) as [->|]; [done|right; lia].
  - split; [|done]. intros k. split; [by left|]. intros [?|?]; [done|lia].
  - by rewrite Z.add_0_r.
Qed.

(** C3, as the code has it.  A call of [renderToFrame] with target [t]
    that replays the frames [startFrame..t] stores a new snapshot for
    exactly the indices of that range that are multiples of ten and had
    no snapshot yet, and it keeps every snapshot that was stored before. *)
Theorem snapshots_along_replay (data : GifData) (ed ed' : Editor) (t : Z) :
  renderToFrame transparent over t data ed = Normal ed' →
  (∀ k, is_Some (snapshots ed' !! k)
        ↔ is_Some (snapshots ed !! k)
          ∨ (fst (start_point ed t) ≤ k ≤ t ∧ Z.rem k 10 = 0))
  ∧ (∀ k c, snapshots ed !! k = Some c → snapshots ed' !! k = Some c).
Proof.
  unfold renderToFrame.
  destruct (for_loop _ _ _ _) as [st|st] eqn:Hloop; [|done].
  intros [= <-]. simpl.
  apply render_loop_snaps in Hloop as [Hdom Hkeep]. simpl in Hdom, Hkeep.
  split; [|done]. intros k. rewrite Hdom.
  split; (intros [?|[? ?]]; [by left|right; split; [lia|done]]).
Qed.

End RenderClaims.

(** C3, as stated, fails: after loading a GIF of 26 frames, a seek to
    frame 25 stores snapshots for the frames 10 and 20, which are not its
    target, and none for the target. *)
Lemma snapshot_off_target :
  is_normal (renderToFrame Sample.Clear Sample.blend 25 Sample.long_data
               Sample.long_loaded) = true
  ∧ snapshots Sample.long_loaded !! 10 = None
  ∧ snapshots (final_state (renderToFrame Sample.Clear Sample.blend 25 Sample.long_data
                               Sample.long_loaded)) !! 10
    = Some [[Sample.Ink 1]]
  ∧ snapshots (final_state (renderToFrame Sample.Clear Sample.blend 25 Sample.long_data
                               Sample.long_loaded)) !! 20
    = Some [[Sample.Ink 1]]
  ∧ snapshots (final_state (renderToFrame Sample.Clear Sample.blend 25 Sample.long_data
                               Sample.long_loaded)) !! 25
    = None.
Proof. vm_compute. repeat split. Qed.

Lemma snapshots_along_replay_witness :
  is_normal (renderToFrame Sample.Clear Sample.blend 25 Sample.long_data
               Sample.long_loaded) = true
  ∧ is_Some (snapshots (final_state (renderToFrame Sample.Clear Sample.blend 25
                                       Sample.long_data Sample.long_loaded)) !! 20).
Proof.
  split; [vm_compute; reflexivity|].
  destruct (renderToFrame Sample.Clear Sample.blend 25 Sample.long_data Sample.long_loaded)
    as [ed'|ed'] eqn:Hrender.
  - destruct (snapshots_along_replay Sample.Clear Sample.blend Sample.long_data
                Sample.long_loaded ed' 25 Hrender) as [Hdom _].
    simpl. apply Hdom. right. vm_compute. repeat split; discriminate.
  - exfalso. assert (is_normal (renderToFrame Sample.Clear Sample.blend 25
                                  Sample.long_data Sample.long_loaded) = true) as Hn
      by (vm_compute; reflexivity).
    rewrite Hrender in Hn. discriminate.
Defined.

(** C1, on the code.  For three frames of which the second is to be
    restored away, the sequential composite of frame 2 shows frame 0 with
    the patch of frame 2.  The seek path reaches the same canvas when the
    editor seeks from frame 0 to frame 2 in one call, but not when it
    seeks to frame 1 first: the buffer saved for the restore is a local
    of the call that rendered frame 1, the next call starts without it,
    and the patch of frame 1 stays on the canvas. *)
Theorem seek_path_loses_saved_buffer :
  generateCompositedFrames Sample.Clear Sample.blend Sample.three_data
  = Some [ [[Sample.Ink 1; Sample.Ink 1]];
           [[Sample.Ink 2; Sample.Ink 1]];
           [[Sample.Ink 1; Sample.Ink 3]] ]
  ∧ compositionCanvas
      (render_sequence Sample.Clear Sample.blend Sample.three_data [2] Sample.three_loaded)
    = [[Sample.Ink 1; Sample.Ink 3]]
  ∧ compositionCanvas
      (render_sequence Sample.Clear Sample.blend Sample.three_data [1; 2]
         Sample.three_loaded)
    = [[Sample.Ink 2; Sample.Ink 3]]
  ∧ is_normal (renderToFrame Sample.Clear Sample.blend 2 Sample.three_data
                 (final_state (renderToFrame Sample.Clear Sample.blend 1 Sample.three_data
                                 Sample.three_loaded))) = true.
Proof. vm_compute. repeat split. Qed.

(** * The claims about the sequencer *)

Lemma processSeekQueue_keeps_playback (s : Sequencer) :
  isPlaying (processSeekQueue s) = isPlaying s
  ∧ currentFrameIdx (processSeekQueue s) = currentFrameIdx s.
Proof.
  unfold processSeekQueue, performRender.
  destruct (isRendering s); [done|].
  destruct (nextSeekFrame s); [|done]. simpl.
  by destruct (gifLoaded s && canvasReady s).
Qed.

(** C10. A manual seek, whatever its source (they all call
    [handleSeek]), sets [isPlaying] to false before it puts the frame in
    the queue, and the flag is still false when [handleSeek] returns: a
    playback tick after the seek advances nothing. *)
Theorem seek_stops_playback (index : Z) (s : Sequencer) :
  let queued :=
    set_nextSeekFrame (Some index) (setIsPlaying false (setCurrentFrameIdx index s)) in
  handleSeek index s = processSeekQueue queued
  ∧ isPlaying (setIsPlaying false (setCurrentFrameIdx index s)) = false
  ∧ isPlaying queued = false
  ∧ nextSeekFrame queued = Some index
  ∧ isPlaying (handleSeek index s) = false
  ∧ isPlaying (react (Seek index) s) = false
  ∧ playback_advance (handleSeek index s) = handleSeek index s.
Proof.
  simpl.
  assert (isPlaying (handleSeek index s) = false) as Hstop.
  { unfold handleSeek. by rewrite (proj1 (processSeekQueue_keeps_playback _)). }
  split_and!; try done.
  unfold playback_advance. by rewrite Hstop.
Qed.

(** C5, on the code.  With playback running, two ticks that advance the
    frame start two calls of [renderToFrame], none of them through the
    queue, and both are in flight together; and while a render started by
    a seek is in flight, a tick starts a second one beside it. *)
Theorem playback_bypasses_seek_queue :
  running (run_events [PlayPause; Advance; Advance] (loaded_editor 3))
  = [ {| via_queue := false; target := 1 |}; {| via_queue := false; target := 2 |} ]
  ∧ isRendering (run_events [PlayPause; Advance; Advance] (loaded_editor 3)) = false
  ∧ running (run_events [Seek 2; PlayPause; Advance] (loaded_editor 3))
    = [ {| via_queue := true; target := 2 |}; {| via_queue := false; target := 0 |} ]
  ∧ running (run_events [Seek 0; Seek 1; Seek 2] (loaded_editor 3))
    = [ {| via_queue := true; target := 0 |} ]
  ∧ running (run_events [Seek 0; Seek 1; Seek 2; Returns 0] (loaded_editor 3))
    = [ {| via_queue := true; target := 2 |} ].
Proof. repeat split. Qed.

Lemma queue_renders_app (l1 l2 : list Activation) :
  queue_renders (l1 ++ l2) = (queue_renders l1 + queue_renders l2)%nat.
Proof. induction l1 as [|a l1 IH]; simpl; [done|]. rewrite IH. lia. Qed.

Lemma queue_renders_delete (l : list Activation) (k : nat) (a : Activation) :
  l !! k = Some a →
  ((if via_queue a then 1 else 0) + queue_renders (delete k l) = queue_renders l)%nat.
Proof.
  revert k. induction l as [|b l IH]; intros [|k] Hk; simpl in *; try done.
  - by injection Hk as ->.
  - specialize (IH k Hk). lia.
Qed.

Lemma processSeekQueue_invariant (s : Sequencer) :
  flag_invariant s → queue_invariant (processSeekQueue s).
Proof.
  unfold flag_invariant, queue_invariant, processSeekQueue, performRender.
  destruct (isRendering s) eqn:Hr; [by rewrite Hr|].
  intros Hq. destruct (nextSeekFrame s) as [t|] eqn:Hnext; simpl.
  - destruct (gifLoaded s && canvasReady s); simpl.
    + rewrite queue_renders_app, Hq. done.
    + done.
  - by rewrite Hr.
Qed.

Lemma queue_invariant_flag (s : Sequencer) : queue_invariant s → flag_invariant s.
Proof.
  unfold queue_invariant, flag_invariant. destruct (isRendering s); [done|]. by intros [? _].
Qed.

(** Whatever happens, a throwing render included, the flag counts the
    renders that came through the queue. *)
Lemma react_flag_invariant (e : Event) (s : Sequencer) :
  flag_invariant s → flag_invariant (react e s).
Proof.
  intros Hinv. destruct e as [i| | |k|k]; simpl.
  - unfold handleSeek. by apply queue_invariant_flag, processSeekQueue_invariant.
  - done.
  - unfold playback_advance. destruct (isPlaying s && gifLoaded s); [|done].
    unfold flag_invariant in *. simpl.
    destruct (canvasReady s); simpl; [|done].
    rewrite queue_renders_app. simpl.
    destruct (isRendering s); lia.
  - unfold render_returns. destruct (running s !! k) as [a|] eqn:Ha; [|done].
    pose proof (queue_renders_delete _ _ _ Ha) as Hdel.
    unfold flag_invariant in Hinv.
    destruct (via_queue a) eqn:Hvia.
    + apply queue_invariant_flag, processSeekQueue_invariant.
      unfold flag_invariant. simpl. destruct (isRendering s); lia.
    + unfold flag_invariant. simpl. destruct (isRendering s); lia.
  - unfold render_throws. destruct (running s !! k) as [a|] eqn:Ha; [|done].
    pose proof (queue_renders_delete _ _ _ Ha) as Hdel.
    unfold flag_invariant in *.
    destruct (via_queue a) eqn:Hvia; simpl; destruct (isRendering s); lia.
Qed.

Lemma react_invariant (e : Event) (s : Sequencer) :
  no_throw e → queue_invariant s → queue_invariant (react e s).
Proof.
  intros Hno Hinv. destruct e as [i| | |k|k]; simpl; [| | | |done].
  - unfold handleSeek. apply processSeekQueue_invariant. simpl.
    by apply queue_invariant_flag in Hinv.
  - done.
  - unfold playback_advance. destruct (isPlaying s && gifLoaded s); [|done].
    unfold queue_invariant in *. simpl.
    destruct (canvasReady s); simpl; [|done].
    rewrite queue_renders_app. simpl.
    destruct (isRendering s); [lia|]. destruct Hinv. split; [lia|done].
  - unfold render_returns. destruct (running s !! k) as [a|] eqn:Ha; [|done].
    pose proof (queue_renders_delete _ _ _ Ha) as Hdel.
    unfold queue_invariant in Hinv.
    destruct (via_queue a) eqn:Hvia.
    + apply processSeekQueue_invariant. unfold flag_invariant. simpl.
      destruct (isRendering s); [lia|]. destruct Hinv. lia.
    + unfold queue_invariant. simpl.
      destruct (isRendering s); [lia|]. destruct Hinv. split; [lia|done].
Qed.

Lemma run_events_flag_invariant (es : list Event) (s : Sequencer) :
  flag_invariant s → flag_invariant (run_events es s).
Proof.
  unfold run_events. revert s.
  induction es as [|e es IH]; intros s Hq; simpl; [done|].
  apply IH. by apply react_flag_invariant.
Qed.

Lemma run_events_invariant (es : list Event) (s : Sequencer) :
  Forall no_throw es → queue_invariant s → queue_invariant (run_events es s).
Proof.
  unfold run_events. revert s.
  induction es as [|e es IH]; intros s Hno Hq; simpl; [done|].
  apply Forall_cons in Hno as [He Hes].
  apply IH; [done|]. by apply react_invariant.
Qed.

Lemma seek_queue_single_flight (es : list Event) (n : Z) :
  flag_invariant (run_events es (loaded_editor n))
  ∧ (queue_renders (running (run_events es (loaded_editor n))) ≤ 1)%nat.
Proof.
  assert (flag_invariant (run_events es (loaded_editor n))) as Hinv.
  { by apply run_events_flag_invariant. }
  split; [done|]. unfold flag_invariant in Hinv.
  destruct (isRendering _); lia.
Qed.

(** A seek that is overtaken while a render is running leaves no trace:
    only the latest index stays in the queue. *)
Lemma superseded_seek_dropped (a b : Z) (s : Sequencer) :
  isRendering s = true →
  handleSeek b (handleSeek a s) = handleSeek b s
  ∧ nextSeekFrame (handleSeek b (handleSeek a s)) = Some b
  ∧ running (handleSeek b (handleSeek a s)) = running s.
Proof.
  intros Hr. unfold handleSeek, processSeekQueue. simpl. rewrite Hr. simpl.
  by rewrite Hr.
Qed.

(** * The seek path when no frame asks for RestorePrevious

    The divergence of the seek path from the sequential composite comes
    from the saved buffer alone: when no frame has disposal 3, every
    order of seeks leaves the canvas at the sequential composite. *)

Lemma for_loop_total {S} (P : nat → S → Prop) (body : Z → S → completion S) :
  ∀ cnt start s,
    (∀ k s0, (start ≤ k < start + cnt)%nat → P k s0 →
             ∃ s1, body (Z.of_nat k) s0 = Normal s1 ∧ P (Datatypes.S k) s1) →
    P start s →
    ∃ s', for_loop body (Z.of_nat start) cnt s = Normal s' ∧ P (start + cnt)%nat s'.
Proof.
  induction cnt as [|cnt IH]; intros start s Hbody Hs; simpl.
  - exists s. by rewrite Nat.add_0_r.
  - destruct (Hbody start s) as (s1 & Hb & Hs1); [lia|done|]. rewrite Hb.
    replace (Z.of_nat start + 1) with (Z.of_nat (Datatypes.S start)) by lia.
    replace (start + Datatypes.S cnt)%nat with (Datatypes.S start + cnt)%nat by lia.
    apply IH; [|done]. intros k s0 Hk. apply Hbody. lia.
Qed.

Section SeekPath.
Context {pixel : Type}.
Variable transparent : pixel.
Variable over : pixel → pixel → pixel.
Implicit Types (cv : list (list pixel)) (m : gmap Z (list (list pixel)))
  (fs : list (ParsedFrame pixel)).

Lemma spec_state_S fs st0 pre f rest :
  fs = pre ++ f :: rest →
  spec_state transparent over fs st0 (S (length pre))
  = spec_step transparent over (last pre) f
      (spec_state transparent over fs st0 (length pre)).
Proof.
  intros ->. simpl. rewrite list_lookup_middle by done. f_equal.
  induction pre as [|p pre _] using rev_ind; [done|].
  rewrite last_snoc, length_app. simpl. rewrite Nat.add_1_r.
  rewrite <- app_assoc. simpl. by rewrite list_lookup_middle.
Qed.

Lemma spec_replay_state fs st0 :
  ∀ rest pre j,
    fs = pre ++ rest → (j < length rest)%nat →
    spec_replay transparent over (last pre) rest
      (spec_state transparent over fs st0 (length pre)) !! j
    = Some (fst (spec_state transparent over fs st0 (length pre + j + 1))).
Proof.
  induction rest as [|f rest IH]; intros pre j Hfs Hj; [simpl in Hj; lia|].
  cbn [spec_replay]. rewrite <- (spec_state_S fs st0 pre f rest Hfs).
  rewrite lookup_cons. destruct j as [|j].
  - replace (length pre + 0 + 1)%nat with (S (length pre)) by lia. done.
  - specialize (IH (pre ++ [f]) j). rewrite last_snoc, length_app in IH.
    change (length [f]) with 1%nat in IH.
    replace (length pre + 1)%nat with (S (length pre)) in IH by lia.
    rewrite IH.
    + do 3 f_equal. lia.
    + by rewrite <- app_assoc.
    + simpl in Hj. lia.
Qed.

Lemma sequential_composite_lookup fs w h (k : nat) :
  (k < length fs)%nat →
  sequential_composite transparent over fs w h !! k
  = Some (fst (spec_state transparent over fs (createCanvas transparent w h, None) (k + 1))).
Proof.
  intros Hk. unfold sequential_composite.
  exact (spec_replay_state fs (createCanvas transparent w h, None) fs [] k eq_refl Hk).
Qed.

Lemma spec_state_sized fs w h k :
  has_size w h (fst (spec_state transparent over fs (createCanvas transparent w h, None) k))
  ∧ saved_sized w h
      (snd (spec_state transparent over fs (createCanvas transparent w h, None) k)).
Proof.
  induction k as [|k [IHc IHs]]; simpl.
  - split; [apply has_size_createCanvas|by intros s].
  - destruct (fs !! k) as [f|]; [|done].
    destruct (spec_state transparent over fs _ k) as [cv sv] eqn:Hst.
    by apply has_size_spec_step.
Qed.

Lemma spec_state_nothing_saved fs cv0 k :
  Forall (λ f, disposalType f ≠ 3) fs →
  snd (spec_state transparent over fs (cv0, None) k) = None.
Proof.
  intros Hno. induction k as [|k IH]; simpl; [done|].
  destruct (fs !! k) as [f|] eqn:Hf; [|done].
  unfold spec_step, spec_capture, disposal_of. simpl.
  pose proof (Forall_lookup_1 _ _ _ _ Hno Hf) as Hf3. simpl in Hf3.
  destruct (disposalType f =? 2); [done|].
  destruct (Z.eqb_spec (disposalType f) 3); done.
Qed.

Section WithData.
Variable data : @GifData pixel.
Hypothesis frames_valid : Forall valid_frame (frames data).
Hypothesis no_restore_previous : Forall (λ f, disposalType f ≠ 3) (frames data).

Local Abbreviation state_after k :=
  (spec_state transparent over (frames data)
     (createCanvas transparent (gwidth data) (gheight data), None) k).

(** One turn of the render loop takes the composite of the frames before
    index [k] to the composite of the frames up to [k]. *)
Lemma render_body_exact (k : nat) (st : RenderState) :
  (k < length (frames data))%nat →
  ctx st = fst (state_after k) →
  savedData st = None →
  snapshots_exact transparent over data (snaps st) →
  ∃ st', render_body transparent over data (Z.of_nat k) st = Normal st'
         ∧ ctx st' = fst (state_after (S k))
         ∧ savedData st' = None
         ∧ snapshots_exact transparent over data (snaps st').
Proof.
  intros Hk Hctx Hsaved Hsnaps.
  destruct (lookup_lt_is_Some_2 (frames data) k Hk) as [f Hf].
  pose proof (take_drop_middle _ _ _ Hf) as Hsplit. symmetry in Hsplit.
  assert (length (take k (frames data)) = k) as Hlen.
  { rewrite length_take. lia. }
  pose proof (spec_state_S (frames data)
                (createCanvas transparent (gwidth data) (gheight data), None)
                _ _ _ Hsplit) as Hstep.
  rewrite Hlen in Hstep.
  destruct (spec_state_sized (frames data) (gwidth data) (gheight data) k) as [Hsz _].
  pose proof (spec_state_nothing_saved (frames data)
                (createCanvas transparent (gwidth data) (gheight data)) k
                no_restore_previous) as Hnone.
  unfold render_body. rewrite Hsaved.
  pose proof (disposal_handling_spec transparent
                (take k (frames data)) (f :: drop (S k) (frames data))
                (gwidth data) (gheight data) (ctx st) None) as Hdisp.
  rewrite <- Hsplit, Hlen in Hdisp. rewrite Hdisp; [|by rewrite Hctx|by intros s].
  rewrite js_index_of_nat, Hf.
  pose proof (Forall_lookup_1 _ _ _ _ frames_valid Hf) as Hvalid.
  apply valid_frame_patch_image in Hvalid as [img Himg]. rewrite Himg.
  pose proof (Forall_lookup_1 _ _ _ _ no_restore_previous Hf) as Hf3. simpl in Hf3.
  assert (save_state transparent f (gwidth data) (gheight data)
            match last (take k (frames data)) with
            | Some p => spec_dispose transparent p (ctx st) None
            | None => ctx st
            end None = None) as Hsave.
  { unfold save_state. destruct (Z.eqb_spec (disposalType f) 3); done. }
  rewrite Hsave, (draw_patch_spec over _ _ _ Himg).
  assert (spec_draw over f
            match last (take k (frames data)) with
            | Some p => spec_dispose transparent p (ctx st) None
            | None => ctx st
            end = fst (state_after (S k))) as Hdraw.
  { rewrite Hstep. destruct (state_after k) as [cv sv] eqn:Hst.
    simpl in Hctx, Hnone. subst sv. rewrite Hctx. unfold spec_step. simpl. done. }
  eexists. split; [reflexivity|]. simpl. split_and!; try done.
  destruct (_ && _); [|done].
  intros key c. rewrite lookup_insert_Some. intros [[<- <-]|[_ Hkey]].
  - split; [lia|]. unfold composite_after. rewrite Hdraw.
    do 2 f_equal. lia.
  - by apply Hsnaps.
Qed.

Lemma render_loop_exact (cnt start : nat) (st : RenderState) :
  (start + cnt ≤ length (frames data))%nat →
  ctx st = fst (state_after start) →
  savedData st = None →
  snapshots_exact transparent over data (snaps st) →
  ∃ st', for_loop (render_body transparent over data) (Z.of_nat start) cnt st = Normal st'
         ∧ ctx st' = fst (state_after (start + cnt))
         ∧ snapshots_exact transparent over data (snaps st').
Proof.
  intros Hrange Hctx Hsaved Hsnaps.
  destruct (for_loop_total
    (λ k s, ctx s = fst (state_after k) ∧ savedData s = None
            ∧ snapshots_exact transparent over data (snaps s))
    (render_body transparent over data) cnt start st) as (st' & Hloop & Hc & _ & Hs).
  - intros k s0 Hk (Hc & Hs & Hm).
    destruct (render_body_exact k s0) as (s1 & ? & ? & ? & ?); [lia|done..|].
    by exists s1.
  - done.
  - by exists st'.
Qed.

(** The scan for the closest snapshot returns [-1] or a stored index
    that is not behind the target. *)
Lemma closest_snapshot_spec m (t : Z) :
  closest_snapshot m t = -1
  ∨ (closest_snapshot m t ≤ t ∧ is_Some (m !! closest_snapshot m t)).
Proof.
  unfold closest_snapshot.
  apply (map_fold_weak_ind
    (λ r m', r = -1 ∨ (r ≤ t ∧ is_Some (m' !! r)))).
  - by left.
  - intros i c m' r Hnew Hr.
    destruct (Z.leb_spec i t); simpl.
    + destruct (Z.ltb_spec r i).
      * right. split; [done|]. rewrite lookup_insert_eq. by eexists.
      * destruct Hr as [?|[? Hsome]]; [by left|right].
        split; [done|]. rewrite lookup_insert_ne; [done|].
        intros <-. rewrite Hnew in Hsome. by destruct Hsome.
    + destruct Hr as [?|[? Hsome]]; [by left|right].
      split; [done|]. rewrite lookup_insert_ne; [done|].
      intros <-. rewrite Hnew in Hsome. by destruct Hsome.
Qed.

Section Blend.
Hypothesis over_transparent : ∀ p, over p transparent = p.

(** A seek from a clean state lands on the sequential composite. *)
Lemma renderToFrame_exact (t : Z) (ed : Editor) :
  0 ≤ t < Z.of_nat (length (frames data)) →
  has_size (gwidth data) (gheight data) (compositionCanvas ed) →
  snapshots_exact transparent over data (snapshots ed) →
  lastRenderedFrame ed = -1 ∨ editor_exact transparent over data ed →
  ∃ ed', renderToFrame transparent over t data ed = Normal ed'
         ∧ lastRenderedFrame ed' = t
         ∧ editor_exact transparent over data ed'.
Proof.
  intros Ht Hsize Hsnaps Hlast.
  assert (∃ start : nat,
            fst (start_point ed t) = Z.of_nat start
            ∧ (start ≤ Z.to_nat t + 1)%nat
            ∧ restore_state transparent over data (compositionCanvas ed)
                (fst (start_point ed t)) (snd (start_point ed t))
              = fst (state_after start)) as (start & Hstart & Hle & Hrestore).
  { unfold start_point.
    destruct (negb (lastRenderedFrame ed =? -1) && (lastRenderedFrame ed <=? t)) eqn:Hfwd.
    - apply andb_prop in Hfwd as [Hne Hlt].
      apply negb_true_iff, Z.eqb_neq in Hne. apply Z.leb_le in Hlt.
      destruct Hlast as [?|(Hrange & Hcanvas & _)]; [done|].
      exists (Z.to_nat (lastRenderedFrame ed + 1)). simpl. split_and!; [lia|lia|].
      unfold restore_state.
      destruct (Z.eqb_spec (lastRenderedFrame ed + 1) 0); [lia|]. exact Hcanvas.
    - clear Hfwd. destruct (closest_snapshot_spec (snapshots ed) t) as [Hnone|[Hclose Hsome]].
      + rewrite Hnone. simpl. exists 0%nat. split_and!; [done|lia|].
        unfold restore_state. simpl. by apply clearRect_full.
      + destruct Hsome as [c Hc]. destruct (Hsnaps _ _ Hc) as [Hrange ->].
        destruct (Z.eqb_spec (closest_snapshot (snapshots ed) t) (-1)); [lia|]. simpl.
        exists (Z.to_nat (closest_snapshot (snapshots ed) t + 1)). split_and!; [lia|lia|].
        rewrite Hc. unfold restore_state.
        destruct (Z.eqb_spec (closest_snapshot (snapshots ed) t + 1) 0); [lia|].
        rewrite (clearRect_full transparent _ _ _ Hsize).
        rewrite (drawImage_onto_empty transparent over over_transparent).
        * done.
        * apply spec_state_sized. }
  unfold renderToFrame. rewrite Hrestore, Hstart.
  replace (Z.to_nat (t - Z.of_nat start + 1)) with (Z.to_nat t + 1 - start)%nat by lia.
  destruct (render_loop_exact (Z.to_nat t + 1 - start) start
              {| ctx := fst (state_after start); savedData := None;
                 snaps := snapshots ed |}) as (st' & Hloop & Hctx & Hsn); simpl; try done.
  - lia.
  - rewrite Hloop. eexists. split; [reflexivity|]. simpl. split; [done|].
    unfold editor_exact. simpl. split_and!; [lia|lia| |done].
    rewrite Hctx. unfold composite_after. do 2 f_equal. lia.
Qed.

Lemma editor_exact_sized (ed : Editor) :
  editor_exact transparent over data ed →
  has_size (gwidth data) (gheight data) (compositionCanvas ed).
Proof. intros (_ & -> & _). apply spec_state_sized. Qed.

Lemma render_sequence_exact (targets : list Z) (ed : Editor) :
  Forall (λ t, 0 ≤ t < Z.of_nat (length (frames data))) targets →
  editor_exact transparent over data ed →
  editor_exact transparent over data (render_sequence transparent over data targets ed)
  ∧ lastRenderedFrame (render_sequence transparent over data targets ed)
    = default (lastRenderedFrame ed) (last targets).
Proof.
  intros Htargets. revert ed.
  induction Htargets as [|t targets Ht _ IH]; intros ed Hed; simpl; [done|].
  destruct (renderToFrame_exact t ed Ht (editor_exact_sized ed Hed))
    as (ed' & Hrender & Hlast & Hed'); [apply Hed|by right|].
  rewrite Hrender. simpl. destruct (IH ed' Hed') as [Hex Hl]. split; [done|].
  rewrite Hl, Hlast, last_cons. by destruct (last targets).
Qed.

(** Without RestorePrevious frames, any order of seeks after the load
    leaves the canvas at the sequential composite of the last target. *)
Lemma seek_path_exact_without_restore (targets : list Z) (t : Z) :
  (0 < length (frames data))%nat →
  Forall (λ t, 0 ≤ t < Z.of_nat (length (frames data))) (targets ++ [t]) →
  generateCompositedFrames transparent over data ≫= (λ comp, comp !! Z.to_nat t)
  = Some (compositionCanvas
            (render_sequence transparent over data (targets ++ [t])
               (final_state (initial_render transparent over data)))).
Proof.
  intros Hlen Htargets.
  rewrite (generateCompositedFrames_spec transparent over data frames_valid). simpl.
  assert (0 ≤ t < Z.of_nat (length (frames data))) as Ht.
  { pose proof Htargets as H0. rewrite Forall_app, Forall_singleton in H0. by destruct H0. }
  rewrite sequential_composite_lookup by lia. f_equal.
  destruct (renderToFrame_exact 0 (fresh_editor transparent data))
    as (ed0 & Hrender & _ & Hed0); simpl.
  - lia.
  - apply has_size_createCanvas.
  - intros k c Hk. by rewrite lookup_empty in Hk.
  - by left.
  - unfold initial_render. rewrite Hrender. simpl.
    destruct (render_sequence_exact (targets ++ [t]) ed0 Htargets Hed0)
      as [(_ & Hcanvas & _) Hlast].
    rewrite Hcanvas, Hlast, last_snoc. simpl. unfold composite_after.
    do 2 f_equal. lia.
Qed.

End Blend.
End WithData.
End SeekPath.

(** * Further properties of the compositor and the exporter *)

Section CompositorExtras.
Context {pixel : Type}.
Variable transparent : pixel.
Variable over : pixel → pixel → pixel.
Implicit Types (cv img : list (list pixel)) (f : ParsedFrame pixel)
  (fs : list (ParsedFrame pixel)).

(** A loop of [generateCompositedFrames] that completes has drawn the
    patch of every frame it passed. *)
Lemma composited_loop_valid fs w h n st st' :
  for_loop (composited_body transparent over fs w h) 0 n st = Normal st' →
  ∀ j, (j < n)%nat → ∃ f, fs !! j = Some f ∧ valid_frame f.
Proof.
  intros Hloop.
  pose proof (for_loop_invariant_at
    (λ k (_ : CompState), ∀ j, (j < k)%nat → ∃ f, fs !! j = Some f ∧ valid_frame f)
    (composited_body transparent over fs w h) 0) as Hinv.
  apply (Hinv) with (n := n) (k := 0%nat) (s := st) (s' := st'); clear Hinv.
  - intros k s s' Hk. rewrite Z.add_0_l. unfold composited_body.
    rewrite js_index_of_nat.
    destruct (fs !! k) as [f|] eqn:Hf; [|done].
    destruct (disposal_handling _ _ _ _ _); [|done].
    destruct (patch_image f) as [img|] eqn:Himg; [|done].
    intros _ j Hj. destruct (decide (j = k)) as [->|]; [|apply Hk; lia].
    exists f. split; [done|]. apply valid_frame_patch_image. by eexists.
  - intros j Hj. lia.
  - exact Hloop.
Qed.

Lemma generateCompositedFrames_Some_iff (g : GifData) :
  is_Some (generateCompositedFrames transparent over g) ↔ Forall valid_frame (frames g).
Proof.
  split.
  - intros [comp Hcomp]. unfold generateCompositedFrames in Hcomp.
    destruct (for_loop _ _ _ _) as [st|st] eqn:Hloop; [|done].
    apply Forall_lookup. intros j f Hf.
    destruct (composited_loop_valid _ _ _ _ _ _ Hloop j) as (f' & Hf' & Hvalid).
    + by apply lookup_lt_Some in Hf.
    + rewrite Hf in Hf'. by injection Hf' as <-.
  - intros Hvalid. rewrite (generateCompositedFrames_spec transparent over g Hvalid).
    by eexists.
Qed.

(** X1. On an animation canvas of at least one pixel and for a crop of
    at least one pixel (a canvas without pixels the browser refuses, and
    that is outside the model), [generateCompositedFrames] and
    [cropGif] are rejected exactly when the patch of some frame does not
    hold [width * height] pixels of a non-empty rectangle; where the
    crop rectangle lies plays no part in it. *)
Theorem compositing_fails_on_bad_patch_only (g : GifData) (x y cw ch : Z) :
  (0 < gwidth g)%nat → (0 < gheight g)%nat → 1 ≤ cw → 1 ≤ ch →
  (is_Some (generateCompositedFrames transparent over g)
   ↔ Forall valid_frame (frames g))
  ∧ (is_Some (cropGif transparent over (frames g) x y cw ch)
     ↔ Forall valid_frame (frames g)).
Proof.
  intros _ _ _ _.
  split; [apply generateCompositedFrames_Some_iff|].
  rewrite (cropGif_as_composite transparent over _ _ _ _ _ []).
  rewrite <- (generateCompositedFrames_Some_iff
                {| frames := frames g; gwidth := fst (crop_temp_size (frames g));
                   gheight := snd (crop_temp_size (frames g)); canvas := [] |}).
  by rewrite fmap_is_Some.
Qed.

(** X2. Whatever the frames, [cropGif] is [generateCompositedFrames] on
    a canvas of the size of the first frame, followed by the crop view of
    every composited canvas, paired with the delay of its frame. *)
Theorem cropGif_is_cropped_composite fs (x y cw ch : Z) :
  cropGif transparent over fs x y cw ch
  = (λ comp, zip_with (λ c f, (crop_view transparent over x y cw ch c, delay f)) comp fs)
      <$> generateCompositedFrames transparent over
            {| frames := fs;
               gwidth := fst (crop_temp_size fs);
               gheight := snd (crop_temp_size fs);
               canvas := [] |}.
Proof. apply cropGif_as_composite. Qed.

Lemma sequential_composite_length fs w h :
  length (sequential_composite transparent over fs w h) = length fs.
Proof.
  unfold sequential_composite.
  generalize (@None (ParsedFrame pixel)) (createCanvas transparent w h, @None (list (list pixel))).
  induction fs as [|f fs IH]; intros prev st; simpl; [done|]. by rewrite IH.
Qed.

(** X3. When [generateCompositedFrames] succeeds it returns one bitmap
    per frame, each of the size of the animation canvas. *)
Theorem composited_frames_count_and_size (g : GifData) comp :
  generateCompositedFrames transparent over g = Some comp →
  length comp = length (frames g)
  ∧ Forall (has_size (gwidth g) (gheight g)) comp.
Proof.
  intros Hcomp. split; [|by apply generateCompositedFrames_sized in Hcomp].
  assert (Forall valid_frame (frames g)) as Hvalid.
  { apply generateCompositedFrames_Some_iff. by eexists. }
  rewrite (generateCompositedFrames_spec transparent over g Hvalid) in Hcomp.
  injection Hcomp as <-. apply sequential_composite_length.
Qed.

(** X4. How a composited frame follows from the one before it.  The
    first frame is its patch on the empty canvas.  After a frame with
    disposal 2 the next patch is drawn on the previous composite with
    that frame's rectangle cleared; after a frame with disposal 3 it is
    drawn on the canvas the disposed frame itself was drawn on, so that
    frame leaves no trace; after any other frame it is drawn on the
    previous composite. *)
Theorem successive_composites (g : GifData) comp :
  generateCompositedFrames transparent over g = Some comp →
  (∀ f, frames g !! 0%nat = Some f →
        ∃ img, patch_image f = Some img
               ∧ comp !! 0%nat
                 = Some (draw_patch over f img
                           (createCanvas transparent (gwidth g) (gheight g))))
  ∧ (∀ (i : nat) p f c,
       frames g !! i = Some p → frames g !! S i = Some f → comp !! i = Some c →
       ∃ img, patch_image f = Some img
              ∧ (disposalType p = 2 →
                 comp !! S i
                 = Some (draw_patch over f img
                           (clearRect transparent c (left (dims p)) (top (dims p))
                                      (width (dims p)) (height (dims p)))))
              ∧ (disposalType p = 3 →
                 ∃ base imgp, patch_image p = Some imgp
                              ∧ c = draw_patch over p imgp base
                              ∧ comp !! S i = Some (draw_patch over f img base))
              ∧ (disposalType p ≠ 2 → disposalType p ≠ 3 →
                 comp !! S i = Some (draw_patch over f img c))).
Proof.
  intros Hcomp.
  assert (Forall valid_frame (frames g)) as Hvalid.
  { apply generateCompositedFrames_Some_iff. by eexists. }
  rewrite (generateCompositedFrames_spec transparent over g Hvalid) in Hcomp.
  injection Hcomp as <-.
  set (st0 := (createCanvas transparent (gwidth g) (gheight g),
               @None (list (list pixel)))).
  split.
  - intros f Hf.
    pose proof (Forall_lookup_1 _ _ _ _ Hvalid Hf) as Hv.
    apply valid_frame_patch_image in Hv as [img Himg]. exists img. split; [done|].
    rewrite sequential_composite_lookup by (by apply lookup_lt_Some in Hf).
    simpl. rewrite Hf. unfold spec_step. simpl.
    by rewrite (draw_patch_spec over _ _ _ Himg).
  - intros i p f c Hp Hf Hc.
    pose proof (Forall_lookup_1 _ _ _ _ Hvalid Hf) as Hv.
    apply valid_frame_patch_image in Hv as [img Himg]. exists img. split; [done|].
    rewrite sequential_composite_lookup in Hc by (by apply lookup_lt_Some in Hp).
    injection Hc as Hc. fold st0 in Hc.
    rewrite sequential_composite_lookup by (by apply lookup_lt_Some in Hf).
    fold st0.
    replace (S i + 1)%nat with (S (S i)) by lia.
    replace (i + 1)%nat with (S i) in Hc by lia.
    assert (spec_state transparent over (frames g) st0 (S (S i))
            = spec_step transparent over (Some p) f
                (spec_state transparent over (frames g) st0 (S i))) as Hstep.
    { change (spec_state transparent over (frames g) st0 (S (S i)))
        with (match frames g !! S i with
              | Some f' => spec_step transparent over (frames g !! i) f'
                             (spec_state transparent over (frames g) st0 (S i))
              | None => spec_state transparent over (frames g) st0 (S i)
              end).
      by rewrite Hf, Hp. }
    assert (∃ prev, spec_state transparent over (frames g) st0 (S i)
                    = spec_step transparent over prev p
                        (spec_state transparent over (frames g) st0 i))
      as [prev Hstep1].
    { exists (match i with O => None | S j => frames g !! j end).
      change (spec_state transparent over (frames g) st0 (S i))
        with (match frames g !! i with
              | Some f' => spec_step transparent over
                             (match i with O => None | S j => frames g !! j end) f'
                             (spec_state transparent over (frames g) st0 i)
              | None => spec_state transparent over (frames g) st0 i
              end).
      by rewrite Hp. }
    rewrite Hstep. clear Hstep.
    destruct (spec_state transparent over (frames g) st0 (S i)) as [c1 sv1].
    simpl in Hc. subst c1.
    destruct (spec_state transparent over (frames g) st0 i) as [ci svi].
    rewrite !(draw_patch_spec over _ _ _ Himg).
    unfold spec_step in *. cbn [fst snd] in *.
    injection Hstep1 as Hc Hsv.
    split_and!.
    + intros H2. unfold spec_dispose, disposal_of. by rewrite H2.
    + intros H3.
      pose proof (Forall_lookup_1 _ _ _ _ Hvalid Hp) as Hvp.
      apply valid_frame_patch_image in Hvp as [imgp Himgp].
      eexists _, imgp. split; [done|].
      rewrite !(draw_patch_spec over _ _ _ Himgp).
      rewrite !(draw_patch_spec over _ _ _ Himg).
      split; [exact Hc|].
      rewrite Hsv. unfold spec_capture, spec_dispose at 1, disposal_of.
      rewrite H3. simpl. done.
    + intros H2 H3. unfold spec_dispose, disposal_of.
      destruct (Z.eqb_spec (disposalType p) 2); [done|].
      destruct (Z.eqb_spec (disposalType p) 3); [done|]. done.
Qed.

End CompositorExtras.

Section ExportExtras.
Context {pixel : Type}.
Variable transparent : pixel.
Variable over : pixel → pixel → pixel.
Implicit Types (cv img : list (list pixel)) (f : ParsedFrame pixel)
  (fs : list (ParsedFrame pixel)).

Lemma pixelAt_putImageData cv img dx dy x y :
  pixelAt (putImageData cv img dx dy) x y
  = (λ p, if ((dx <=? x) && (dy <=? y))%nat
          then default p (pixelAt img (x - dx) (y - dy)) else p) <$> pixelAt cv x y.
Proof. unfold putImageData. by rewrite pixelAt_paint. Qed.

(** X5. [parseGifFile] rejects exactly a GIF without frames or with a
    first frame whose patch does not fit its rectangle.  The preview
    canvas it returns has the size of the first patch and shows that
    patch moved by the frame's offset: a pixel left of or above the
    offset is transparent, and the patch pixels that the move pushes
    over the right or lower edge are lost. *)
Theorem parseGifFile_preview (gif : Decoded) :
  (is_Some (parseGifFile transparent gif)
   ↔ ∃ frame0 rest, decoded_frames gif = frame0 :: rest ∧ valid_frame frame0)
  ∧ (∀ g frame0 rest x y,
       parseGifFile transparent gif = Some g →
       decoded_frames gif = frame0 :: rest →
       (x < width (dims frame0))%nat → (y < height (dims frame0))%nat →
       pixelAt (canvas g) x y
       = if ((left (dims frame0) <=? x) && (top (dims frame0) <=? y))%nat
         then patch frame0 !! ((y - top (dims frame0)) * width (dims frame0)
                               + (x - left (dims frame0)))%nat
         else Some transparent).
Proof.
  split.
  - split.
    + intros [g Hg].
      destruct (parseGifFile_Some transparent gif g Hg)
        as (frame0 & rest & img & Hfs & Himg & _).
      exists frame0, rest. split; [done|]. apply valid_frame_patch_image. by eexists.
    + intros (frame0 & rest & Hfs & Hvalid). unfold parseGifFile. rewrite Hfs.
      apply valid_frame_patch_image in Hvalid as [img ->]. by eexists.
  - intros g frame0 rest x y Hg Hfs Hx Hy.
    destruct (parseGifFile_Some transparent gif g Hg)
      as (frame0' & rest' & img & Hfs' & Himg & ->).
    rewrite Hfs in Hfs'. injection Hfs' as <- <-. simpl.
    rewrite pixelAt_putImageData, pixelAt_createCanvas by done. simpl.
    destruct ((left (dims frame0) <=? x) && (top (dims frame0) <=? y))%nat eqn:Hin;
      [|done].
    apply andb_prop in Hin as [Hl Ht]. apply Nat.leb_le in Hl, Ht.
    unfold patch_image in Himg.
    rewrite (pixelAt_newImageData _ _ _ _ _ _ Himg) by lia.
    assert (is_Some (newImageData (patch frame0) (width (dims frame0))
                       (height (dims frame0)))) as Hv by by eexists.
    apply newImageData_Some_iff in Hv as (_ & _ & Hlen).
    destruct (lookup_lt_is_Some_2 (patch frame0)
                ((y - top (dims frame0)) * width (dims frame0)
                 + (x - left (dims frame0)))%nat) as [p Hp]; [nia|].
    by rewrite Hp.
Qed.

(** X6. For a trim range [start, end] inside the frames, a completed
    export hands the encoder [end - start + 1] frames, and the [j]-th of
    them carries the delay of frame [start + j]. *)
Theorem export_covers_trim_range (rq : ExportRequest) (g : GifData) out :
  ex_gifData rq = Some g →
  trim_range_ok (length (frames g)) (trimRange rq) = true →
  handleExport transparent over rq = ExportDone out →
  Z.of_nat (length out) = snd (trimRange rq) - fst (trimRange rq) + 1
  ∧ ∀ j : nat, (j < length out)%nat →
               out.*2 !! j = delay <$> frames g !! (Z.to_nat (fst (trimRange rq)) + j)%nat.
Proof.
  intros Hg Hok. unfold trim_range_ok in Hok.
  apply andb_prop in Hok as [Hok He]. apply andb_prop in Hok as [Hs Hse].
  apply Z.leb_le in Hs, Hse. apply Z.ltb_lt in He.
  unfold handleExport.
  destruct (export_call rq) as [call|] eqn:Hcall; [|done].
  destruct (run_call transparent over call) as [out'|] eqn:Hrun; [|done].
  intros [= <-]. unfold run_call in Hrun. apply cropGif_delays in Hrun.
  assert (call_frames call
          = js_slice (frames g) (fst (trimRange rq)) (snd (trimRange rq) + 1)) as Hcf.
  { unfold export_call in Hcall. rewrite Hg in Hcall.
    destruct (exporting rq); [done|].
    destruct (match appliedCrop rq with Some c => Some c | None => completedCrop rq end)
      as [c|]; [destruct (_ && _)|]; by injection Hcall as <-. }
  rewrite Hcf, js_slice_in_range in Hrun by lia.
  assert (length out' = length (out'.*2)) as Hlen by by rewrite length_fmap.
  rewrite Hrun, length_fmap, length_take, length_drop in Hlen.
  split; [lia|]. intros j Hj.
  rewrite Hrun, list_lookup_fmap, lookup_take_lt, lookup_drop by lia. done.
Qed.

End ExportExtras.

(** * Further properties of the seek path and the snapshot cache *)

Section SeekExtras.
Context {pixel : Type}.
Variable transparent : pixel.
Variable over : pixel → pixel → pixel.
Implicit Types (cv : list (list pixel)) (m : gmap Z (list (list pixel)))
  (ed : @Editor pixel) (data : @GifData pixel).

(** X7. When no frame has disposal 3 the seek path is exact: after the
    load and any sequence of seeks inside the frames, the canvas is the
    sequential composite of the frame sought last. *)
Theorem seek_path_deterministic_without_restore data (targets : list Z) (t : Z) :
  (∀ p, over p transparent = p) →
  Forall valid_frame (frames data) →
  Forall (λ f, disposalType f ≠ 3) (frames data) →
  Forall (λ i, 0 ≤ i < Z.of_nat (length (frames data))) (targets ++ [t]) →
  generateCompositedFrames transparent over data ≫= (λ comp, comp !! Z.to_nat t)
  = Some (compositionCanvas
            (render_sequence transparent over data (targets ++ [t])
               (final_state (initial_render transparent over data)))).
Proof.
  intros Hover Hvalid Hno Htargets.
  apply seek_path_exact_without_restore; try done.
  assert (0 ≤ t < Z.of_nat (length (frames data))) as Ht.
  { pose proof Htargets as H0. rewrite Forall_app, Forall_singleton in H0. by destruct H0. }
  lia.
Qed.

(** X8. Seeking twice to the same frame changes nothing the second
    time: the call replays no frame, keeps the canvas, the snapshots and
    the stage image, and completes. *)
Theorem renderToFrame_twice data ed ed' (t : Z) :
  t ≠ -1 →
  renderToFrame transparent over t data ed = Normal ed' →
  renderToFrame transparent over t data ed' = Normal ed'.
Proof.
  intros Ht. unfold renderToFrame at 1.
  destruct (for_loop _ _ _ _) as [st|st]; [|done].
  intros [= <-]. unfold renderToFrame, start_point, restore_state. simpl.
  destruct (Z.eqb_spec t (-1)); [done|].
  destruct (Z.leb_spec t t); [|lia]. simpl.
  destruct (Z.eqb_spec (t + 1) 0); [lia|].
  replace (Z.to_nat (t - (t + 1) + 1)) with 0%nat by lia. done.
Qed.

(** A turn of the render loop that throws leaves the snapshots alone. *)
Lemma render_body_Abrupt_snaps data i st st' :
  render_body transparent over data i st = Abrupt st' → snaps st' = snaps st.
Proof.
  unfold render_body.
  destruct (disposal_handling _ _ _ _ _) as [ctx1|]; [|by intros [= <-]].
  destruct (js_index (frames data) i) as [frame|]; [|by intros [= <-]].
  destruct (patch_image frame) as [img|]; [done|by intros [= <-]].
Qed.

Lemma render_body_Normal_index data i st st' :
  render_body transparent over data i st = Normal st' →
  0 ≤ i < Z.of_nat (length (frames data)).
Proof.
  unfold render_body.
  destruct (disposal_handling _ _ _ _ _) as [ctx1|]; [|done].
  destruct (js_index (frames data) i) as [frame|] eqn:Hf; [|done].
  intros _. by apply js_index_Some in Hf.
Qed.

(** A render loop that runs into an index behind the last frame throws. *)
Lemma render_loop_out_of_range data (cnt : nat) (i : Z) st :
  (0 < cnt)%nat →
  Z.of_nat (length (frames data)) ≤ i + Z.of_nat cnt - 1 →
  is_normal (for_loop (render_body transparent over data) i cnt st) = false.
Proof.
  revert i st. induction cnt as [|cnt IH]; intros i st Hcnt Hout; [lia|].
  simpl. destruct (render_body transparent over data i st) as [s1|s1] eqn:Hbody; [|done].
  apply render_body_Normal_index in Hbody.
  apply IH; lia.
Qed.

(** X9. A seek to an index behind the last frame throws, unless the call
    has nothing to replay; the frame rendered last and the stage image
    stay as they were. *)
Theorem seek_past_the_end_throws data ed (t : Z) :
  Z.of_nat (length (frames data)) ≤ t →
  fst (start_point ed t) ≤ t →
  ∃ ed', renderToFrame transparent over t data ed = Abrupt ed'
         ∧ lastRenderedFrame ed' = lastRenderedFrame ed
         ∧ stageImage ed' = stageImage ed.
Proof.
  intros Hout Hstart. unfold renderToFrame.
  pose proof (render_loop_out_of_range data
    (Z.to_nat (t - fst (start_point ed t) + 1)) (fst (start_point ed t))
    {| ctx := restore_state transparent over data (compositionCanvas ed)
                (fst (start_point ed t)) (snd (start_point ed t));
       savedData := None; snaps := snapshots ed |}) as Hloop.
  destruct (for_loop _ _ _ _) as [st|st].
  - simpl in Hloop. discriminate Hloop; lia.
  - by eexists.
Qed.

Lemma closest_snapshot_max m (t : Z) :
  (∀ k, is_Some (m !! k) → k ≤ t → k ≤ closest_snapshot m t)
  ∧ -1 ≤ closest_snapshot m t.
Proof.
  unfold closest_snapshot.
  apply (map_fold_weak_ind
    (λ r m', (∀ k, is_Some (m' !! k) → k ≤ t → k ≤ r) ∧ -1 ≤ r)).
  - split; [|done]. intros k Hk. rewrite lookup_empty in Hk. by destruct Hk.
  - intros i c m' r Hnew [Hr Hlow]. split.
    + intros k. rewrite lookup_insert_is_Some. intros [<-|[_ Hk]] Hkt.
      * destruct (Z.leb_spec i t); [|lia]. simpl. destruct (Z.ltb_spec r i); lia.
      * specialize (Hr k Hk Hkt).
        destruct ((i <=? t) && (r <? i)) eqn:Hc; [|done].
        apply andb_prop in Hc as [_ Hc]. apply Z.ltb_lt in Hc. lia.
    + destruct ((i <=? t) && (r <? i)) eqn:Hc; [|done].
      apply andb_prop in Hc as [_ Hc]. apply Z.ltb_lt in Hc. lia.
Qed.

(** X10. The scan of the snapshot map returns the greatest stored index
    that is not behind the target, and [-1] when no stored index is at or
    before the target. *)
Theorem closest_snapshot_greatest m (t : Z) :
  (closest_snapshot m t = -1
   ∨ (closest_snapshot m t ≤ t ∧ is_Some (m !! closest_snapshot m t)))
  ∧ (∀ k, is_Some (m !! k) → k ≤ t → k ≤ closest_snapshot m t)
  ∧ -1 ≤ closest_snapshot m t.
Proof. split; [apply closest_snapshot_spec|apply closest_snapshot_max]. Qed.

(** The snapshots after a render loop, however it ends: those before
    it, and the multiples of ten among the indices it completed. *)
Lemma render_loop_keys data (cnt : nat) (i0 : Z) st :
  ∃ done_ : nat,
    (done_ ≤ cnt)%nat
    ∧ (is_normal (for_loop (render_body transparent over data) i0 cnt st) = true →
       done_ = cnt)
    ∧ ((0 < done_)%nat → 0 ≤ i0)
    ∧ ∀ k, is_Some (snaps (final_state
                             (for_loop (render_body transparent over data) i0 cnt st)) !! k)
           ↔ is_Some (snaps st !! k)
             ∨ (i0 ≤ k < i0 + Z.of_nat done_ ∧ Z.rem k 10 = 0).
Proof.
  revert i0 st. induction cnt as [|cnt IH]; intros i0 st; simpl.
  - exists 0%nat. split_and!; [done|done|lia|].
    intros k. split; [by left|]. intros [?|?]; [done|lia].
  - destruct (render_body transparent over data i0 st) as [s1|s1] eqn:Hbody.
    + destruct (IH (i0 + 1) s1) as (d & Hd & Hn & Hpos & Hkeys).
      pose proof (render_body_Normal_index _ _ _ _ Hbody) as Hi0.
      apply render_body_snaps in Hbody.
      exists (S d). split_and!; [lia|intros Hnorm; f_equal; auto|lia|].
      intros k. rewrite Hkeys, Hbody.
      destruct (Z.eqb_spec (Z.rem i0 10) 0) as [Hrem|Hrem]; simpl.
      * destruct (bool_decide_reflect (is_Some (snaps st !! i0))) as [Hthere|Hnew]; simpl.
        -- split; [intros [?|?]; [by left|right; lia]|].
           intros [?|[Hk ?]]; [by left|].
           destruct (decide (k = i0)) as [->|]; [by left|right; lia].
        -- rewrite lookup_insert_is_Some. split.
           ++ intros [[<-|[_ ?]]|?]; [right; lia|by left|right; lia].
           ++ intros [?|[Hk ?]].
              ** left. destruct (decide (i0 = k)); [by left|by right].
              ** destruct (decide (i0 = k)); [by left; left|right; lia].
      * split; [intros [?|?]; [by left|right; lia]|].
        intros [?|[Hk Hk0]]; [by left|].
        destruct (decide (k = i0)) as [->|]; [done|right; lia].
    + exists 0%nat. simpl. apply render_body_Abrupt_snaps in Hbody. rewrite Hbody.
      split_and!; [lia|done|lia|].
      intros k. split; [by left|]. intros [?|?]; [done|lia].
Qed.

Lemma start_point_cases ed (t : Z) :
  (fst (start_point ed t) = lastRenderedFrame ed + 1
   ∧ lastRenderedFrame ed ≠ -1 ∧ lastRenderedFrame ed ≤ t)
  ∨ (¬ (lastRenderedFrame ed ≠ -1 ∧ lastRenderedFrame ed ≤ t)
     ∧ fst (start_point ed t) = closest_snapshot (snapshots ed) t + 1
     ∧ closest_snapshot (snapshots ed) t ≤ t
     ∧ is_Some (snapshots ed !! closest_snapshot (snapshots ed) t))
  ∨ (¬ (lastRenderedFrame ed ≠ -1 ∧ lastRenderedFrame ed ≤ t)
     ∧ fst (start_point ed t) = 0 ∧ closest_snapshot (snapshots ed) t = -1).
Proof.
  unfold start_point.
  destruct (Z.eqb_spec (lastRenderedFrame ed) (-1)) as [Hl|Hl]; simpl.
  - destruct (closest_snapshot_spec (snapshots ed) t) as [Hc|[Hc Hs]].
    + rewrite Hc. simpl. right. right. split_and!; [lia|done|done].
    + destruct (Z.eqb_spec (closest_snapshot (snapshots ed) t) (-1)) as [He|He]; simpl.
      * right. right. split_and!; [lia|done|done].
      * right. left. split_and!; [lia|done|done|done].
  - destruct (Z.leb_spec (lastRenderedFrame ed) t); simpl.
    + by left.
    + destruct (closest_snapshot_spec (snapshots ed) t) as [Hc|[Hc Hs]].
      * rewrite Hc. simpl. right. right. split_and!; [lia|done|done].
      * destruct (Z.eqb_spec (closest_snapshot (snapshots ed) t) (-1)) as [He|He]; simpl.
        -- right. right. split_and!; [lia|done|done].
        -- right. left. split_and!; [lia|done|done|done].
Qed.

Lemma renderToFrame_checkpoints data ed (t : Z) :
  checkpoints_complete ed →
  checkpoints_complete (final_state (renderToFrame transparent over t data ed)).
Proof.
  intros (Hmult & Hdown & Hlast).
  unfold renderToFrame.
  remember (fst (start_point ed t)) as start eqn:Hstart.
  set (st0 := {| ctx := _; savedData := None; snaps := snapshots ed |}).
  destruct (render_loop_keys data (Z.to_nat (t - start + 1)) start st0)
    as (d & Hd & Hnorm & Hpos & Hkeys).
  assert (∀ j, 0 ≤ j < start → Z.rem j 10 = 0 → is_Some (snapshots ed !! j)) as Hbelow.
  { intros j Hj Hrem. subst start.
    destruct (start_point_cases ed t) as [(Hs & _ & _)|[(_ & Hs & _ & Hsome)|(_ & Hs & _)]].
    - apply Hlast; [lia|done].
    - apply (Hdown _ j Hsome); [lia|done].
    - lia. }
  assert (∀ k, is_Some (snaps (final_state
             (for_loop (render_body transparent over data) start
                (Z.to_nat (t - start + 1)) st0)) !! k) → 0 ≤ k ∧ Z.rem k 10 = 0) as Hmult'.
  { intros k. rewrite Hkeys. intros [Hk|[Hk Hrem]]; [by apply Hmult|].
    split; [|done]. assert (0 < d)%nat by lia. specialize (Hpos H). lia. }
  assert (∀ k j, is_Some (snaps (final_state
             (for_loop (render_body transparent over data) start
                (Z.to_nat (t - start + 1)) st0)) !! k) →
           0 ≤ j ≤ k → Z.rem j 10 = 0 →
           is_Some (snaps (final_state
             (for_loop (render_body transparent over data) start
                (Z.to_nat (t - start + 1)) st0)) !! j)) as Hdown'.
  { intros k j. rewrite !Hkeys. intros [Hk|[Hk Hrem]] Hj Hjrem.
    - left. by apply (Hdown k j).
    - destruct (Z.lt_ge_cases j start); [left; apply Hbelow; [lia|done]|].
      right. split; [lia|done]. }
  destruct (for_loop _ _ _ _) as [st|st] eqn:Hloop;
    unfold checkpoints_complete;
    cbn [final_state lastRenderedFrame snapshots is_normal] in *.
  - split_and!; [done|done|].
    intros j Hj Hrem. apply Hkeys.
    destruct (Z.lt_ge_cases j start); [left; apply Hbelow; [lia|done]|].
    right. specialize (Hnorm eq_refl). split; [lia|done].
  - split_and!; [done|done|].
    intros j Hj Hrem. apply Hkeys. left. by apply Hlast.
Qed.

Lemma render_sequence_checkpoints data (targets : list Z) ed :
  checkpoints_complete ed →
  checkpoints_complete (render_sequence transparent over data targets ed).
Proof.
  revert ed. induction targets as [|t targets IH]; intros ed Hed; simpl; [done|].
  by apply IH, renderToFrame_checkpoints.
Qed.

(** X11. After the load and any sequence of seeks, whether they
    completed or threw, a seek back to a frame before the one rendered
    last restores a snapshot and replays at most nine frames. *)
Theorem backward_seek_replays_at_most_nine data (targets : list Z) (t : Z) :
  let ed := render_sequence transparent over data targets
              (final_state (initial_render transparent over data)) in
  0 ≤ t < lastRenderedFrame ed →
  is_Some (snd (start_point ed t))
  ∧ t - 9 ≤ fst (start_point ed t) - 1 ≤ t
  ∧ (replayed_frames ed t ≤ 9)%nat.
Proof.
  intros ed Ht.
  assert (checkpoints_complete ed) as (Hmult & Hdown & Hlast).
  { apply render_sequence_checkpoints. unfold initial_render.
    apply renderToFrame_checkpoints. unfold fresh_editor. split_and!; simpl.
    - intros k Hk. rewrite lookup_empty in Hk. by destruct Hk.
    - intros k j Hk. rewrite lookup_empty in Hk. by destruct Hk.
    - intros j Hj. lia. }
  assert (is_Some (snapshots ed !! (10 * (t / 10)))) as Hbase.
  { apply Hlast.
    - pose proof (Z.mul_div_le t 10). pose proof (Z.div_pos t 10). lia.
    - rewrite Z.mul_comm. apply Z.rem_mul. lia. }
  pose proof (closest_snapshot_spec (snapshots ed) t) as Hcl.
  destruct (closest_snapshot_max (snapshots ed) t) as [Hmax _].
  specialize (Hmax _ Hbase).
  assert (0 ≤ closest_snapshot (snapshots ed) t
          ∧ t - 9 ≤ closest_snapshot (snapshots ed) t) as [Hpos Hnear].
  { pose proof (Z.mul_div_le t 10). pose proof (Z.mod_pos_bound t 10).
    pose proof (Z.div_mod t 10). pose proof (Z.div_pos t 10). lia. }
  unfold replayed_frames, start_point.
  destruct (Z.eqb_spec (lastRenderedFrame ed) (-1)); [lia|].
  destruct (Z.leb_spec (lastRenderedFrame ed) t); [lia|]. simpl.
  destruct (Z.eqb_spec (closest_snapshot (snapshots ed) t) (-1)); [lia|]. simpl.
  destruct Hcl as [?|[Hle Hsome]]; [lia|].
  split_and!; [done|lia|lia|lia].
Qed.

End SeekExtras.

(** * Further properties of the sequencer *)

(** X12. Whatever the sequence of seeks, play/pause presses, playback
    ticks and renders that finish or throw, at most one render started
    through the seek queue is running and [isRendering] tells whether
    there is one.  As long as no render has thrown, a frame waits in the
    queue only while such a render is running. *)
Theorem seek_queue_is_single_flight (es : list Event) (n : Z) :
  let s := run_events es (loaded_editor n) in
  (queue_renders (running s) ≤ 1)%nat
  ∧ (isRendering s = true ↔ queue_renders (running s) = 1%nat)
  ∧ (Forall no_throw es → is_Some (nextSeekFrame s) → isRendering s = true).
Proof.
  simpl. destruct (seek_queue_single_flight es n) as [Hinv Hle].
  split; [done|]. split.
  - unfold flag_invariant in Hinv. destruct (isRendering _); [done|].
    rewrite Hinv. split; intros; [done|lia].
  - intros Hno Hnext.
    assert (queue_invariant (run_events es (loaded_editor n))) as Hq.
    { apply run_events_invariant; [done|by split]. }
    unfold queue_invariant in Hq. destruct (isRendering _); [done|].
    destruct Hq as [_ Hnone]. rewrite Hnone in Hnext. by destruct Hnext.
Qed.

Lemma run_events_app (es1 es2 : list Event) (s : Sequencer) :
  run_events (es1 ++ es2) s = run_events es2 (run_events es1 s).
Proof. unfold run_events. apply foldl_app. Qed.

Lemma seeks_while_rendering (bs : list Z) (s : Sequencer) :
  isRendering s = true →
  let s' := run_events (Seek <$> bs) s in
  isRendering s' = true
  ∧ running s' = running s
  ∧ gifLoaded s' = gifLoaded s ∧ canvasReady s' = canvasReady s
  ∧ nextSeekFrame s' = match last bs with Some b => Some b | None => nextSeekFrame s end
  ∧ currentFrameIdx s' = default (currentFrameIdx s) (last bs).
Proof.
  intros Hr. induction bs as [|b bs IH] using rev_ind; simpl; [done|].
  rewrite fmap_app, run_events_app. simpl in IH.
  destruct IH as (Hr' & Hrun & Hg & Hc & _ & _).
  rewrite last_snoc. unfold run_events at 1. simpl.
  unfold handleSeek, processSeekQueue. simpl. rewrite Hr'. simpl.
  by rewrite Hr'.
Qed.

(** X13. Latest wins.  From an idle, loaded editor, a seek starts its
    render at once; of the seeks that arrive while it runs only the last
    stays in the queue, and when the render returns exactly that one is
    started; the seeks in between are never rendered. *)
Theorem latest_seek_wins (a : Z) (bs : list Z) (s : Sequencer) :
  gifLoaded s = true → canvasReady s = true →
  isRendering s = false → nextSeekFrame s = None → running s = [] →
  let busy := run_events (Seek a :: (Seek <$> bs)) s in
  running busy = [ {| via_queue := true; target := a |} ]
  ∧ nextSeekFrame busy = last bs
  ∧ currentFrameIdx busy = default a (last bs)
  ∧ running (render_returns 0 busy)
    = match last bs with
      | Some b => [ {| via_queue := true; target := b |} ]
      | None => []
      end
  ∧ nextSeekFrame (render_returns 0 busy) = None
  ∧ isRendering (render_returns 0 busy) = bool_decide (is_Some (last bs)).
Proof.
  intros Hg Hc Hr Hn Hrun. simpl.
  change (foldl (λ s0 e, react e s0) (react (Seek a) s) (Seek <$> bs))
    with (run_events (Seek <$> bs) (handleSeek a s)).
  assert (isRendering (handleSeek a s) = true
          ∧ running (handleSeek a s) = [ {| via_queue := true; target := a |} ]
          ∧ nextSeekFrame (handleSeek a s) = None
          ∧ currentFrameIdx (handleSeek a s) = a
          ∧ gifLoaded (handleSeek a s) = true ∧ canvasReady (handleSeek a s) = true)
    as (Hr1 & Hrun1 & Hn1 & Hcur1 & Hg1 & Hc1).
  { unfold handleSeek, processSeekQueue, performRender. simpl.
    rewrite Hr. simpl. rewrite Hg, Hc. simpl. by rewrite Hrun. }
  destruct (seeks_while_rendering bs (handleSeek a s) Hr1)
    as (Hr2 & Hrun2 & Hg2 & Hc2 & Hn2 & Hcur2).
  set (busy := run_events (Seek <$> bs) (handleSeek a s)) in *.
  assert (nextSeekFrame busy = last bs) as Hn3.
  { rewrite Hn2, Hn1. by destruct (last bs). }
  rewrite Hrun1 in Hrun2. rewrite Hcur1 in Hcur2. rewrite Hg1 in Hg2. rewrite Hc1 in Hc2.
  assert (render_returns 0 busy
          = processSeekQueue
              (set_isRendering false
                 {| gifLoaded := gifLoaded busy; canvasReady := canvasReady busy;
                    currentFrameIdx := currentFrameIdx busy; isPlaying := isPlaying busy;
                    playRange := playRange busy; isRendering := isRendering busy;
                    nextSeekFrame := nextSeekFrame busy; running := [] |})) as Hret.
  { unfold render_returns. by rewrite Hrun2. }
  rewrite Hret. unfold processSeekQueue, performRender. simpl.
  rewrite Hn3, Hg2, Hc2. split_and!; try done.
  all: by destruct (last bs).
Qed.

(** X22. A render that throws strands the queue.  From an idle, loaded
    editor, when the render of a seek throws while later seeks wait, the
    flag is cleared but the queue is not looked at again: the last of
    the waiting seeks stays queued with nothing running, a playback tick
    does not start it, and the next manual seek replaces it, so that it
    is never rendered. *)
Theorem thrown_render_strands_queued_seek (a b c : Z) (bs : list Z) (s : Sequencer) :
  gifLoaded s = true → canvasReady s = true →
  isRendering s = false → nextSeekFrame s = None → running s = [] →
  let stranded := render_throws 0 (run_events (Seek a :: (Seek <$> (bs ++ [b]))) s) in
  running stranded = []
  ∧ isRendering stranded = false
  ∧ nextSeekFrame stranded = Some b
  ∧ nextSeekFrame (playback_advance stranded) = Some b
  ∧ running (handleSeek c stranded) = [ {| via_queue := true; target := c |} ]
  ∧ nextSeekFrame (handleSeek c stranded) = None.
Proof.
  intros Hg Hc Hr Hnext Hrun. simpl.
  change (foldl (λ s0 e, react e s0) (react (Seek a) s) (Seek <$> (bs ++ [b])))
    with (run_events (Seek <$> (bs ++ [b])) (handleSeek a s)).
  assert (isRendering (handleSeek a s) = true
          ∧ running (handleSeek a s) = [ {| via_queue := true; target := a |} ]
          ∧ gifLoaded (handleSeek a s) = true ∧ canvasReady (handleSeek a s) = true)
    as (Hr1 & Hrun1 & Hg1 & Hc1).
  { unfold handleSeek, processSeekQueue, performRender. simpl.
    rewrite Hr. simpl. rewrite Hg, Hc. simpl. by rewrite Hrun. }
  destruct (seeks_while_rendering (bs ++ [b]) (handleSeek a s) Hr1)
    as (Hr2 & Hrun2 & Hg2 & Hc2 & Hnext2 & Hcur2).
  set (busy := run_events (Seek <$> (bs ++ [b])) (handleSeek a s)) in *.
  rewrite last_snoc in Hnext2. simpl in Hnext2.
  assert (render_throws 0 busy
          = set_isRendering false
              {| gifLoaded := gifLoaded busy; canvasReady := canvasReady busy;
                 currentFrameIdx := currentFrameIdx busy; isPlaying := isPlaying busy;
                 playRange := playRange busy;
                 isRendering := isRendering busy; nextSeekFrame := nextSeekFrame busy;
                 running := [] |}) as ->.
  { unfold render_throws. by rewrite Hrun2, Hrun1. }
  unfold handleSeek, processSeekQueue, performRender, playback_advance. simpl.
  rewrite Hg2, Hc2, Hg1, Hc1. simpl.
  split_and!; try done.
  destruct (isPlaying busy); simpl; by rewrite ?Hc2, ?Hc1.
Qed.

(** X14. A playback tick that advances the frame moves from a frame of
    the trim range to the next one and from the end of the range back to
    its start; it never leaves the range, and the render it starts has
    the new frame as its target. *)
Theorem playback_stays_in_trim_range (s : Sequencer) :
  isPlaying s = true → gifLoaded s = true → canvasReady s = true →
  fst (playRange s) ≤ currentFrameIdx s ≤ snd (playRange s) →
  let s' := playback_advance s in
  fst (playRange s) ≤ currentFrameIdx s' ≤ snd (playRange s)
  ∧ currentFrameIdx s'
    = (if currentFrameIdx s =? snd (playRange s) then fst (playRange s)
       else currentFrameIdx s + 1)
  ∧ running s' = running s ++ [ {| via_queue := false; target := currentFrameIdx s' |} ]
  ∧ playRange s' = playRange s ∧ isPlaying s' = true.
Proof.
  intros Hp Hg Hc Hrange. unfold playback_advance. rewrite Hp, Hg, Hc. simpl.
  destruct (Z.ltb_spec (snd (playRange s)) (currentFrameIdx s + 1)),
    (Z.eqb_spec (currentFrameIdx s) (snd (playRange s))); split_and!; try done; lia.
Qed.

(** X15. The time [loop] carries over is bounded: for a non-negative
    interval the accumulator after a callback never exceeds five
    intervals, it is not negative after a callback that advances the
    frame, and it is below one interval after one that does not. *)
Theorem playback_catch_up_is_bounded (interval : Z) (currentTime : Q) (c : Clock) :
  0 ≤ interval →
  let r := loop_clock interval currentTime c in
  (accumulator (snd r) <= inject_Z interval * 5)%Q
  ∧ (fst r = true → (0 <= accumulator (snd r))%Q)
  ∧ (fst r = false → (accumulator (snd r) < inject_Z interval)%Q)
  ∧ lastTime (snd r) = currentTime.
Proof.
  intros Hint. unfold loop_clock. simpl.
  set (acc := (accumulator c + (currentTime - lastTime c))%Q).
  assert (0 <= inject_Z interval)%Q as Hi.
  { change 0%Q with (inject_Z 0). by rewrite <- Zle_Qle. }
  set (i := inject_Z interval) in *.
  destruct (Qle_bool i acc) eqn:Hadv; simpl.
  - apply Qle_bool_iff in Hadv.
    destruct (Qle_bool (acc - i) (i * 5)) eqn:Hcap; simpl.
    + apply Qle_bool_iff in Hcap. split_and!; try done. intros _. lra.
    + split_and!; try done. lra.
  - assert (¬ (i <= acc)%Q) as Hlt.
    { intros Hle. apply Qle_bool_iff in Hle. by rewrite Hle in Hadv. }
    apply Qnot_le_lt in Hlt. split_and!; try done. lra.
Qed.

(** * Properties of the editing handlers *)

Lemma trim_range_ok_spec (n : nat) (r : Z * Z) :
  trim_range_ok n r = true ↔ 0 ≤ fst r ∧ fst r ≤ snd r ∧ snd r < Z.of_nat n.
Proof.
  unfold trim_range_ok. rewrite !andb_true_iff, !Z.leb_le, Z.ltb_lt. tauto.
Qed.

Module UiFacts.
Import Ui.

Lemma handleSeek_ok (n : nat) (i : Z) (p : Sequencer) :
  player_ok n p → in_frames n i → player_ok n (handleSeek i p).
Proof.
  intros (Hg & Htrim & Hcur & Hnext & Hrun) Hi.
  unfold handleSeek, processSeekQueue, performRender. simpl.
  destruct (isRendering p); simpl.
  - split_and!; try done. by intros t [= <-].
  - rewrite Hg. simpl. destruct (canvasReady p); simpl.
    + split_and!; try done. apply Forall_app. split; [done|]. by apply Forall_singleton.
    + split_and!; try done.
Qed.

Lemma playback_advance_ok (n : nat) (p : Sequencer) :
  player_ok n p → player_ok n (playback_advance p).
Proof.
  intros (Hg & Htrim & Hcur & Hnext & Hrun).
  pose proof (proj1 (trim_range_ok_spec _ _) Htrim) as (H0 & Hse & He).
  unfold playback_advance. rewrite Hg.
  destruct (isPlaying p); simpl; [|done].
  assert (in_frames n (if snd (playRange p) <? currentFrameIdx p + 1
                       then fst (playRange p) else currentFrameIdx p + 1)) as Htgt.
  { unfold in_frames in *. destruct (Z.ltb_spec (snd (playRange p)) (currentFrameIdx p + 1)); lia. }
  destruct (canvasReady p); simpl; split_and!; try done.
  apply Forall_app. split; [done|]. by apply Forall_singleton.
Qed.

Lemma render_returns_ok (n : nat) (k : nat) (p : Sequencer) :
  player_ok n p → player_ok n (render_returns k p).
Proof.
  intros (Hg & Htrim & Hcur & Hnext & Hrun).
  unfold render_returns. destruct (running p !! k) as [a|] eqn:Ha; [|done].
  assert (Forall (λ a, in_frames n (target a)) (delete k (running p))) as Hdel.
  { by apply Forall_delete. }
  destruct (via_queue a); [|done].
  unfold processSeekQueue, performRender. simpl.
  destruct (nextSeekFrame p) as [t|] eqn:Ht; simpl; [|done].
  rewrite Hg. simpl. destruct (canvasReady p); simpl; split_and!; try done.
  apply Forall_app. split; [done|]. apply Forall_singleton. simpl. by apply Hnext.
Qed.

Lemma render_throws_ok (n : nat) (k : nat) (p : Sequencer) :
  player_ok n p → player_ok n (render_throws k p).
Proof.
  intros (Hg & Htrim & Hcur & Hnext & Hrun).
  unfold render_throws. destruct (running p !! k) as [a|] eqn:Ha; [|done].
  assert (Forall (λ a, in_frames n (target a)) (delete k (running p))) as Hdel.
  { by apply Forall_delete. }
  by destruct (via_queue a).
Qed.

Lemma set_player_wf (p : Sequencer) (s : State) :
  well_formed s → player_ok (frameCount s) p → well_formed (set_player p s).
Proof. intros (_ & Hh & Hl) Hp. by split_and!. Qed.

Lemma seek_wf (i : Z) (s : State) :
  well_formed s → in_frames (frameCount s) i → well_formed (seek i s).
Proof.
  intros Hwf Hi. apply set_player_wf; [done|].
  apply handleSeek_ok; [apply Hwf|done].
Qed.

Lemma setTrimRange_wf (r : Z * Z) (s : State) :
  well_formed s → trim_range_ok (frameCount s) r = true → well_formed (setTrimRange r s).
Proof.
  intros ((Hg & Htrim & Hcur & Hnext & Hrun) & Hh & Hl) Hr.
  unfold well_formed, player_ok. simpl. by split_and!.
Qed.

Lemma pushHistory_wf (e : EditorSnapshot) (s : State) :
  well_formed s → trim_range_ok (frameCount s) (snap_trimRange e) = true →
  well_formed (pushHistory e s).
Proof.
  intros (Hp & Hh & Hl) He. split_and!; try done. simpl.
  rewrite app_nil_r. apply Forall_app in Hh as [Hpast _].
  apply Forall_app. split; [done|]. by apply Forall_singleton.
Qed.

Lemma set_crops_wf tool c cc ac (s : State) :
  well_formed s → well_formed (set_crops tool c cc ac s).
Proof. done. Qed.

Lemma set_drag_wf d i ph (s : State) : well_formed s → well_formed (set_drag d i ph s).
Proof. done. Qed.

Lemma set_lastCommittedTrim_wf (r : Z * Z) (s : State) :
  well_formed s → trim_range_ok (frameCount s) r = true →
  well_formed (set_lastCommittedTrim (Some r) s).
Proof. intros (Hp & Hh & Hl) Hr. split_and!; try done. by intros r' [= <-]. Qed.

Lemma getSnapshot_ok (s : State) :
  well_formed s → trim_range_ok (frameCount s) (snap_trimRange (getSnapshot s)) = true.
Proof. intros ((_ & Htrim & _) & _). done. Qed.

Lemma restore_snapshot_wf (e : EditorSnapshot) (s : State) :
  well_formed s → trim_range_ok (frameCount s) (snap_trimRange e) = true →
  well_formed (restore_snapshot e s).
Proof.
  intros Hwf He. unfold restore_snapshot.
  apply set_lastCommittedTrim_wf; [|done].
  apply set_crops_wf. by apply setTrimRange_wf.
Qed.

Lemma last_removelast {A} (l : list A) (x : A) :
  last l = Some x → l = removelast l ++ [x].
Proof.
  intros Hl. destruct l as [|a l] using rev_ind; [done|].
  rewrite last_snoc in Hl. injection Hl as ->. by rewrite removelast_last.
Qed.

Lemma handleUndo_wf (s : State) : well_formed s → well_formed (handleUndo s).
Proof.
  intros Hwf. unfold handleUndo.
  destruct (last (past s)) as [previous|] eqn:Hlast; [|done].
  pose proof Hwf as (Hp & Hh & Hl).
  apply last_removelast in Hlast. rewrite Hlast in Hh.
  rewrite !Forall_app, Forall_singleton in Hh. destruct Hh as [[Hpast Hprev] Hfut].
  apply restore_snapshot_wf; [|done].
  split_and!; try done. simpl. rewrite !Forall_app, Forall_singleton.
  split_and!; try done. by apply getSnapshot_ok.
Qed.

Lemma handleRedo_wf (s : State) : well_formed s → well_formed (handleRedo s).
Proof.
  intros Hwf. unfold handleRedo.
  destruct (last (future s)) as [next|] eqn:Hlast; [|done].
  pose proof Hwf as (Hp & Hh & Hl).
  apply last_removelast in Hlast. rewrite Hlast in Hh.
  rewrite !Forall_app, Forall_singleton in Hh. destruct Hh as [Hpast [Hfut Hnext]].
  apply restore_snapshot_wf; [|done].
  split_and!; try done. simpl. rewrite !Forall_app, Forall_singleton.
  split_and!; try done. by apply getSnapshot_ok.
Qed.

Lemma setTrimStart_wf (s : State) : well_formed s → well_formed (setTrimStart s).
Proof.
  intros Hwf. unfold setTrimStart.
  destruct (Z.leb_spec (snd (trimRange s)) (currentFrameIdx (player s))); [done|].
  pose proof Hwf as ((_ & Htrim & Hcur & _) & _).
  apply trim_range_ok_spec in Htrim. unfold in_frames in Hcur.
  assert (trim_range_ok (frameCount s)
            (currentFrameIdx (player s), snd (trimRange s)) = true) as Hnew.
  { apply trim_range_ok_spec. simpl. unfold trimRange in *. lia. }
  apply set_lastCommittedTrim_wf; [|done].
  apply setTrimRange_wf; [|done].
  apply pushHistory_wf; [done|]. by apply getSnapshot_ok.
Qed.

Lemma setTrimEnd_wf (s : State) : well_formed s → well_formed (setTrimEnd s).
Proof.
  intros Hwf. unfold setTrimEnd.
  destruct (Z.leb_spec (currentFrameIdx (player s)) (fst (trimRange s))); [done|].
  pose proof Hwf as ((_ & Htrim & Hcur & _) & _).
  apply trim_range_ok_spec in Htrim. unfold in_frames in Hcur.
  assert (trim_range_ok (frameCount s)
            (fst (trimRange s), currentFrameIdx (player s)) = true) as Hnew.
  { apply trim_range_ok_spec. simpl. unfold trimRange in *. lia. }
  apply set_lastCommittedTrim_wf; [|done].
  apply setTrimRange_wf; [|done].
  apply pushHistory_wf; [done|]. by apply getSnapshot_ok.
Qed.

Lemma onTrimChange_wf (r : Z * Z) (s : State) :
  well_formed s → trim_range_ok (frameCount s) r = true → well_formed (onTrimChange r s).
Proof.
  intros Hwf Hr. unfold onTrimChange.
  pose proof (setTrimRange_wf r s Hwf Hr) as Hwf1.
  apply trim_range_ok_spec in Hr.
  destruct (negb _); [apply seek_wf; [done|unfold in_frames; simpl; lia]|].
  destruct (negb _); [apply seek_wf; [done|unfold in_frames; simpl; lia]|]. done.
Qed.

Lemma onTrimCommit_wf (r : Z * Z) (s : State) :
  well_formed s → trim_range_ok (frameCount s) r = true → well_formed (onTrimCommit r s).
Proof.
  intros Hwf Hr. unfold onTrimCommit.
  destruct (match lastCommittedTrim s with None => true | Some l => _ end); [|done].
  apply setTrimRange_wf; [|done]. apply set_lastCommittedTrim_wf; [|done].
  apply pushHistory_wf; [done|]. simpl.
  destruct (lastCommittedTrim s) as [l|] eqn:Hl; simpl.
  - by apply Hwf.
  - by apply getSnapshot_ok.
Qed.

Lemma clamp_index_in_frames (n : nat) (i : Z) :
  (0 < n)%nat → in_frames n (clamp_index n i).
Proof. unfold in_frames, clamp_index. lia. Qed.

Lemma well_formed_nonempty (s : State) : well_formed s → (0 < frameCount s)%nat.
Proof. intros ((_ & Htrim & _) & _). apply trim_range_ok_spec in Htrim. lia. Qed.

Lemma updateTrim_wf (index deltaFrames : Z) (s : State) :
  well_formed s → well_formed (updateTrim index deltaFrames s).
Proof.
  intros Hwf. unfold updateTrim.
  pose proof (well_formed_nonempty s Hwf) as Hn.
  pose proof (clamp_index_in_frames (frameCount s) index Hn) as Hi.
  pose proof Hwf as ((_ & Htrim & _) & _).
  apply trim_range_ok_spec in Htrim. unfold in_frames in Hi. fold (trimRange s) in Htrim.
  destruct (isDragging s) as [[| |]|]; [| | |done].
  - destruct (Z.ltb_spec (clamp_index (frameCount s) index) (snd (trimRange s))); [|done].
    apply onTrimChange_wf; [done|]. apply trim_range_ok_spec. simpl. lia.
  - destruct (Z.ltb_spec (fst (trimRange s)) (clamp_index (frameCount s) index)); [|done].
    apply onTrimChange_wf; [done|]. apply trim_range_ok_spec. simpl. lia.
  - apply onTrimChange_wf; [done|]. apply trim_range_ok_spec. simpl. lia.
Qed.

Lemma handleKeyDown_wf (e : KeyboardEvent) (s : State) :
  well_formed s → well_formed (handleKeyDown e s).
Proof.
  intros Hwf. unfold handleKeyDown.
  pose proof (well_formed_nonempty s Hwf) as Hn.
  pose proof Hwf as ((_ & _ & Hcur & _) & _). unfold in_frames in Hcur.
  repeat (match goal with
          | |- well_formed (if ?b then _ else _) => destruct b
          end);
    auto using handleUndo_wf, handleRedo_wf, setTrimStart_wf, setTrimEnd_wf.
  - unfold apply_crop. destruct (completedCrop s) as [c|]; [|done].
    destruct (_ && _); [|done]. apply set_crops_wf.
    apply pushHistory_wf; [done|]. by apply getSnapshot_ok.
  - apply seek_wf; [done|]. unfold in_frames. lia.
  - apply seek_wf; [done|]. unfold in_frames. lia.
Qed.

Lemma step_wf (ev : UiEvent) (s : State) : well_formed s → well_formed (step ev s).
Proof.
  intros Hwf. destruct ev; simpl.
  - by apply handleKeyDown_wf.
  - destruct (Nat.ltb_spec index (frameCount s)); [|done].
    apply seek_wf; [done|]. unfold in_frames. lia.
  - by apply handleUndo_wf.
  - by apply handleRedo_wf.
  - apply set_player_wf; [done|]. apply Hwf.
  - by apply setTrimStart_wf.
  - by apply setTrimEnd_wf.
  - unfold onToolSelect. destruct cropTool; by apply set_crops_wf.
  - by apply set_crops_wf.
  - by apply set_crops_wf.
  - by apply set_drag_wf.
  - by apply set_drag_wf.
  - apply updateTrim_wf. unfold playheadMove.
    destruct (playheadDragging s); [|done].
    apply seek_wf; [done|]. apply clamp_index_in_frames. by apply well_formed_nonempty.
  - unfold handleMouseUp. simpl. destruct (isDragging s); [|by apply set_drag_wf].
    apply onTrimCommit_wf; [by apply set_drag_wf|].
    destruct Hwf as ((_ & Htrim & _) & _). exact Htrim.
  - apply set_player_wf; [done|]. apply playback_advance_ok, Hwf.
  - apply set_player_wf; [done|]. apply render_returns_ok, Hwf.
  - apply set_player_wf; [done|]. apply render_throws_ok, Hwf.
Qed.

Lemma step_frameCount (ev : UiEvent) (s : State) : frameCount (step ev s) = frameCount s.
Proof.
  destruct ev; simpl; try done;
    unfold handleKeyDown, handleUndo, handleRedo, apply_crop, setTrimStart, setTrimEnd,
      onToolSelect, updateTrim, playheadMove, onTrimChange, handleMouseUp, onTrimCommit;
    simpl; repeat case_match; done.
Qed.

(** X16. No sequence of user events (keys, clicks, handle and playhead
    drags, undo and redo), playback ticks and finished or failed renders
    takes the editor outside the frames: the trim range stays a valid range, and
    the current frame, the queued frame and the target of every render
    that was started stay inside [0, frameCount - 1]; so do the ranges
    kept for undo, redo and commit. *)
Theorem editor_stays_inside_frames (evs : list UiEvent) (s : State) :
  well_formed s →
  well_formed (run evs s) ∧ frameCount (run evs s) = frameCount s.
Proof.
  unfold run. revert s. induction evs as [|ev evs IH]; intros s Hwf; simpl; [done|].
  destruct (IH (step ev s)) as [Hwf' Hn]; [by apply step_wf|].
  split; [done|]. by rewrite Hn, step_frameCount.
Qed.


Lemma handleSeek_playRange (i : Z) (p : Sequencer) :
  playRange (handleSeek i p) = playRange p.
Proof.
  unfold handleSeek, processSeekQueue, performRender. simpl.
  destruct (isRendering p); [done|]. simpl. by destruct (gifLoaded p && canvasReady p).
Qed.

Lemma onTrimChange_fields (r : Z * Z) (s : State) :
  trimRange (onTrimChange r s) = r
  ∧ past (onTrimChange r s) = past s ∧ future (onTrimChange r s) = future s
  ∧ lastCommittedTrim (onTrimChange r s) = lastCommittedTrim s
  ∧ appliedCrop (onTrimChange r s) = appliedCrop s
  ∧ isDragging (onTrimChange r s) = isDragging s
  ∧ dragStartIndex (onTrimChange r s) = dragStartIndex s.
Proof.
  unfold onTrimChange, seek, trimRange.
  destruct (negb _); simpl; [by rewrite handleSeek_playRange|].
  destruct (negb _); simpl; [by rewrite handleSeek_playRange|]. done.
Qed.

(** X17. Undo and redo are inverse to each other on what the history
    tracks: redo followed by undo, and undo followed by redo, give back
    the trim range, the applied crop and both stacks.  (The crop
    selection is reset to the applied crop on the way.) *)
Theorem undo_redo_round_trip (s : State) :
  (is_Some (last (future s)) →
   trimRange (handleUndo (handleRedo s)) = trimRange s
   ∧ appliedCrop (handleUndo (handleRedo s)) = appliedCrop s
   ∧ past (handleUndo (handleRedo s)) = past s
   ∧ future (handleUndo (handleRedo s)) = future s)
  ∧ (is_Some (last (past s)) →
     trimRange (handleRedo (handleUndo s)) = trimRange s
     ∧ appliedCrop (handleRedo (handleUndo s)) = appliedCrop s
     ∧ past (handleRedo (handleUndo s)) = past s
     ∧ future (handleRedo (handleUndo s)) = future s).
Proof.
  split.
  - intros [next Hnext]. unfold handleRedo. rewrite Hnext.
    unfold handleUndo. simpl. rewrite last_snoc. simpl.
    rewrite removelast_last. split_and!; try done.
    apply last_removelast in Hnext. rewrite Hnext at 2. f_equal. by destruct next.
  - intros [previous Hprev]. unfold handleUndo. rewrite Hprev.
    unfold handleRedo. simpl. rewrite last_snoc. simpl.
    rewrite removelast_last. split_and!; try done.
    apply last_removelast in Hprev. rewrite Hprev at 2. f_equal. by destruct previous.
Qed.

(** X18. An edit and its undo.  Setting the trim start or end at the
    current frame, and applying a crop, each add one undo step and empty
    the redo stack; undoing it restores the trim range, the applied crop
    and the undo stack as they were before the edit. *)
Theorem undo_reverts_edit (s : State) :
  (currentFrameIdx (player s) < snd (trimRange s) →
   trimRange (setTrimStart s) = (currentFrameIdx (player s), snd (trimRange s))
   ∧ future (setTrimStart s) = []
   ∧ trimRange (handleUndo (setTrimStart s)) = trimRange s
   ∧ appliedCrop (handleUndo (setTrimStart s)) = appliedCrop s
   ∧ past (handleUndo (setTrimStart s)) = past s)
  ∧ (fst (trimRange s) < currentFrameIdx (player s) →
     trimRange (setTrimEnd s) = (fst (trimRange s), currentFrameIdx (player s))
     ∧ future (setTrimEnd s) = []
     ∧ trimRange (handleUndo (setTrimEnd s)) = trimRange s
     ∧ appliedCrop (handleUndo (setTrimEnd s)) = appliedCrop s
     ∧ past (handleUndo (setTrimEnd s)) = past s)
  ∧ (∀ c, completedCrop s = Some c →
          truthy (crop_width c) && truthy (crop_height c) = true →
          appliedCrop (apply_crop s) = Some c
          ∧ future (apply_crop s) = []
          ∧ trimRange (handleUndo (apply_crop s)) = trimRange s
          ∧ appliedCrop (handleUndo (apply_crop s)) = appliedCrop s
          ∧ past (handleUndo (apply_crop s)) = past s).
Proof.
  split_and!.
  - intros Hcur. unfold setTrimStart.
    destruct (Z.leb_spec (snd (trimRange s)) (currentFrameIdx (player s))); [lia|].
    unfold handleUndo. simpl. rewrite last_snoc. simpl.
    by rewrite removelast_last.
  - intros Hcur. unfold setTrimEnd.
    destruct (Z.leb_spec (currentFrameIdx (player s)) (fst (trimRange s))); [lia|].
    unfold handleUndo. simpl. rewrite last_snoc. simpl.
    by rewrite removelast_last.
  - intros c Hc Htruthy. unfold apply_crop. rewrite Hc, Htruthy.
    unfold handleUndo. simpl. rewrite last_snoc. simpl.
    by rewrite removelast_last.
Qed.

(** X19. The trim handles never cross.  Setting the start or the end at
    the current frame, and dragging a handle, either leave the trim range
    as it is or give a range with start < end in which the other handle
    has not moved; dragging the range as a whole keeps its length. *)
Theorem trim_handles_never_cross (index deltaFrames : Z) (s : State) :
  (trimRange (setTrimStart s) = trimRange s
   ∨ (fst (trimRange (setTrimStart s)) < snd (trimRange (setTrimStart s))
      ∧ snd (trimRange (setTrimStart s)) = snd (trimRange s)))
  ∧ (trimRange (setTrimEnd s) = trimRange s
     ∨ (fst (trimRange (setTrimEnd s)) < snd (trimRange (setTrimEnd s))
        ∧ fst (trimRange (setTrimEnd s)) = fst (trimRange s)))
  ∧ (isDragging s = Some DragStart →
     trimRange (updateTrim index deltaFrames s) = trimRange s
     ∨ (fst (trimRange (updateTrim index deltaFrames s))
        < snd (trimRange (updateTrim index deltaFrames s))
        ∧ snd (trimRange (updateTrim index deltaFrames s)) = snd (trimRange s)
        ∧ 0 ≤ fst (trimRange (updateTrim index deltaFrames s))))
  ∧ (isDragging s = Some DragEnd →
     trimRange (updateTrim index deltaFrames s) = trimRange s
     ∨ (fst (trimRange (updateTrim index deltaFrames s))
        < snd (trimRange (updateTrim index deltaFrames s))
        ∧ fst (trimRange (updateTrim index deltaFrames s)) = fst (trimRange s)
        ∧ snd (trimRange (updateTrim index deltaFrames s))
          ≤ Z.max 0 (Z.of_nat (frameCount s) - 1)))
  ∧ (isDragging s = Some DragRange →
     snd (trimRange (updateTrim index deltaFrames s))
     - fst (trimRange (updateTrim index deltaFrames s))
     = snd (trimRange s) - fst (trimRange s)
     ∧ 0 ≤ fst (trimRange (updateTrim index deltaFrames s))).
Proof.
  split_and!.
  - unfold setTrimStart.
    destruct (Z.leb_spec (snd (trimRange s)) (currentFrameIdx (player s))); [by left|].
    right. simpl. done.
  - unfold setTrimEnd.
    destruct (Z.leb_spec (currentFrameIdx (player s)) (fst (trimRange s))); [by left|].
    right. simpl. done.
  - intros Hd. unfold updateTrim. rewrite Hd.
    destruct (Z.ltb_spec (clamp_index (frameCount s) index) (snd (trimRange s)));
      [|by left].
    right. rewrite (proj1 (onTrimChange_fields _ _)). simpl.
    unfold clamp_index in *. split_and!; [done|done|lia].
  - intros Hd. unfold updateTrim. rewrite Hd.
    destruct (Z.ltb_spec (fst (trimRange s)) (clamp_index (frameCount s) index));
      [|by left].
    right. rewrite (proj1 (onTrimChange_fields _ _)). simpl.
    unfold clamp_index in *. split_and!; [done|done|lia].
  - intros Hd. unfold updateTrim. rewrite Hd.
    rewrite (proj1 (onTrimChange_fields _ _)). simpl. lia.
Qed.

Lemma updateTrim_fields (index deltaFrames : Z) (s : State) :
  past (updateTrim index deltaFrames s) = past s
  ∧ future (updateTrim index deltaFrames s) = future s
  ∧ lastCommittedTrim (updateTrim index deltaFrames s) = lastCommittedTrim s
  ∧ appliedCrop (updateTrim index deltaFrames s) = appliedCrop s
  ∧ isDragging (updateTrim index deltaFrames s) = isDragging s
  ∧ dragStartIndex (updateTrim index deltaFrames s) = dragStartIndex s.
Proof.
  unfold updateTrim.
  destruct (isDragging s) as [[]|] eqn:Hd; repeat case_match;
    try (by rewrite Hd);
    match goal with
    | |- context [onTrimChange ?r ?x] =>
        destruct (onTrimChange_fields r x) as (_ & -> & -> & -> & -> & -> & ->)
    end; by rewrite Hd.
Qed.

Lemma playheadMove_fields (index : Z) (s : State) :
  trimRange (playheadMove index s) = trimRange s
  ∧ past (playheadMove index s) = past s
  ∧ future (playheadMove index s) = future s
  ∧ lastCommittedTrim (playheadMove index s) = lastCommittedTrim s
  ∧ appliedCrop (playheadMove index s) = appliedCrop s
  ∧ isDragging (playheadMove index s) = isDragging s
  ∧ dragStartIndex (playheadMove index s) = dragStartIndex s.
Proof.
  unfold playheadMove, seek, trimRange. destruct (playheadDragging s); simpl; [|done].
  by rewrite handleSeek_playRange.
Qed.

Lemma trim_moves_keep_history (moves : list (Z * Z * Z)) (s : State) :
  let s' := run ((λ m, MouseMove (fst (fst m)) (snd (fst m)) (snd m)) <$> moves) s in
  isDragging s' = isDragging s
  ∧ past s' = past s ∧ future s' = future s
  ∧ lastCommittedTrim s' = lastCommittedTrim s
  ∧ appliedCrop s' = appliedCrop s.
Proof.
  revert s. induction moves as [|m moves IH]; intros s; [done|].
  pose proof (IH (updateTrim (snd (fst m)) (snd m) (playheadMove (fst (fst m)) s)))
    as (Hk2 & Hp2 & Hf2 & Hl2 & Ha2).
  change (run (_ <$> m :: moves) s)
    with (run ((λ m, MouseMove (fst (fst m)) (snd (fst m)) (snd m)) <$> moves)
              (updateTrim (snd (fst m)) (snd m) (playheadMove (fst (fst m)) s))).
  cbv zeta. rewrite Hk2, Hp2, Hf2, Hl2, Ha2.
  destruct (updateTrim_fields (snd (fst m)) (snd m) (playheadMove (fst (fst m)) s))
    as (-> & -> & -> & -> & -> & _).
  by destruct (playheadMove_fields (fst (fst m)) s) as (_ & -> & -> & -> & -> & -> & _).
Qed.

(** X20. One drag is one undo step.  From a state outside a drag whose
    committed range is the trim range, a whole drag of a trim handle or
    of the range (mouse down, any number of mouse moves, mouse up) adds
    no history entry when it ends on the range it began with; otherwise
    it adds exactly one entry, the range and crop from before the drag,
    empties the redo stack, and one undo brings the trim range back. *)
Theorem one_drag_one_undo_step (kind : DragKind) (moves : list (Z * Z * Z)) (s : State) :
  lastCommittedTrim s = Some (trimRange s) →
  let s' := run (HandleDown kind
                   :: ((λ m, MouseMove (fst (fst m)) (snd (fst m)) (snd m)) <$> moves)
                   ++ [MouseUp]) s in
  isDragging s' = None
  ∧ lastCommittedTrim s' = Some (trimRange s')
  ∧ (trimRange s' = trimRange s → past s' = past s ∧ future s' = future s)
  ∧ (trimRange s' ≠ trimRange s →
     past s' = past s ++ [getSnapshot s] ∧ future s' = []
     ∧ trimRange (handleUndo s') = trimRange s
     ∧ past (handleUndo s') = past s).
Proof.
  intros Hcommitted. unfold run. simpl. rewrite foldl_app. simpl.
  set (s0 := handleMouseDown kind s).
  pose proof (trim_moves_keep_history moves s0) as Hmoves. unfold run in Hmoves.
  simpl in Hmoves.
  set (s1 := foldl _ s0 _) in *.
  destruct Hmoves as (Hk & Hp & Hf & Hl & Ha).
  assert (isDragging s1 = Some kind) as Hk1 by (by rewrite Hk).
  assert (lastCommittedTrim s1 = Some (trimRange s)) as Hl1 by (by rewrite Hl).
  assert (past s1 = past s) as Hp1 by (by rewrite Hp).
  assert (future s1 = future s) as Hf1 by (by rewrite Hf).
  assert (appliedCrop s1 = appliedCrop s) as Ha1 by (by rewrite Ha).
  clearbody s1. clear Hk Hp Hf Hl Ha s0.
  unfold handleMouseUp. simpl. rewrite Hk1. unfold onTrimCommit. simpl. rewrite Hl1.
  unfold handleUndo, getSnapshot, trimRange in *. simpl.
  destruct (playRange (player s1)) as [a b] eqn:Hr1,
           (playRange (player s)) as [a0 b0] eqn:Hr0. simpl.
  destruct (Z.eqb_spec a0 a) as [->|Ha0]; simpl.
  - destruct (Z.eqb_spec b0 b) as [->|Hb0]; simpl.
    + rewrite Hr1, Hl1, Hp1, Hf1. by split_and!.
    + rewrite Hp1, Ha1, last_snoc. simpl. rewrite removelast_last.
      split_and!; try done. intros [=]. done.
  - rewrite Hp1, Ha1, last_snoc. simpl. rewrite removelast_last.
    split_and!; try done. intros [=]. done.
Qed.

End UiFacts.

(** * [generateThumbnails] and [generateCompositedFrames] *)

Section ThumbnailExtras.
Context {pixel : Type}.
Variable transparent : pixel.
Variable over : pixel → pixel → pixel.
Variable drawImageScaled :
  list (list pixel) → nat → nat → list (list pixel) → list (list pixel).

Lemma thumb_body_related (fs : list (ParsedFrame pixel)) ow oh w h k stg stt :
  (∀ src dest, has_size w h dest → has_size w h (drawImageScaled src w h dest)) →
  (0 < ow)%nat → (0 < oh)%nat → (0 < w)%nat → (0 < h)%nat →
  thumb_related transparent drawImageScaled w h k stg stt →
  related (thumb_related transparent drawImageScaled w h (S k))
          (composited_body transparent over fs ow oh (Z.of_nat k) stg)
          (thumb_body transparent over drawImageScaled fs ow oh w h (Z.of_nat k) stt).
Proof.
  intros Hkeeps How Hoh Hw Hh (Hcv & Hprev & Hthumb & Hout).
  unfold composited_body, thumb_body. rewrite js_index_of_nat.
  destruct (fs !! k) as [f|] eqn:Hf; [|done].
  rewrite <- Hcv, <- Hprev.
  destruct (patch_image f) as [img|] eqn:Himg.
  2:{ by destruct (disposal_handling _ _ _ _ _). }
  destruct (disposal_handling _ _ _ _ _) as [ctx1|]; [|done].
  destruct (Nat.eqb_spec ow 0); [lia|]. destruct (Nat.eqb_spec oh 0); [lia|].
  destruct (Nat.eqb_spec w 0); [lia|]. destruct (Nat.eqb_spec h 0); [lia|].
  simpl. unfold thumb_related. simpl.
  rewrite (clearRect_full transparent _ _ _ Hthumb). split_and!.
  - done.
  - done.
  - apply Hkeeps, has_size_createCanvas.
  - by rewrite Hout, fmap_app.
Qed.

(** No turn of the loop completes for a thumbnail canvas without
    pixels. *)
Lemma thumb_body_empty_canvas (fs : list (ParsedFrame pixel)) ow oh w h i st :
  w = 0%nat ∨ h = 0%nat →
  ∃ st', thumb_body transparent over drawImageScaled fs ow oh w h i st = Abrupt st'.
Proof.
  intros Hempty. unfold thumb_body.
  destruct (js_index fs i); [|by eexists].
  destruct (disposal_handling _ _ _ _ _); [|by eexists].
  destruct (patch_image _); [|by eexists].
  destruct ((ow =? 0) || (oh =? 0))%nat; [by eexists|].
  assert (((w =? 0) || (h =? 0))%nat = true) as ->; [|by eexists].
  destruct Hempty as [-> | ->]; simpl; [done|]. apply orb_true_r.
Qed.

(** X21. The thumbnails are the composited frames, scaled.  On an
    animation canvas of at least one pixel, and as long as drawing does
    not resize the thumbnail canvas: for a thumbnail canvas of at least
    one pixel [generateThumbnails] fails exactly when
    [generateCompositedFrames] fails, and otherwise its [i]-th thumbnail
    is the [i]-th composited frame drawn scaled on an empty thumbnail
    canvas, so that nothing of an earlier thumbnail shows; for a
    thumbnail canvas of width or height 0 it fails as soon as there is a
    frame, also where [generateCompositedFrames] succeeds. *)
Theorem thumbnails_are_scaled_composites (g : @GifData pixel) (w h : nat) :
  (∀ src dest, has_size w h dest → has_size w h (drawImageScaled src w h dest)) →
  (0 < gwidth g)%nat → (0 < gheight g)%nat →
  ((0 < w)%nat → (0 < h)%nat →
   generateThumbnails transparent over drawImageScaled g w h
   = fmap (M := list) (λ c, drawImageScaled c w h (createCanvas transparent w h))
       <$> generateCompositedFrames transparent over g)
  ∧ (w = 0%nat ∨ h = 0%nat → frames g ≠ [] →
     generateThumbnails transparent over drawImageScaled g w h = None).
Proof.
  intros Hkeeps Hgw Hgh. split.
  - intros Hw Hh. unfold generateThumbnails, generateCompositedFrames.
    pose proof (for_loop_related (thumb_related transparent drawImageScaled w h) _ _
      (λ k stg stt, thumb_body_related (frames g) (gwidth g) (gheight g) w h k stg stt
                      Hkeeps Hgw Hgh Hw Hh)
      (length (frames g)) 0
      {| tempCanvas := createCanvas transparent (gwidth g) (gheight g);
         previousFrameData := None; compositedFrames := [] |}
      {| thumbTemp := createCanvas transparent (gwidth g) (gheight g);
         thumbPrevious := None;
         thumbCanvas := createCanvas transparent w h;
         thumbnails := [] |}) as Hsim.
    simpl in Hsim.
    destruct (for_loop (composited_body _ _ _ _ _) _ _ _) as [a|a],
      (for_loop (thumb_body _ _ _ _ _ _ _ _) _ _ _) as [b|b]; simpl.
    + destruct Hsim as (_ & _ & _ & Hsim); [|by rewrite Hsim].
      unfold thumb_related; simpl; split_and!; auto using has_size_createCanvas.
    + destruct Hsim. unfold thumb_related; simpl; split_and!;
        auto using has_size_createCanvas.
    + destruct Hsim. unfold thumb_related; simpl; split_and!;
        auto using has_size_createCanvas.
    + done.
  - intros Hempty Hfs. unfold generateThumbnails.
    destruct (frames g) as [|f fs] eqn:Hframes; [done|]. simpl.
    destruct (thumb_body_empty_canvas (f :: fs) (gwidth g) (gheight g) w h 0
                {| thumbTemp := createCanvas transparent (gwidth g) (gheight g);
                   thumbPrevious := None;
                   thumbCanvas := createCanvas transparent w h;
                   thumbnails := [] |} Hempty) as [st' ->].
    done.
Qed.

End ThumbnailExtras.

(** * The further properties on the sample animations *)

Lemma long_frames_valid : Forall valid_frame Sample.long_frames.
Proof. apply Forall_replicate. unfold valid_frame. simpl. lia. Qed.

Lemma compositing_fails_on_bad_patch_only_witness :
  is_Some (generateCompositedFrames Sample.Clear Sample.blend Sample.three_data)
  ∧ ¬ is_Some (cropGif Sample.Clear Sample.blend
                 [Sample.frame 0 0 2 1 [Sample.Ink 1] 100 0] 0 0 2 1).
Proof.
  split.
  - apply (proj1 (compositing_fails_on_bad_patch_only Sample.Clear Sample.blend
                    Sample.three_data 0 0 2 1
                    ltac:(simpl; lia) ltac:(simpl; lia) ltac:(lia) ltac:(lia))).
    exact three_frames_valid.
  - intros Hsome.
    apply (proj2 (compositing_fails_on_bad_patch_only Sample.Clear Sample.blend
                    {| frames := [Sample.frame 0 0 2 1 [Sample.Ink 1] 100 0];
                       gwidth := 2; gheight := 1; canvas := [] |} 0 0 2 1
                    ltac:(simpl; lia) ltac:(simpl; lia) ltac:(lia) ltac:(lia))) in Hsome.
    apply Forall_cons in Hsome as [(_ & _ & Hlen) _]. simpl in Hlen. lia.
Defined.

Lemma composited_frames_count_and_size_witness :
  generateCompositedFrames Sample.Clear Sample.blend Sample.three_data
  = Some [ [[Sample.Ink 1; Sample.Ink 1]];
           [[Sample.Ink 2; Sample.Ink 1]];
           [[Sample.Ink 1; Sample.Ink 3]] ]
  ∧ Forall (has_size 2 1) [ [[Sample.Ink 1; Sample.Ink 1]];
                            [[Sample.Ink 2; Sample.Ink 1]];
                            [[Sample.Ink 1; Sample.Ink 3]] ].
Proof.
  split; [reflexivity|].
  exact (proj2 (composited_frames_count_and_size Sample.Clear Sample.blend
                  Sample.three_data _ eq_refl)).
Defined.

Lemma successive_composites_witness :
  generateCompositedFrames Sample.Clear Sample.blend Sample.three_data
  = Some [ [[Sample.Ink 1; Sample.Ink 1]];
           [[Sample.Ink 2; Sample.Ink 1]];
           [[Sample.Ink 1; Sample.Ink 3]] ]
  ∧ ∃ img, patch_image (Sample.frame 0 0 2 1 [Sample.Ink 1; Sample.Ink 1] 100 0) = Some img
           ∧ [ [[Sample.Ink 1; Sample.Ink 1]];
               [[Sample.Ink 2; Sample.Ink 1]];
               [[Sample.Ink 1; Sample.Ink 3]] ] !! 0%nat
             = Some (draw_patch Sample.blend
                       (Sample.frame 0 0 2 1 [Sample.Ink 1; Sample.Ink 1] 100 0) img
                       (createCanvas Sample.Clear 2 1)).
Proof.
  split; [reflexivity|].
  exact (proj1 (successive_composites Sample.Clear Sample.blend Sample.three_data _ eq_refl)
           (Sample.frame 0 0 2 1 [Sample.Ink 1; Sample.Ink 1] 100 0) eq_refl).
Defined.

Lemma parseGifFile_preview_witness :
  is_Some (parseGifFile Sample.Clear Sample.three_gif).
Proof.
  apply (proj1 (parseGifFile_preview Sample.Clear Sample.three_gif)).
  exists (Sample.frame 0 0 2 1 [Sample.Ink 1; Sample.Ink 1] 100 0),
         [ Sample.frame 0 0 1 1 [Sample.Ink 2] 100 3;
           Sample.frame 1 0 1 1 [Sample.Ink 3] 0 0 ].
  split; [reflexivity|]. unfold valid_frame. simpl. lia.
Defined.

Lemma export_covers_trim_range_witness :
  trim_range_ok 3 (trimRange Sample.tail_request) = true
  ∧ handleExport Sample.Clear Sample.blend Sample.tail_request
    = ExportDone [ ([[Sample.Ink 2; Sample.Clear]], 100);
                   ([[Sample.Clear; Sample.Clear]], 0) ]
  ∧ Z.of_nat 2 = 2 - 1 + 1.
Proof.
  split; [reflexivity|]. split; [reflexivity|].
  exact (proj1 (export_covers_trim_range Sample.Clear Sample.blend Sample.tail_request
                  Sample.three_data
                  [ ([[Sample.Ink 2; Sample.Clear]], 100);
                    ([[Sample.Clear; Sample.Clear]], 0) ]
                  eq_refl eq_refl eq_refl)).
Defined.

Lemma seek_path_deterministic_without_restore_witness :
  Forall (λ f, disposalType f ≠ 3) (frames Sample.long_data)
  ∧ generateCompositedFrames Sample.Clear Sample.blend Sample.long_data
      ≫= (λ comp, comp !! 12%nat)
    = Some (compositionCanvas
              (render_sequence Sample.Clear Sample.blend Sample.long_data [25; 3; 12]
                 Sample.long_loaded)).
Proof.
  assert (Forall (λ f : ParsedFrame Sample.px, disposalType f ≠ 3)
            (frames Sample.long_data)) as Hno.
  { apply Forall_replicate. simpl. lia. }
  split; [exact Hno|].
  apply (seek_path_deterministic_without_restore Sample.Clear Sample.blend
           Sample.long_data [25; 3] 12 blend_transparent long_frames_valid Hno).
  repeat constructor; simpl; lia.
Defined.

Lemma renderToFrame_twice_witness :
  ∃ ed', renderToFrame Sample.Clear Sample.blend 2 Sample.three_data Sample.three_loaded
         = Normal ed'
         ∧ renderToFrame Sample.Clear Sample.blend 2 Sample.three_data ed' = Normal ed'.
Proof.
  destruct (renderToFrame Sample.Clear Sample.blend 2 Sample.three_data Sample.three_loaded)
    as [ed'|ed'] eqn:Hrender.
  - exists ed'. split; [reflexivity|].
    apply (renderToFrame_twice Sample.Clear Sample.blend Sample.three_data
             Sample.three_loaded ed' 2); [lia|exact Hrender].
  - exfalso.
    assert (is_normal (renderToFrame Sample.Clear Sample.blend 2 Sample.three_data
                         Sample.three_loaded) = true) as Hn by (vm_compute; reflexivity).
    rewrite Hrender in Hn. discriminate.
Defined.

Lemma seek_past_the_end_throws_witness :
  is_normal (renderToFrame Sample.Clear Sample.blend 5 Sample.three_data
               Sample.three_loaded) = false.
Proof.
  destruct (seek_past_the_end_throws Sample.Clear Sample.blend Sample.three_data
              Sample.three_loaded 5) as (ed' & -> & _).
  - simpl. lia.
  - assert (fst (start_point Sample.three_loaded 5) = 1) as -> by (vm_compute; reflexivity).
    lia.
  - reflexivity.
Defined.

Lemma backward_seek_replays_at_most_nine_witness :
  lastRenderedFrame (render_sequence Sample.Clear Sample.blend Sample.long_data [25]
                       Sample.long_loaded) = 25
  ∧ (replayed_frames (render_sequence Sample.Clear Sample.blend Sample.long_data [25%Z]
                        Sample.long_loaded) 13%Z ≤ 9)%nat.
Proof.
  assert (lastRenderedFrame (render_sequence Sample.Clear Sample.blend Sample.long_data [25]
                               Sample.long_loaded) = 25) as Hlast
    by (vm_compute; reflexivity).
  split; [exact Hlast|].
  refine (proj2 (proj2 (backward_seek_replays_at_most_nine Sample.Clear Sample.blend
                          Sample.long_data [25] 13 _))).
  fold Sample.long_loaded. rewrite Hlast. lia.
Defined.

Lemma latest_seek_wins_witness :
  running (render_returns 0 (run_events [Seek 2; Seek 0; Seek 1] (loaded_editor 3)))
  = [ {| via_queue := true; target := 1 |} ].
Proof.
  exact (proj1 (proj2 (proj2 (proj2
           (latest_seek_wins 2 [0; 1] (loaded_editor 3)
              eq_refl eq_refl eq_refl eq_refl eq_refl))))).
Defined.

Lemma thrown_render_strands_queued_seek_witness :
  nextSeekFrame (render_throws 0 (run_events [Seek 7; Seek 0; Seek 1] (loaded_editor 3)))
  = Some 1
  ∧ running (render_throws 0 (run_events [Seek 7; Seek 0; Seek 1] (loaded_editor 3))) = [].
Proof.
  destruct (thrown_render_strands_queued_seek 7 1 2 [0] (loaded_editor 3)
              eq_refl eq_refl eq_refl eq_refl eq_refl) as (Hrun & _ & Hnext & _).
  split; [exact Hnext|exact Hrun].
Defined.

Lemma playback_stays_in_trim_range_witness :
  currentFrameIdx
    (playback_advance
       (playback_advance
          (playback_advance (setIsPlaying true (loaded_editor 3))))) = 0.
Proof.
  assert (∀ s, isPlaying s = true → gifLoaded s = true → canvasReady s = true →
               playRange s = (0, 2) → 0 ≤ currentFrameIdx s ≤ 2 →
               currentFrameIdx (playback_advance s)
               = (if currentFrameIdx s =? 2 then 0 else currentFrameIdx s + 1)) as Hstep.
  { intros s Hp Hg Hc Hr Hcur.
    destruct (playback_stays_in_trim_range s Hp Hg Hc) as (_ & Hnext & _).
    - rewrite Hr. exact Hcur.
    - rewrite Hnext, Hr. reflexivity. }
  rewrite Hstep; try reflexivity. simpl. lia.
Defined.

Lemma playback_catch_up_is_bounded_witness :
  (accumulator (snd (loop_clock 100 1000 {| lastTime := 0; accumulator := 0 |}))
   <= inject_Z 100 * 5)%Q.
Proof.
  refine (proj1 (playback_catch_up_is_bounded 100 1000
                   {| lastTime := 0; accumulator := 0 |} _)).
  lia.
Defined.

Lemma opened_well_formed : Ui.well_formed (Ui.opened 5 2 1).
Proof.
  unfold Ui.well_formed, Ui.player_ok, Ui.in_frames. simpl.
  split_and!; try done; try lia.
  intros r [= <-]. reflexivity.
Qed.

Lemma editor_stays_inside_frames_witness :
  Ui.well_formed
    (Ui.run [ Ui.ClickThumbnail 3; Ui.ClickSetEnd; Ui.HandleDown Ui.DragStart;
              Ui.MouseMove 0 9 0; Ui.MouseUp; Ui.ClickUndo ]
            (Ui.opened 5 2 1)).
Proof.
  exact (proj1 (UiFacts.editor_stays_inside_frames _ (Ui.opened 5 2 1) opened_well_formed)).
Defined.

Lemma undo_redo_round_trip_witness :
  Ui.trimRange (Ui.handleRedo (Ui.handleUndo
                  (Ui.run [Ui.ClickThumbnail 3; Ui.ClickSetEnd] (Ui.opened 5 2 1))))
  = (0, 3).
Proof.
  refine (proj1 (proj2 (UiFacts.undo_redo_round_trip
                          (Ui.run [Ui.ClickThumbnail 3; Ui.ClickSetEnd] (Ui.opened 5 2 1)))
                   _)).
  eexists. reflexivity.
Defined.

Lemma undo_reverts_edit_witness :
  Ui.trimRange (Ui.handleUndo (Ui.setTrimEnd
                  (Ui.run [Ui.ClickThumbnail 3] (Ui.opened 5 2 1))))
  = (0, 4).
Proof.
  refine (proj1 (proj2 (proj2
            (proj1 (proj2 (UiFacts.undo_reverts_edit
                             (Ui.run [Ui.ClickThumbnail 3] (Ui.opened 5 2 1)))) _)))).
  simpl. lia.
Defined.

Lemma one_drag_one_undo_step_witness :
  Ui.trimRange (Ui.run [ Ui.HandleDown Ui.DragStart; Ui.MouseMove 0 2 0;
                         Ui.MouseMove 0 3 0; Ui.MouseUp ] (Ui.opened 5 2 1)) = (3, 4)
  ∧ Ui.past (Ui.run [ Ui.HandleDown Ui.DragStart; Ui.MouseMove 0 2 0;
                      Ui.MouseMove 0 3 0; Ui.MouseUp ] (Ui.opened 5 2 1))
    = [ Ui.getSnapshot (Ui.opened 5 2 1) ].
Proof.
  split; [reflexivity|].
  destruct (UiFacts.one_drag_one_undo_step Ui.DragStart [(0, 2, 0); (0, 3, 0)]
              (Ui.opened 5 2 1) eq_refl) as (_ & _ & _ & Hchanged).
  destruct Hchanged as (Hpast & _); [discriminate|exact Hpast].
Defined.

Lemma thumbnails_are_scaled_composites_witness :
  generateThumbnails Sample.Clear Sample.blend Sample.nearest Sample.three_data 1 1
  = Some [ [[Sample.Ink 1]]; [[Sample.Ink 2]]; [[Sample.Ink 1]] ]
  ∧ generateThumbnails Sample.Clear Sample.blend Sample.nearest Sample.three_data 0 1
    = None.
Proof.
  split.
  - rewrite (proj1 (thumbnails_are_scaled_composites Sample.Clear Sample.blend
                      Sample.nearest Sample.three_data 1 1
                      (λ src dest, has_size_paint 1 1 _ dest)
                      ltac:(simpl; lia) ltac:(simpl; lia)));
      [reflexivity|lia|lia].
  - apply (proj2 (thumbnails_are_scaled_composites Sample.Clear Sample.blend
                    Sample.nearest Sample.three_data 0 1
                    (λ src dest, has_size_paint 0 1 _ dest)
                    ltac:(simpl; lia) ltac:(simpl; lia))); [by left|done].
Defined.
